(** * Trillian MySQL storage: admin and log transactions

    A shallow embedding of [storage/mysql/admin_storage.go] and
    [storage/mysql/log_storage.go].  The Go code talks to a relational
    database through a [*sql.Tx] handle; here the database is an explicit
    value ([sqlTx]) threaded through every call.  Tables are lists of rows
    in insertion order, every data-modifying statement is recorded in the
    transaction's log of executed statements, and the only errors the
    database raises are the ones its keys and savepoints define (duplicate
    entry, unknown savepoint, no rows).  Connection failures, deadlocks and
    context cancellation are outside the model.  The mutex [t.mu] guards
    the transaction against concurrent use and has no sequential effect. *)

From Stdlib Require Import ZArith.
From Stdlib.Strings Require Import Byte.
From stdpp Require Import base option list sorting gmap strings.

Open Scope Z_scope.

(** ** Go base types *)

(** [[]byte] *)
Definition bytes : Type := list Byte.byte.

#[global] Instance byte_eq_dec : EqDecision Byte.byte := Byte.byte_eq_dec.

#[global] Program Instance byte_countable : Countable Byte.byte :=
  inj_countable Byte.to_N Byte.of_N _.
Next Obligation. exact Byte.of_to_N. Qed.

(** [len(x)] is a Go [int]. *)
Definition len {A} (l : list A) : Z := Z.of_nat (length l).

(** Conversions to [int64] and [uint64] wrap around. *)
Definition int64 (z : Z) : Z := (z + 2 ^ 63) mod 2 ^ 64 - 2 ^ 63.
Definition uint64 (z : Z) : Z := z mod 2 ^ 64.

(** [bytes.Compare]: lexicographic comparison of unsigned bytes. *)
Fixpoint bytes_Compare (a b : bytes) : Z :=
  match a, b with
  | [], [] => 0
  | [], _ :: _ => -1
  | _ :: _, [] => 1
  | x :: a', y :: b' =>
      if (Byte.to_N x <? Byte.to_N y)%N then -1
      else if (Byte.to_N y <? Byte.to_N x)%N then 1
      else bytes_Compare a' b'
  end.

(** [bytes.Equal] *)
Definition bytes_Equal (a b : bytes) : bool := bool_decide (a = b).

(** ** gRPC status codes and Go errors *)

Inductive Code :=
| codes_OK | codes_Canceled | codes_Unknown | codes_InvalidArgument
| codes_DeadlineExceeded | codes_NotFound | codes_AlreadyExists
| codes_PermissionDenied | codes_ResourceExhausted | codes_FailedPrecondition
| codes_Aborted | codes_OutOfRange | codes_Unimplemented | codes_Internal
| codes_Unavailable | codes_DataLoss | codes_Unauthenticated.

#[global] Instance Code_eq_dec : EqDecision Code.
Proof. solve_decision. Defined.

(** The status proto carried by a [QueuedLogLeaf]; the formatted message is
    kept without its interpolated arguments. *)
Record spb_Status := { status_Code : Code; status_Message : string }.

(** Errors of the database driver. *)
Inductive sqlError :=
| ErrNoRows
| MySQLError (Number : Z).

Definition ER_DUP_ENTRY : Z := 1062.
Definition ER_SP_DOES_NOT_EXIST : Z := 1305.
Definition ER_LOCK_DEADLOCK : Z := 1213.

(** A Go [error] value: a gRPC status error ([status.Errorf]), a plain
    error ([fmt.Errorf], [errors.New]) or a driver error.  The last
    constructor is no error value: [Err (panic v)] is the outcome of a call
    that does not return but panics with the value [v]. *)
Inductive error :=
| status_Errorf (c : Code) (msg : string)
| fmt_Errorf (msg : string)
| driverErr (e : sqlError)
| panic (v : string).

#[global] Instance sqlError_eq_dec : EqDecision sqlError.
Proof. solve_decision. Defined.

#[global] Instance error_eq_dec : EqDecision error.
Proof. solve_decision. Defined.

(** [(T, error)] results; a lone [error] result is an [option error]. *)
Inductive result (A : Type) :=
| Ok (a : A)
| Err (e : error).
Arguments Ok {A} a.
Arguments Err {A} e.

Definition is_Ok {A} (r : result A) : bool :=
  match r with Ok _ => true | Err _ => false end.

(** [make([]*T, 0, cap)] of the Go runtime ([makeslice]), for a slice of
    pointers on a 64-bit platform: the call panics unless [0 ≤ cap] and the
    [8 * cap] bytes of the backing array are within [maxAlloc].  Within
    these bounds the slice is made: a machine that runs out of memory ends
    the program, which is not part of the model. *)
Definition maxAlloc : Z := 2 ^ 48.

Definition makeslice_cap_out_of_range (cap : Z) : bool :=
  bool_decide (cap < 0 ∨ maxAlloc < 8 * cap).

Definition panicmakeslicecap : error :=
  panic "runtime error: makeslice: cap out of range".

(** ** The database *)

Record LeafDataRow := {
  ld_TreeId : Z;
  ld_LeafIdentityHash : bytes;
  ld_LeafValue : bytes;
  ld_ExtraData : bytes;
  ld_QueueTimestampNanos : Z }.

Record SequencedLeafDataRow := {
  sl_TreeId : Z;
  sl_LeafIdentityHash : bytes;
  sl_MerkleLeafHash : bytes;
  sl_SequenceNumber : Z;
  sl_IntegrateTimestampNanos : Z }.

Record UnsequencedRow := {
  us_TreeId : Z;
  us_Bucket : Z;
  us_LeafIdentityHash : bytes;
  us_MerkleLeafHash : bytes;
  us_QueueTimestampNanos : Z }.

Record TreeHeadRow := {
  th_TreeId : Z;
  th_TreeHeadTimestamp : Z;
  th_TreeSize : Z;
  th_RootHash : bytes;
  th_TreeRevision : Z;
  th_RootSignature : bytes }.

(** A row of [Trees], with the columns of [selectTrees] in order. *)
Record TreesRow := {
  tr_TreeId : Z;
  tr_TreeState : string;
  tr_TreeType : string;
  tr_HashStrategy : string;
  tr_HashAlgorithm : string;
  tr_SignatureAlgorithm : string;
  tr_DisplayName : string;
  tr_Description : string;
  tr_CreateTimeMillis : Z;
  tr_UpdateTimeMillis : Z;
  tr_PrivateKey : bytes;
  tr_PublicKey : bytes;
  tr_MaxRootDurationMillis : Z;
  tr_Deleted : option bool;
  tr_DeleteTimeMillis : option Z }.

Record TreeControlRow := {
  tc_TreeId : Z;
  tc_SigningEnabled : bool;
  tc_SequencingEnabled : bool;
  tc_SequenceIntervalSeconds : Z }.

Record DB := {
  Trees : list TreesRow;
  TreeControl : list TreeControlRow;
  TreeHead : list TreeHeadRow;
  LeafData : list LeafDataRow;
  SequencedLeafData : list SequencedLeafDataRow;
  Unsequenced : list UnsequencedRow }.

Definition set_Trees (f : list TreesRow → list TreesRow) (d : DB) : DB :=
  {| Trees := f (Trees d); TreeControl := TreeControl d; TreeHead := TreeHead d;
     LeafData := LeafData d; SequencedLeafData := SequencedLeafData d;
     Unsequenced := Unsequenced d |}.
Definition set_TreeControl (f : list TreeControlRow → list TreeControlRow) (d : DB) : DB :=
  {| Trees := Trees d; TreeControl := f (TreeControl d); TreeHead := TreeHead d;
     LeafData := LeafData d; SequencedLeafData := SequencedLeafData d;
     Unsequenced := Unsequenced d |}.
Definition set_TreeHead (f : list TreeHeadRow → list TreeHeadRow) (d : DB) : DB :=
  {| Trees := Trees d; TreeControl := TreeControl d; TreeHead := f (TreeHead d);
     LeafData := LeafData d; SequencedLeafData := SequencedLeafData d;
     Unsequenced := Unsequenced d |}.
Definition set_LeafData (f : list LeafDataRow → list LeafDataRow) (d : DB) : DB :=
  {| Trees := Trees d; TreeControl := TreeControl d; TreeHead := TreeHead d;
     LeafData := f (LeafData d); SequencedLeafData := SequencedLeafData d;
     Unsequenced := Unsequenced d |}.
Definition set_SequencedLeafData
  (f : list SequencedLeafDataRow → list SequencedLeafDataRow) (d : DB) : DB :=
  {| Trees := Trees d; TreeControl := TreeControl d; TreeHead := TreeHead d;
     LeafData := LeafData d; SequencedLeafData := f (SequencedLeafData d);
     Unsequenced := Unsequenced d |}.
Definition set_Unsequenced (f : list UnsequencedRow → list UnsequencedRow) (d : DB) : DB :=
  {| Trees := Trees d; TreeControl := TreeControl d; TreeHead := TreeHead d;
     LeafData := LeafData d; SequencedLeafData := SequencedLeafData d;
     Unsequenced := f (Unsequenced d) |}.

(** *** Unique keys

    Modelled from the spec: the schema is declared outside the two files;
    the keys are the ones of the spec's storage schema.  [LeafData] is unique on
    [(TreeId, LeafIdentityHash)]; [SequencedLeafData] has the primary key
    [(TreeId, SequenceNumber)] and is unique on [(TreeId, LeafIdentityHash)];
    [TreeHead] is keyed by [(TreeId, TreeRevision)]; the primary key of
    [Unsequenced] includes the bucket and covers the dequeue order
    [(bucket, queue_timestamp, leaf_identity_hash)].  Foreign keys (and
    their cascades) are not part of the model: a statement changes the
    table it names and no other. *)
Definition LeafData_conflict (a b : LeafDataRow) : bool :=
  bool_decide (ld_TreeId a = ld_TreeId b)
  && bool_decide (ld_LeafIdentityHash a = ld_LeafIdentityHash b).

Definition SequencedLeafData_conflict (a b : SequencedLeafDataRow) : bool :=
  bool_decide (sl_TreeId a = sl_TreeId b)
  && (bool_decide (sl_SequenceNumber a = sl_SequenceNumber b)
      || bool_decide (sl_LeafIdentityHash a = sl_LeafIdentityHash b)).

Definition Unsequenced_conflict (a b : UnsequencedRow) : bool :=
  bool_decide (us_TreeId a = us_TreeId b)
  && bool_decide (us_Bucket a = us_Bucket b)
  && bool_decide (us_QueueTimestampNanos a = us_QueueTimestampNanos b)
  && bool_decide (us_LeafIdentityHash a = us_LeafIdentityHash b).

Definition TreeHead_conflict (a b : TreeHeadRow) : bool :=
  bool_decide (th_TreeId a = th_TreeId b)
  && bool_decide (th_TreeRevision a = th_TreeRevision b).

(** *** Statements *)

(** The data-modifying statements the two files execute, each with its
    bound arguments in the order the code passes them.

    Modelled from the spec: the texts of [insertUnsequencedEntrySQL] (with
    [queueArgs]) and [insertTreeHeadSQL] are declared outside the two
    files.  The first inserts the queued entry (tree id, leaf identity
    hash, Merkle leaf hash, queue timestamp) with the bucket 0; the second
    inserts the tree head (tree id, timestamp, tree size, root hash,
    revision, signature). *)
Inductive Stmt :=
| insertLeafDataSQL (TreeId : Z) (LeafIdentityHash LeafValue ExtraData : bytes)
    (QueueTimestampNanos : Z)
| insertSequencedLeafSQL (TreeId : Z) (LeafIdentityHash MerkleLeafHash : bytes)
    (SequenceNumber IntegrateTimestampNanos : Z)
| insertUnsequencedEntrySQL (TreeId : Z) (LeafIdentityHash MerkleLeafHash : bytes)
    (QueueTimestampNanos : Z)
| insertTreeHeadSQL (TreeId TreeHeadTimestamp TreeSize : Z) (RootHash : bytes)
    (TreeRevision : Z) (RootSignature : bytes)
| updateTreeSQL (TreeState TreeType DisplayName Description : string)
    (UpdateTimeMillis MaxRootDurationMillis : Z) (PrivateKey : bytes) (TreeId : Z)
| UPDATE_Trees_SET_Deleted (Deleted : bool) (DeleteTimeMillis : option Z) (TreeId : Z)
| DELETE_FROM_TreeControl (TreeId : Z)
| DELETE_FROM_Trees (TreeId : Z)
| SAVEPOINT
| ROLLBACK_TO_SAVEPOINT
| RELEASE_SAVEPOINT.

(** The state behind a [*sql.Tx]: the tables as the transaction sees them,
    the snapshot taken by the last [SAVEPOINT AddSequencedLeaves] (setting
    a savepoint of a name in use replaces the older one), and the statements
    executed so far, oldest first. *)
Record sqlTx := {
  db : DB;
  savepoint : option DB;
  executed : list Stmt }.

Definition insert_row {Row} (conflict : Row → Row → bool) (row : Row)
  (table : list Row) : option (list Row) :=
  if existsb (conflict row) table then None else Some (table ++ [row]).

(** The effect of a statement on the tables and the savepoint: the number
    of rows affected, or the driver's error with nothing changed.  A
    [DELETE] removes the rows its [WHERE] clause selects; what a foreign
    key of the schema would cascade is no part of the statement and is
    left out. *)
Definition run (st : Stmt) (d : DB) (sp : option DB) : result Z * DB * option DB :=
  match st with
  | insertLeafDataSQL tid h v e q =>
      let row := {| ld_TreeId := tid; ld_LeafIdentityHash := h; ld_LeafValue := v;
                    ld_ExtraData := e; ld_QueueTimestampNanos := q |} in
      match insert_row LeafData_conflict row (LeafData d) with
      | Some t => (Ok 1, set_LeafData (λ _, t) d, sp)
      | None => (Err (driverErr (MySQLError ER_DUP_ENTRY)), d, sp)
      end
  | insertSequencedLeafSQL tid h m n i =>
      let row := {| sl_TreeId := tid; sl_LeafIdentityHash := h; sl_MerkleLeafHash := m;
                    sl_SequenceNumber := n; sl_IntegrateTimestampNanos := i |} in
      match insert_row SequencedLeafData_conflict row (SequencedLeafData d) with
      | Some t => (Ok 1, set_SequencedLeafData (λ _, t) d, sp)
      | None => (Err (driverErr (MySQLError ER_DUP_ENTRY)), d, sp)
      end
  | insertUnsequencedEntrySQL tid h m q =>
      let row := {| us_TreeId := tid; us_Bucket := 0; us_LeafIdentityHash := h;
                    us_MerkleLeafHash := m; us_QueueTimestampNanos := q |} in
      match insert_row Unsequenced_conflict row (Unsequenced d) with
      | Some t => (Ok 1, set_Unsequenced (λ _, t) d, sp)
      | None => (Err (driverErr (MySQLError ER_DUP_ENTRY)), d, sp)
      end
  | insertTreeHeadSQL tid ts size hash rev sig =>
      let row := {| th_TreeId := tid; th_TreeHeadTimestamp := ts; th_TreeSize := size;
                    th_RootHash := hash; th_TreeRevision := rev;
                    th_RootSignature := sig |} in
      match insert_row TreeHead_conflict row (TreeHead d) with
      | Some t => (Ok 1, set_TreeHead (λ _, t) d, sp)
      | None => (Err (driverErr (MySQLError ER_DUP_ENTRY)), d, sp)
      end
  | updateTreeSQL state type name descr upd dur priv tid =>
      let upd_row r :=
        if bool_decide (tr_TreeId r = tid) then
          {| tr_TreeId := tr_TreeId r; tr_TreeState := state; tr_TreeType := type;
             tr_HashStrategy := tr_HashStrategy r;
             tr_HashAlgorithm := tr_HashAlgorithm r;
             tr_SignatureAlgorithm := tr_SignatureAlgorithm r;
             tr_DisplayName := name; tr_Description := descr;
             tr_CreateTimeMillis := tr_CreateTimeMillis r;
             tr_UpdateTimeMillis := upd; tr_PrivateKey := priv;
             tr_PublicKey := tr_PublicKey r; tr_MaxRootDurationMillis := dur;
             tr_Deleted := tr_Deleted r; tr_DeleteTimeMillis := tr_DeleteTimeMillis r |}
        else r in
      (Ok (len (filter (λ r, tr_TreeId r = tid) (Trees d))),
       set_Trees (map upd_row) d, sp)
  | UPDATE_Trees_SET_Deleted deleted dtime tid =>
      let upd_row r :=
        if bool_decide (tr_TreeId r = tid) then
          {| tr_TreeId := tr_TreeId r; tr_TreeState := tr_TreeState r;
             tr_TreeType := tr_TreeType r; tr_HashStrategy := tr_HashStrategy r;
             tr_HashAlgorithm := tr_HashAlgorithm r;
             tr_SignatureAlgorithm := tr_SignatureAlgorithm r;
             tr_DisplayName := tr_DisplayName r; tr_Description := tr_Description r;
             tr_CreateTimeMillis := tr_CreateTimeMillis r;
             tr_UpdateTimeMillis := tr_UpdateTimeMillis r;
             tr_PrivateKey := tr_PrivateKey r; tr_PublicKey := tr_PublicKey r;
             tr_MaxRootDurationMillis := tr_MaxRootDurationMillis r;
             tr_Deleted := Some deleted; tr_DeleteTimeMillis := dtime |}
        else r in
      (Ok (len (filter (λ r, tr_TreeId r = tid) (Trees d))),
       set_Trees (map upd_row) d, sp)
  | DELETE_FROM_TreeControl tid =>
      (Ok (len (filter (λ r, tc_TreeId r = tid) (TreeControl d))),
       set_TreeControl (filter (λ r, tc_TreeId r ≠ tid)) d, sp)
  | DELETE_FROM_Trees tid =>
      (Ok (len (filter (λ r, tr_TreeId r = tid) (Trees d))),
       set_Trees (filter (λ r, tr_TreeId r ≠ tid)) d, sp)
  | SAVEPOINT => (Ok 0, d, Some d)
  | ROLLBACK_TO_SAVEPOINT =>
      match sp with
      | Some d0 => (Ok 0, d0, sp)
      | None => (Err (driverErr (MySQLError ER_SP_DOES_NOT_EXIST)), d, sp)
      end
  | RELEASE_SAVEPOINT =>
      match sp with
      | Some _ => (Ok 0, d, None)
      | None => (Err (driverErr (MySQLError ER_SP_DOES_NOT_EXIST)), d, sp)
      end
  end.

(** [tx.ExecContext(ctx, stmt, args...)]: runs the statement and records
    it; the result is the [sql.Result]'s number of affected rows. *)
Definition ExecContext (s : sqlTx) (st : Stmt) : result Z * sqlTx :=
  let '(r, d, sp) := run st (db s) (savepoint s) in
  (r, {| db := d; savepoint := sp; executed := executed s ++ [st] |}).

(** [QueryRowContext(...).Scan(...)]: the first row, or [sql.ErrNoRows]. *)
Definition QueryRow {Row} (rows : list Row) : result Row :=
  match rows with
  | [] => Err (driverErr ErrNoRows)
  | r :: _ => Ok r
  end.

(** ** Time and the well-known protobuf types *)

(** A [time.Time], as nanoseconds since the Unix epoch. *)
Definition Time : Type := Z.

Record Timestamp := { Seconds : Z; Nanos : Z }.

#[global] Instance Timestamp_eq_dec : EqDecision Timestamp.
Proof. solve_decision. Defined.

(** [timestamppb.New] *)
Definition timestamppb_New (t : Time) : Timestamp :=
  {| Seconds := t `div` 1000000000; Nanos := t `mod` 1000000000 |}.

(** [Timestamp.CheckValid]: between 0001-01-01 and 9999-12-31, with the
    nanoseconds inside one second; [nil] is invalid. *)
Definition Timestamp_CheckValid (x : option Timestamp) : option error :=
  match x with
  | None => Some (fmt_Errorf "invalid nil Timestamp")
  | Some ts =>
      if bool_decide (Seconds ts < -62135596800) then
        Some (fmt_Errorf "timestamp before 0001-01-01")
      else if bool_decide (Seconds ts > 253402300799) then
        Some (fmt_Errorf "timestamp after 9999-12-31")
      else if bool_decide (Nanos ts < 0 ∨ Nanos ts >= 1000000000) then
        Some (fmt_Errorf "timestamp has out-of-range nanos")
      else None
  end.

(** [Timestamp.AsTime] *)
Definition Timestamp_AsTime (ts : Timestamp) : Time :=
  Seconds ts * 1000000000 + Nanos ts.

(** [Time.UnixNano] is an [int64]. *)
Definition UnixNano (t : Time) : Z := int64 t.

(** [time.Unix(0, nsec)] *)
Definition time_Unix0 (nsec : Z) : Time := nsec.

Record Duration := { dur_Seconds : Z; dur_Nanos : Z }.
Record Any := { TypeUrl : string; Value : bytes }.

(** ** Trees *)

Inductive TreeState :=
| UNKNOWN_TREE_STATE | ACTIVE | FROZEN | DEPRECATED_SOFT_DELETED
| DEPRECATED_HARD_DELETED | DRAINING.

Inductive TreeType :=
| UNKNOWN_TREE_TYPE | LOG | MAP | PREORDERED_LOG.

#[global] Instance TreeType_eq_dec : EqDecision TreeType.
Proof. solve_decision. Defined.

Definition TreeState_String (s : TreeState) : string :=
  match s with
  | UNKNOWN_TREE_STATE => "UNKNOWN_TREE_STATE"
  | ACTIVE => "ACTIVE"
  | FROZEN => "FROZEN"
  | DEPRECATED_SOFT_DELETED => "DEPRECATED_SOFT_DELETED"
  | DEPRECATED_HARD_DELETED => "DEPRECATED_HARD_DELETED"
  | DRAINING => "DRAINING"
  end.

Definition TreeType_String (t : TreeType) : string :=
  match t with
  | UNKNOWN_TREE_TYPE => "UNKNOWN_TREE_TYPE"
  | LOG => "LOG"
  | MAP => "MAP"
  | PREORDERED_LOG => "PREORDERED_LOG"
  end.

(** [trillian.Tree] *)
Record Tree := {
  TreeId : Z;
  tree_TreeState : TreeState;
  tree_TreeType : TreeType;
  DisplayName : string;
  Description : string;
  StorageSettings : option Any;
  MaxRootDuration : option Duration;
  CreateTime : option Timestamp;
  UpdateTime : option Timestamp;
  Deleted : bool;
  DeleteTime : option Timestamp }.

Definition set_UpdateTime (ts : option Timestamp) (t : Tree) : Tree :=
  {| TreeId := TreeId t; tree_TreeState := tree_TreeState t;
     tree_TreeType := tree_TreeType t; DisplayName := DisplayName t;
     Description := Description t; StorageSettings := StorageSettings t;
     MaxRootDuration := MaxRootDuration t; CreateTime := CreateTime t;
     UpdateTime := ts; Deleted := Deleted t; DeleteTime := DeleteTime t |}.

(** ** admin_storage.go *)

Section AdminStorage.

(** Collaborators declared outside the two files: the row reader of the
    package, the update validation of the storage package, the millisecond
    conversions, and the protobuf library's checks on [Any] and
    [Duration]. *)
Variable readTree : TreesRow → result Tree.
Variable ValidateTreeForUpdate : Tree → Tree → option error.
Variable MessageIs_StorageOptions : option Any → bool.
Variable Duration_CheckValid : option Duration → option error.
Variable Duration_AsDuration : option Duration → Z.
Variable toMillisSinceEpoch : Time → Z.
Variable fromMillisSinceEpoch : Z → Time.

(** [selectTreeByID] *)
Definition selectTreeByID (d : DB) (treeID : Z) : list TreesRow :=
  filter (λ r, tr_TreeId r = treeID) (Trees d).

(** [readTree] applied to a [*sql.Row]: scanning an absent row gives
    [sql.ErrNoRows]. *)
Definition readTree_Row (rows : list TreesRow) : result Tree :=
  match QueryRow rows with
  | Err e => Err e
  | Ok r => readTree r
  end.

Definition GetTree (s : sqlTx) (treeID : Z) : result Tree :=
  match readTree_Row (selectTreeByID (db s) treeID) with
  | Err (driverErr ErrNoRows) => Err (status_Errorf codes_NotFound "tree not found")
  | Err _ => Err (fmt_Errorf "error reading tree")
  | Ok tree => Ok tree
  end.

Definition validateStorageSettings (tree : Tree) : option error :=
  if MessageIs_StorageOptions (StorageSettings tree) then None
  else match StorageSettings tree with
       | None => None
       | Some _ =>
           Some (fmt_Errorf "storage_settings must be nil or mysqlpb.StorageOptions")
       end.

(** [time.Millisecond], in nanoseconds. *)
Definition time_Millisecond : Z := 1000000.

(** [now] stands for the reading of [time.Now()]. *)
Definition UpdateTree (s : sqlTx) (treeID : Z) (updateFunc : Tree → Tree) (now : Time)
  : result Tree * sqlTx :=
  match GetTree s treeID with
  | Err e => (Err e, s)
  | Ok tree0 =>
      let beforeUpdate := tree0 in
      let tree := updateFunc tree0 in
      match ValidateTreeForUpdate beforeUpdate tree with
      | Some e => (Err e, s)
      | None =>
      match validateStorageSettings tree with
      | Some e => (Err e, s)
      | None =>
          let nowMillis := toMillisSinceEpoch now in
          let now' := fromMillisSinceEpoch nowMillis in
          let tree := set_UpdateTime (Some (timestamppb_New now')) tree in
          match Duration_CheckValid (MaxRootDuration tree) with
          | Some _ => (Err (fmt_Errorf "could not parse MaxRootDuration"), s)
          | None =>
              let rootDuration := Duration_AsDuration (MaxRootDuration tree) in
              let '(r, s1) :=
                ExecContext s
                  (updateTreeSQL
                     (TreeState_String (tree_TreeState tree))
                     (TreeType_String (tree_TreeType tree))
                     (DisplayName tree)
                     (Description tree)
                     nowMillis
                     (rootDuration `quot` time_Millisecond)
                     []
                     (TreeId tree)) in
              match r with
              | Err e => (Err e, s1)
              | Ok _ => (Ok tree, s1)
              end
          end
      end
      end
  end.

(** [sql.NullBool] *)
Record NullBool := { Bool : bool; Valid : bool }.

Definition scan_NullBool (v : option bool) : NullBool :=
  match v with
  | Some b => {| Bool := b; Valid := true |}
  | None => {| Bool := false; Valid := false |}
  end.

(** ["SELECT Deleted FROM Trees WHERE TreeId = ?"] *)
Definition SELECT_Deleted_FROM_Trees (d : DB) (treeID : Z) : list (option bool) :=
  map tr_Deleted (filter (λ r, tr_TreeId r = treeID) (Trees d)).

Definition validateDeleted (s : sqlTx) (treeID : Z) (wantDeleted : bool) : option error :=
  match QueryRow (SELECT_Deleted_FROM_Trees (db s) treeID) with
  | Err (driverErr ErrNoRows) => Some (status_Errorf codes_NotFound "tree not found")
  | Err e => Some e
  | Ok v =>
      let nullDeleted := scan_NullBool v in
      let deleted := Valid nullDeleted && Bool nullDeleted in
      if wantDeleted && negb deleted then
        Some (status_Errorf codes_FailedPrecondition "tree is not soft deleted")
      else if negb wantDeleted && deleted then
        Some (status_Errorf codes_FailedPrecondition "tree already soft deleted")
      else None
  end.

Definition updateDeleted (s : sqlTx) (treeID : Z) (deleted : bool)
  (deleteTimeMillis : option Z) : result Tree * sqlTx :=
  match validateDeleted s treeID (negb deleted) with
  | Some e => (Err e, s)
  | None =>
      let '(r, s1) := ExecContext s (UPDATE_Trees_SET_Deleted deleted deleteTimeMillis treeID) in
      match r with
      | Err e => (Err e, s1)
      | Ok _ => (GetTree s1 treeID, s1)
      end
  end.

Definition SoftDeleteTree (s : sqlTx) (treeID : Z) (now : Time) : result Tree * sqlTx :=
  updateDeleted s treeID true (Some (toMillisSinceEpoch now)).

Definition UndeleteTree (s : sqlTx) (treeID : Z) : result Tree * sqlTx :=
  updateDeleted s treeID false None.

Definition HardDeleteTree (s : sqlTx) (treeID : Z) : option error * sqlTx :=
  match validateDeleted s treeID true with
  | Some e => (Some e, s)
  | None =>
      let '(r, s1) := ExecContext s (DELETE_FROM_TreeControl treeID) in
      match r with
      | Err e => (Some e, s1)
      | Ok _ =>
          let '(r2, s2) := ExecContext s1 (DELETE_FROM_Trees treeID) in
          (match r2 with Err e => Some e | Ok _ => None end, s2)
      end
  end.

End AdminStorage.

(** ** Log leaves and roots *)

(** [trillian.LogLeaf] *)
Record LogLeaf := {
  MerkleLeafHash : bytes;
  LeafValue : bytes;
  ExtraData : bytes;
  LeafIndex : Z;
  LeafIdentityHash : bytes;
  QueueTimestamp : option Timestamp;
  IntegrateTimestamp : option Timestamp }.

#[global] Instance LogLeaf_eq_dec : EqDecision LogLeaf.
Proof. solve_decision. Defined.

Definition set_QueueTimestamp (ts : option Timestamp) (l : LogLeaf) : LogLeaf :=
  {| MerkleLeafHash := MerkleLeafHash l; LeafValue := LeafValue l;
     ExtraData := ExtraData l; LeafIndex := LeafIndex l;
     LeafIdentityHash := LeafIdentityHash l; QueueTimestamp := ts;
     IntegrateTimestamp := IntegrateTimestamp l |}.

Definition set_IntegrateTimestamp (ts : option Timestamp) (l : LogLeaf) : LogLeaf :=
  {| MerkleLeafHash := MerkleLeafHash l; LeafValue := LeafValue l;
     ExtraData := ExtraData l; LeafIndex := LeafIndex l;
     LeafIdentityHash := LeafIdentityHash l; QueueTimestamp := QueueTimestamp l;
     IntegrateTimestamp := ts |}.

(** [trillian.QueuedLogLeaf] *)
Record QueuedLogLeaf := {
  Leaf : option LogLeaf;
  Status : option spb_Status }.

(** [types.LogRootV1] *)
Record LogRootV1 := {
  TreeSize : Z;
  RootHash : bytes;
  TimestampNanos : Z;
  Revision : Z;
  Metadata : bytes }.

(** [trillian.SignedLogRoot] *)
Record SignedLogRoot := { LogRoot : bytes }.

(** [leafAndPosition] records original position before sort. *)
Record leafAndPosition := {
  leaf : LogLeaf;
  idx : nat }.

(** What the transaction remembers of a dequeued leaf. *)
Record dequeuedLeaf := {
  dq_queueTimestampNanos : Z;
  dq_leafIdentityHash : bytes }.

(** [logTreeTX] with the fields of the embedded [treeTX] it uses.  The
    database handle [tx] is the [sqlTx] passed beside it. *)
Record logTreeTX := {
  treeID : Z;
  treeType : TreeType;
  hashSizeBytes : Z;
  writeRevision : Z;
  root : LogRootV1;
  readRev : Z;
  slr : option SignedLogRoot;
  dequeued : gmap bytes dequeuedLeaf }.

Definition set_dequeued (m : gmap bytes dequeuedLeaf) (t : logTreeTX) : logTreeTX :=
  {| treeID := treeID t; treeType := treeType t; hashSizeBytes := hashSizeBytes t;
     writeRevision := writeRevision t; root := root t; readRev := readRev t;
     slr := slr t; dequeued := m |}.

(** The value of a result that is not an error. *)
Definition err_of_ok {A} (r : result A) : option A :=
  match r with Ok a => Some a | Err _ => None end.

(** The [error] of an [(sql.Result, error)] pair. *)
Definition err_of {A} (r : result A) : option error :=
  match r with Ok _ => None | Err e => Some e end.

(** Modelled from the spec: [isDuplicateErr] is declared outside the two
    files; it recognises the unique-violation of an insert, which is the
    driver's duplicate-entry error. *)
Definition isDuplicateErr (err : option error) : bool :=
  match err with
  | Some (driverErr (MySQLError n)) => bool_decide (n = ER_DUP_ENTRY)
  | _ => false
  end.

(** Modelled from the spec: [mysqlToGRPC] is declared outside the two files;
    a transient isolation conflict of the backend surfaces as [Aborted], any
    other error is passed on. *)
Definition mysqlToGRPC (e : error) : error :=
  match e with
  | driverErr (MySQLError n) =>
      if bool_decide (n = ER_LOCK_DEADLOCK)
      then status_Errorf codes_Aborted "MySQL: deadlock" else e
  | _ => e
  end.

(** Modelled from the spec: [checkResultOkAndRowCountIs] is declared outside
    the two files; it fails on the statement's error and when the number of
    affected rows is not the wanted one. *)
Definition checkResultOkAndRowCountIs (res : result Z) (count : Z) : option error :=
  match res with
  | Err e => Some (mysqlToGRPC e)
  | Ok rowsAffected =>
      if bool_decide (rowsAffected ≠ count)
      then Some (fmt_Errorf "expected row(s) to be affected") else None
  end.

(** The seven columns the leaf-selection statements return.  The integrate
    timestamp is [NULL] when a [LEFT JOIN] finds no sequenced entry. *)
Record leafRow := {
  row_MerkleLeafHash : bytes;
  row_LeafIdentityHash : bytes;
  row_LeafValue : bytes;
  row_SequenceNumber : Z;
  row_ExtraData : bytes;
  row_QueueTimestampNanos : Z;
  row_IntegrateTimestampNanos : option Z }.

Definition SequenceNumber_le (a b : leafRow) : Prop :=
  row_SequenceNumber a ≤ row_SequenceNumber b.

#[global] Instance SequenceNumber_le_dec a b : Decision (SequenceNumber_le a b).
Proof. unfold SequenceNumber_le. apply _. Defined.

(** [selectLeavesByRangeSQL]: the join of the leaf and sequence stores on
    the identity hash, for one tree and the sequence numbers in
    [[lo, hi)], ordered by sequence number. *)
Definition selectLeavesByRangeSQL (d : DB) (lo hi treeID : Z) : list leafRow :=
  merge_sort SequenceNumber_le
    (flat_map
       (λ l,
          map (λ s, {| row_MerkleLeafHash := sl_MerkleLeafHash s;
                       row_LeafIdentityHash := ld_LeafIdentityHash l;
                       row_LeafValue := ld_LeafValue l;
                       row_SequenceNumber := sl_SequenceNumber s;
                       row_ExtraData := ld_ExtraData l;
                       row_QueueTimestampNanos := ld_QueueTimestampNanos l;
                       row_IntegrateTimestampNanos :=
                         Some (sl_IntegrateTimestampNanos s) |})
            (filter (λ s, ld_LeafIdentityHash l = sl_LeafIdentityHash s
                          ∧ sl_SequenceNumber s >= lo ∧ sl_SequenceNumber s < hi
                          ∧ ld_TreeId l = treeID ∧ sl_TreeId s = ld_TreeId l)
               (SequencedLeafData d)))
       (LeafData d)).

(** [dummyMerkleLeafHash]: thirty-two ASCII zeros. *)
Definition dummyMerkleLeafHash : bytes := replicate 32 Byte.x30.

(** [selectLeavesByLeafIdentityHashSQL]: the leaf-store rows of one tree
    whose identity hash is listed, each with the integrate timestamp of its
    sequenced entry when it has one. *)
Definition selectLeavesByLeafIdentityHashSQL (d : DB) (hashes : list bytes) (treeID : Z)
  : list leafRow :=
  flat_map
    (λ l,
       let row i := {| row_MerkleLeafHash := dummyMerkleLeafHash;
                       row_LeafIdentityHash := ld_LeafIdentityHash l;
                       row_LeafValue := ld_LeafValue l;
                       row_SequenceNumber := -1;
                       row_ExtraData := ld_ExtraData l;
                       row_QueueTimestampNanos := ld_QueueTimestampNanos l;
                       row_IntegrateTimestampNanos := i |} in
       match filter (λ s, ld_LeafIdentityHash l = sl_LeafIdentityHash s
                          ∧ ld_TreeId l = sl_TreeId s) (SequencedLeafData d) with
       | [] => [row None]
       | ss => map (λ s, row (Some (sl_IntegrateTimestampNanos s))) ss
       end)
    (filter (λ l, ld_LeafIdentityHash l ∈ hashes ∧ ld_TreeId l = treeID) (LeafData d)).

Definition Unsequenced_le (a b : UnsequencedRow) : Prop :=
  us_Bucket a < us_Bucket b
  ∨ (us_Bucket a = us_Bucket b
     ∧ (us_QueueTimestampNanos a < us_QueueTimestampNanos b
        ∨ (us_QueueTimestampNanos a = us_QueueTimestampNanos b
           ∧ bytes_Compare (us_LeafIdentityHash a) (us_LeafIdentityHash b) ≤ 0))).

#[global] Instance Unsequenced_le_dec a b : Decision (Unsequenced_le a b).
Proof. unfold Unsequenced_le. apply _. Defined.

(** Modelled from the spec: [selectQueuedLeavesSQL] is declared outside the
    two files; it selects up to [limit] queued entries of the tree with
    [queue_timestamp ≤ cutoff_ts], ordered by
    [(bucket, queue_timestamp, leaf_identity_hash)]. *)
Definition selectQueuedLeavesSQL (d : DB) (treeID cutoff limit : Z) : list UnsequencedRow :=
  take (Z.to_nat limit)
    (merge_sort Unsequenced_le
       (filter (λ u, us_TreeId u = treeID ∧ us_QueueTimestampNanos u ≤ cutoff)
          (Unsequenced d))).

(** ** log_storage.go *)

(** [byLeafIdentityHashWithPosition.Less], on two entries. *)
Definition Less (a b : leafAndPosition) : bool :=
  bool_decide (bytes_Compare (LeafIdentityHash (leaf a)) (LeafIdentityHash (leaf b)) = -1).

(** [status.New(codes.OK, "OK").Proto()] *)
Definition ok : spb_Status := {| status_Code := codes_OK; status_Message := "OK" |}.

Section LogStorage.

(** [sort.Sort] of the Go library on a [byLeafIdentityHashWithPosition],
    and [LogRootV1.UnmarshalBinary] of the types package. *)
Variable sort_Sort : list leafAndPosition → list leafAndPosition.
Variable UnmarshalBinary : bytes → result LogRootV1.

Definition sortLeavesForInsert (leaves : list LogLeaf) : list leafAndPosition :=
  let ordLeaves := imap (λ i leaf, {| leaf := leaf; idx := i |}) leaves in
  sort_Sort ordLeaves.

(** The scan loop of [getLeavesByRangeInternal] over the rows of the query,
    with the [wantIndex] of the row at the head.  Sequence numbers and
    timestamps are scanned into [int64] variables. *)
Fixpoint getLeavesByRange_scan (t : logTreeTX) (rows : list leafRow) (wantIndex : Z)
  : result (list LogLeaf) :=
  match rows with
  | [] => Ok []
  | r :: rows' =>
      match row_IntegrateTimestampNanos r with
      | None => Err (fmt_Errorf "sql: Scan error: converting NULL to int64 is unsupported")
      | Some iTimestamp =>
          let qTimestamp := int64 (row_QueueTimestampNanos r) in
          let iTimestamp := int64 iTimestamp in
          let leaf := {| MerkleLeafHash := row_MerkleLeafHash r;
                         LeafValue := row_LeafValue r;
                         ExtraData := row_ExtraData r;
                         LeafIndex := int64 (row_SequenceNumber r);
                         LeafIdentityHash := row_LeafIdentityHash r;
                         QueueTimestamp := None;
                         IntegrateTimestamp := None |} in
          if bool_decide (LeafIndex leaf ≠ wantIndex) then
            if bool_decide (wantIndex < int64 (TreeSize (root t))) then
              Err (fmt_Errorf "got unexpected index")
            else Ok []
          else
            let leaf := set_QueueTimestamp (Some (timestamppb_New (time_Unix0 qTimestamp))) leaf in
            match Timestamp_CheckValid (QueueTimestamp leaf) with
            | Some _ => Err (fmt_Errorf "got invalid queue timestamp")
            | None =>
                let leaf :=
                  set_IntegrateTimestamp (Some (timestamppb_New (time_Unix0 iTimestamp))) leaf in
                match Timestamp_CheckValid (IntegrateTimestamp leaf) with
                | Some _ => Err (fmt_Errorf "got invalid integrate timestamp")
                | None =>
                    match getLeavesByRange_scan t rows' (int64 (wantIndex + 1)) with
                    | Err e => Err e
                    | Ok ret => Ok (leaf :: ret)
                    end
                end
            end
      end
  end.

(** [logTreeTX.getLeavesByRangeInternal].  The slice of the result is made
    with the clipped count as its capacity, after the query and before the
    rows are read. *)
Definition getLeavesByRangeInternal (t : logTreeTX) (start count : Z) (s : sqlTx)
  : result (list LogLeaf) :=
  if bool_decide (count ≤ 0) then
    Err (status_Errorf codes_InvalidArgument "invalid count, want > 0")
  else if bool_decide (start < 0) then
    Err (status_Errorf codes_InvalidArgument "invalid start, want >= 0")
  else
    let clipped :=
      if bool_decide (treeType t = LOG) then
        let treeSize := int64 (TreeSize (root t)) in
        if bool_decide (treeSize ≤ 0) then
          Err (status_Errorf codes_OutOfRange "empty tree")
        else if bool_decide (start >= treeSize) then
          Err (status_Errorf codes_OutOfRange "invalid start, want < TreeSize")
        else
          let maxCount := treeSize - start in
          if bool_decide (count > maxCount) then Ok maxCount else Ok count
      else Ok count in
    match clipped with
    | Err e => Err e
    | Ok count =>
        let rows := selectLeavesByRangeSQL (db s) start (int64 (start + count)) (treeID t) in
        (* ret := make([]*trillian.LogLeaf, 0, count) *)
        if makeslice_cap_out_of_range count then Err panicmakeslicecap
        else getLeavesByRange_scan t rows start
    end.

Definition GetLeavesByRange (t : logTreeTX) (start count : Z) (s : sqlTx)
  : result (list LogLeaf) :=
  getLeavesByRangeInternal t start count s.

(** Modelled from the spec: [dequeueLeaf] is declared outside the two
    files; it reads a queued entry into a leaf with its identity hash,
    Merkle hash and queue timestamp, and the entry's key for the later
    removal. *)
Definition dequeueLeaf (r : UnsequencedRow) : result (LogLeaf * dequeuedLeaf) :=
  let queueTimestamp := Some (timestamppb_New (time_Unix0 (int64 (us_QueueTimestampNanos r)))) in
  match Timestamp_CheckValid queueTimestamp with
  | Some _ => Err (fmt_Errorf "got invalid queue timestamp")
  | None =>
      Ok ({| MerkleLeafHash := us_MerkleLeafHash r; LeafValue := []; ExtraData := [];
             LeafIndex := 0; LeafIdentityHash := us_LeafIdentityHash r;
             QueueTimestamp := queueTimestamp; IntegrateTimestamp := None |},
          {| dq_queueTimestampNanos := int64 (us_QueueTimestampNanos r);
             dq_leafIdentityHash := us_LeafIdentityHash r |})
  end.

(** The row loop of [DequeueLeaves] for a [LOG] tree, threading the
    transaction's [dequeued] memo. *)
Fixpoint DequeueLeaves_scan (t : logTreeTX) (rows : list UnsequencedRow)
  (dq : gmap bytes dequeuedLeaf) : result (list LogLeaf) * gmap bytes dequeuedLeaf :=
  match rows with
  | [] => (Ok [], dq)
  | r :: rows' =>
      match dequeueLeaf r with
      | Err e => (Err e, dq)
      | Ok (leaf, dqInfo) =>
          if bool_decide (len (LeafIdentityHash leaf) ≠ hashSizeBytes t) then
            (Err (fmt_Errorf "dequeued a leaf with incorrect hash size"), dq)
          else
            let k := LeafIdentityHash leaf in
            match dq !! k with
            | Some _ => DequeueLeaves_scan t rows' dq
            | None =>
                match DequeueLeaves_scan t rows' (<[k := dqInfo]> dq) with
                | (Ok leaves, dq') => (Ok (leaf :: leaves), dq')
                | (Err e, dq') => (Err e, dq')
                end
            end
      end
  end.

(** [logTreeTX.DequeueLeaves].  For a tree that is not pre-ordered the
    slice of the result is made with [limit] as its capacity, before the
    query. *)
Definition DequeueLeaves (t : logTreeTX) (limit : Z) (cutoffTime : Time) (s : sqlTx)
  : result (list LogLeaf) * logTreeTX :=
  if bool_decide (treeType t = PREORDERED_LOG) then
    (getLeavesByRangeInternal t (int64 (TreeSize (root t))) (int64 limit) s, t)
  else if makeslice_cap_out_of_range limit then
    (* leaves := make([]*trillian.LogLeaf, 0, limit) *)
    (Err panicmakeslicecap, t)
  else
    let rows := selectQueuedLeavesSQL (db s) (treeID t) (UnixNano cutoffTime) limit in
    let '(r, dq) := DequeueLeaves_scan t rows (dequeued t) in
    (r, set_dequeued dq t).

(** The row loop of [getLeavesByHashInternal]. *)
Fixpoint getLeavesByHash_scan (t : logTreeTX) (rows : list leafRow)
  : result (list LogLeaf) :=
  match rows with
  | [] => Ok []
  | r :: rows' =>
      let queueTS := int64 (row_QueueTimestampNanos r) in
      let leaf := {| MerkleLeafHash := row_MerkleLeafHash r;
                     LeafValue := row_LeafValue r;
                     ExtraData := row_ExtraData r;
                     LeafIndex := int64 (row_SequenceNumber r);
                     LeafIdentityHash := row_LeafIdentityHash r;
                     QueueTimestamp := Some (timestamppb_New (time_Unix0 queueTS));
                     IntegrateTimestamp := None |} in
      match Timestamp_CheckValid (QueueTimestamp leaf) with
      | Some _ => Err (fmt_Errorf "got invalid queue timestamp")
      | None =>
          let checked :=
            match row_IntegrateTimestampNanos r with
            | Some integrateTS =>
                let leaf :=
                  set_IntegrateTimestamp
                    (Some (timestamppb_New (time_Unix0 (int64 integrateTS)))) leaf in
                match Timestamp_CheckValid (IntegrateTimestamp leaf) with
                | Some _ => Err (fmt_Errorf "got invalid integrate timestamp")
                | None => Ok leaf
                end
            | None => Ok leaf
            end in
          match checked with
          | Err e => Err e
          | Ok leaf =>
              if bool_decide (len (MerkleLeafHash leaf) ≠ hashSizeBytes t) then
                Err (fmt_Errorf "Scanned leaf does not have the hash length")
              else
                match getLeavesByHash_scan t rows' with
                | Err e => Err e
                | Ok ret => Ok (leaf :: ret)
                end
          end
      end
  end.

Definition getLeafDataByIdentityHash (t : logTreeTX) (leafHashes : list bytes) (s : sqlTx)
  : result (list LogLeaf) :=
  getLeavesByHash_scan t (selectLeavesByLeafIdentityHashSQL (db s) leafHashes (treeID t)).

(** The first loop of [QueueLeaves]: batches with an invalid leaf are not
    accepted; every leaf is stamped with the queue timestamp.  The leaves
    are pointers, so the stamp is seen by the caller and by every later use
    of the batch. *)
Fixpoint QueueLeaves_stamp (t : logTreeTX) (leaves : list LogLeaf) (queueTimestamp : Time)
  : result (list LogLeaf) :=
  match leaves with
  | [] => Ok []
  | leaf :: leaves' =>
      if bool_decide (len (LeafIdentityHash leaf) ≠ hashSizeBytes t) then
        Err (fmt_Errorf "queued leaf must have a leaf ID hash of the hash length")
      else
        let leaf := set_QueueTimestamp (Some (timestamppb_New queueTimestamp)) leaf in
        match Timestamp_CheckValid (QueueTimestamp leaf) with
        | Some _ => Err (fmt_Errorf "got invalid queue timestamp")
        | None =>
            match QueueLeaves_stamp t leaves' queueTimestamp with
            | Err e => Err e
            | Ok stamped => Ok (leaf :: stamped)
            end
        end
  end.

(** One iteration of the insert loop of [QueueLeaves], for the entry [ol]
    of the sorted leaves: the slice of existing leaves and the count to go
    on with, or the error the call returns. *)
Definition QueueLeaves_body (t : logTreeTX) (ol : leafAndPosition) (s : sqlTx)
  (existingLeaves : list (option LogLeaf)) (existingCount : Z)
  : result (list (option LogLeaf) * Z) * sqlTx :=
  let i := idx ol in
  let leaf := leaf ol in
  match Timestamp_CheckValid (QueueTimestamp leaf) with
  | Some _ => (Err (fmt_Errorf "got invalid queue timestamp"), s)
  | None =>
      let qTimestamp := Timestamp_AsTime (default (timestamppb_New 0) (QueueTimestamp leaf)) in
      let '(r, s1) :=
        ExecContext s
          (insertLeafDataSQL (treeID t) (LeafIdentityHash leaf) (LeafValue leaf)
             (ExtraData leaf) (UnixNano qTimestamp)) in
      if isDuplicateErr (err_of r) then
        (* Remember the duplicate leaf, using the requested leaf for now. *)
        (Ok (<[i := Some leaf]> existingLeaves, existingCount + 1), s1)
      else
        match r with
        | Err e => (Err (mysqlToGRPC e), s1)
        | Ok _ =>
            (* Create the work queue entry *)
            let '(r2, s2) :=
              ExecContext s1
                (insertUnsequencedEntrySQL (treeID t) (LeafIdentityHash leaf)
                   (MerkleLeafHash leaf) (UnixNano qTimestamp)) in
            match r2 with
            | Err e => (Err (mysqlToGRPC e), s2)
            | Ok _ => (Ok (existingLeaves, existingCount), s2)
            end
        end
  end.

(** The insert loop of [QueueLeaves] over the sorted leaves. *)
Fixpoint QueueLeaves_insert (t : logTreeTX) (ordLeaves : list leafAndPosition) (s : sqlTx)
  (existingLeaves : list (option LogLeaf)) (existingCount : Z)
  : result (list (option LogLeaf) * Z) * sqlTx :=
  match ordLeaves with
  | [] => (Ok (existingLeaves, existingCount), s)
  | ol :: ordLeaves' =>
      match QueueLeaves_body t ol s existingLeaves existingCount with
      | (Err e, s1) => (Err e, s1)
      | (Ok (existingLeaves, existingCount), s1) =>
          QueueLeaves_insert t ordLeaves' s1 existingLeaves existingCount
      end
  end.

(** Collating the identity hashes to retrieve, without repeats:
    [uniqueLeafMap] holds the hashes already listed in [toRetrieve]. *)
Fixpoint QueueLeaves_collate (existingLeaves : list (option LogLeaf))
  (uniqueLeafMap : gset bytes) (toRetrieve : list bytes) : list bytes :=
  match existingLeaves with
  | [] => toRetrieve
  | None :: rest => QueueLeaves_collate rest uniqueLeafMap toRetrieve
  | Some existing :: rest =>
      let key := LeafIdentityHash existing in
      if bool_decide (key ∈ uniqueLeafMap) then
        QueueLeaves_collate rest uniqueLeafMap toRetrieve
      else
        QueueLeaves_collate rest ({[key]} ∪ uniqueLeafMap)
          (toRetrieve ++ [LeafIdentityHash existing])
  end.

(** Replacing the requested leaves with the actual leaves. *)
Fixpoint QueueLeaves_replace (results : list LogLeaf) (existingLeaves : list (option LogLeaf))
  : result (list (option LogLeaf)) :=
  match existingLeaves with
  | [] => Ok []
  | None :: rest =>
      match QueueLeaves_replace results rest with
      | Err e => Err e
      | Ok rest' => Ok (None :: rest')
      end
  | Some requested :: rest =>
      match find (λ result, bytes_Equal (LeafIdentityHash result) (LeafIdentityHash requested))
              results with
      | None => Err (fmt_Errorf "failed to find existing leaf for hash")
      | Some result =>
          match QueueLeaves_replace results rest with
          | Err e => Err e
          | Ok rest' => Ok (Some result :: rest')
          end
      end
  end.

(** [logTreeTX.QueueLeaves].  Beside the slice of existing leaves it
    returns the caller's leaves as the call leaves them (stamped). *)
Definition QueueLeaves (t : logTreeTX) (leaves : list LogLeaf) (queueTimestamp : Time)
  (s : sqlTx) : result (list (option LogLeaf) * list LogLeaf) * sqlTx :=
  match QueueLeaves_stamp t leaves queueTimestamp with
  | Err e => (Err e, s)
  | Ok leaves =>
      let ordLeaves := sortLeavesForInsert leaves in
      let existingCount := 0 in
      let existingLeaves := replicate (length leaves) None in
      match QueueLeaves_insert t ordLeaves s existingLeaves existingCount with
      | (Err e, s1) => (Err e, s1)
      | (Ok (existingLeaves, existingCount), s1) =>
          if bool_decide (existingCount = 0) then (Ok (existingLeaves, leaves), s1)
          else
            let toRetrieve := QueueLeaves_collate existingLeaves ∅ [] in
            match getLeafDataByIdentityHash t toRetrieve s1 with
            | Err _ => (Err (fmt_Errorf "failed to retrieve existing leaves"), s1)
            | Ok results =>
                if bool_decide (len results ≠ len toRetrieve) then
                  (Err (fmt_Errorf "failed to retrieve all existing leaves"), s1)
                else
                  match QueueLeaves_replace results existingLeaves with
                  | Err e => (Err e, s1)
                  | Ok existingLeaves => (Ok (existingLeaves, leaves), s1)
                  end
            end
      end
  end.

(** [treeTX.Commit]: the model's database raises no error at commit, and
    a log transaction that only queues leaves has no subtree tile to
    flush. *)
Definition Commit (s : sqlTx) : option error * sqlTx := (None, s).

(** [mySQLLogStorage.QueueLeaves].  [begin] is the outcome of
    [beginInternal]; a transaction that is not committed is closed, which
    rolls the database back to [s]. *)
Definition mySQLLogStorage_QueueLeaves (begin : result logTreeTX) (leaves : list LogLeaf)
  (queueTimestamp : Time) (s : sqlTx) : result (list QueuedLogLeaf) * sqlTx :=
  match begin with
  | Err e => (Err e, s)
  | Ok tx =>
      match QueueLeaves tx leaves queueTimestamp s with
      | (Err e, _) => (Err e, s)
      | (Ok (existing, leaves), s1) =>
          match Commit s1 with
          | (Some e, _) => (Err e, s)
          | (None, s2) =>
              (Ok (zip_with
                     (λ e leaf,
                        match e with
                        | Some e =>
                            {| Leaf := Some e;
                               Status := Some {| status_Code := codes_AlreadyExists;
                                                 status_Message := "leaf already exists" |} |}
                        | None => {| Leaf := Some leaf; Status := None |}
                        end)
                     existing leaves), s2)
          end
      end
  end.

(** One iteration of the loop of [AddSequencedLeaves], for the entry [ol]
    of the sorted leaves: the results to go on with, or the error the call
    returns. *)
Definition AddSequencedLeaves_body (t : logTreeTX) (timestamp : Time)
  (ol : leafAndPosition) (s : sqlTx) (res : list (option QueuedLogLeaf))
  : result (list (option QueuedLogLeaf)) * sqlTx :=
  let i := idx ol in
  let leaf := leaf ol in
  (* This should fail on insert, but catch it early. *)
  if bool_decide (len (LeafIdentityHash leaf) ≠ hashSizeBytes t) then
    (Err (status_Errorf codes_FailedPrecondition "leaves[i] has incorrect hash size"), s)
  else
    let '(r, s1) := ExecContext s SAVEPOINT in
    match r with
    | Err e => (Err (mysqlToGRPC e), s1)
    | Ok _ =>
        let res := <[i := Some {| Leaf := None; Status := Some ok |}]> res in
        let '(r, s2) :=
          ExecContext s1
            (insertLeafDataSQL (treeID t) (LeafIdentityHash leaf) (LeafValue leaf)
               (ExtraData leaf) (UnixNano timestamp)) in
        if isDuplicateErr (err_of r) then
          let res :=
            <[i := Some {| Leaf := None;
                           Status := Some {| status_Code := codes_FailedPrecondition;
                                             status_Message := "conflicting LeafIdentityHash" |} |}]>
              res in
          (* Note: No rolling back to savepoint because there is no side effect. *)
          (Ok res, s2)
        else
          match r with
          | Err e => (Err (mysqlToGRPC e), s2)
          | Ok _ =>
              let '(r, s3) :=
                ExecContext s2
                  (insertSequencedLeafSQL (treeID t) (LeafIdentityHash leaf)
                     (MerkleLeafHash leaf) (LeafIndex leaf) 0) in
              if isDuplicateErr (err_of r) then
                let res :=
                  <[i := Some {| Leaf := None;
                                 Status := Some {| status_Code := codes_FailedPrecondition;
                                                   status_Message := "conflicting LeafIndex" |} |}]>
                    res in
                let '(r, s4) := ExecContext s3 ROLLBACK_TO_SAVEPOINT in
                match r with
                | Err e => (Err (mysqlToGRPC e), s4)
                | Ok _ => (Ok res, s4)
                end
              else
                match r with
                | Err e => (Err (mysqlToGRPC e), s3)
                | Ok _ => (Ok res, s3)
                end
          end
    end.

(** The loop of [logTreeTX.AddSequencedLeaves] over the sorted leaves. *)
Fixpoint AddSequencedLeaves_loop (t : logTreeTX) (timestamp : Time)
  (ordLeaves : list leafAndPosition) (s : sqlTx) (res : list (option QueuedLogLeaf))
  : result (list (option QueuedLogLeaf)) * sqlTx :=
  match ordLeaves with
  | [] => (Ok res, s)
  | ol :: ordLeaves' =>
      match AddSequencedLeaves_body t timestamp ol s res with
      | (Err e, s1) => (Err e, s1)
      | (Ok res, s1) => AddSequencedLeaves_loop t timestamp ordLeaves' s1 res
      end
  end.

(** [logTreeTX.AddSequencedLeaves] *)
Definition AddSequencedLeaves (t : logTreeTX) (leaves : list LogLeaf) (timestamp : Time)
  (s : sqlTx) : result (list (option QueuedLogLeaf)) * sqlTx :=
  let res := replicate (length leaves) None in
  let '(r, s1) := ExecContext s SAVEPOINT in
  match r with
  | Err e => (Err (mysqlToGRPC e), s1)
  | Ok _ =>
      let ordLeaves := sortLeavesForInsert leaves in
      match AddSequencedLeaves_loop t timestamp ordLeaves s1 res with
      | (Err e, s2) => (Err e, s2)
      | (Ok res, s2) =>
          let '(r, s3) := ExecContext s2 RELEASE_SAVEPOINT in
          match r with
          | Err e => (Err (mysqlToGRPC e), s3)
          | Ok _ => (Ok res, s3)
          end
      end
  end.

(** [logTreeTX.StoreSignedLogRoot] *)
Definition StoreSignedLogRoot (t : logTreeTX) (root : SignedLogRoot) (s : sqlTx)
  : option error * sqlTx :=
  match UnmarshalBinary (LogRoot root) with
  | Err e => (Some e, s)
  | Ok logRoot =>
      if bool_decide (len (Metadata logRoot) ≠ 0) then
        (Some (fmt_Errorf "unimplemented: mysql storage does not support log root metadata"), s)
      else
        let '(res, s1) :=
          ExecContext s
            (insertTreeHeadSQL (treeID t) (TimestampNanos logRoot) (TreeSize logRoot)
               (RootHash logRoot) (writeRevision t) []) in
        (checkResultOkAndRowCountIs res 1, s1)
  end.

End LogStorage.

(** ** The quota manager *)

Module quota.

(** [quota.Group] and [quota.Kind] *)
Inductive Group := Global | Tree | User.
Inductive Kind := Read | Write.

(** [quota.Spec] *)
Record Spec := {
  spec_Group : Group;
  spec_Kind : Kind;
  spec_TreeID : Z;
  spec_User : string }.

Record QuotaManager := {
  MaxUnsequencedRows : Z;
  UseSelectCount : bool }.

Definition ErrTooManyUnsequencedRows : error := fmt_Errorf "too many unsequenced rows".

(** Modelled from the spec: the quota manager is declared outside the
    files embedded here, which hold only its test.  The backlog is the accurate [SELECT COUNT] of
    the queue table when [use_select_count] is set, and otherwise the
    table-statistics figure [statistics], which lags reality. *)
Definition countUnsequenced (m : QuotaManager) (d : DB) (statistics : Z) : Z :=
  if UseSelectCount m then len (Unsequenced d) else statistics.

(** Modelled from the spec: [GetTokens(n, specs)] checks the unsequenced
    backlog for each spec whose scope is Global-Write and returns
    too-many-unsequenced-rows if [backlog + n > max_unsequenced_rows]; all
    other scopes are unconstrained. *)
Fixpoint GetTokens (m : QuotaManager) (numTokens : Z) (specs : list Spec)
  (d : DB) (statistics : Z) : option error :=
  match specs with
  | [] => None
  | spec :: specs' =>
      match spec_Group spec, spec_Kind spec with
      | Global, Write =>
          let count := countUnsequenced m d statistics in
          if bool_decide (count + numTokens > MaxUnsequencedRows m) then
            Some ErrTooManyUnsequencedRows
          else GetTokens m numTokens specs' d statistics
      | _, _ => GetTokens m numTokens specs' d statistics
      end
  end.

(** Modelled from the spec: [PutTokens] and [ResetQuota] are no-ops other
    than their successful return. *)
Definition PutTokens (m : QuotaManager) (numTokens : Z) (specs : list Spec) (d : DB)
  : option error * DB := (None, d).

Definition ResetQuota (m : QuotaManager) (specs : list Spec) (d : DB)
  : option error * DB := (None, d).

End quota.

(** ** Derived notions used in the statements *)

(** The tree's row says it is soft deleted ([Deleted] is set and true). *)
Definition soft_deleted (s : sqlTx) (treeID : Z) : bool :=
  match selectTreeByID (db s) treeID with
  | row :: _ => default false (tr_Deleted row)
  | [] => false
  end.

(** The columns of [Trees] that [updateTreeSQL] does not set. *)
Definition kept_columns (r : TreesRow) :=
  (tr_TreeId r, tr_HashStrategy r, tr_HashAlgorithm r, tr_SignatureAlgorithm r,
   tr_CreateTimeMillis r, tr_PublicKey r, tr_Deleted r, tr_DeleteTimeMillis r).

(** ** Example data *)

Definition empty_DB : DB :=
  {| Trees := []; TreeControl := []; TreeHead := []; LeafData := [];
     SequencedLeafData := []; Unsequenced := [] |}.

(** A soft-deleted log with its control row and one tree head. *)
Definition deleted_tree_row : TreesRow :=
  {| tr_TreeId := 7; tr_TreeState := "ACTIVE"; tr_TreeType := "LOG";
     tr_HashStrategy := "RFC6962_SHA256"; tr_HashAlgorithm := "SHA256";
     tr_SignatureAlgorithm := "ECDSA"; tr_DisplayName := "log";
     tr_Description := ""; tr_CreateTimeMillis := 1000; tr_UpdateTimeMillis := 1000;
     tr_PrivateKey := []; tr_PublicKey := [Byte.x01]; tr_MaxRootDurationMillis := 0;
     tr_Deleted := Some true; tr_DeleteTimeMillis := Some 2000 |}.

Definition deleted_tree_tx : sqlTx :=
  {| db := {| Trees := [deleted_tree_row];
              TreeControl := [{| tc_TreeId := 7; tc_SigningEnabled := true;
                                 tc_SequencingEnabled := true;
                                 tc_SequenceIntervalSeconds := 60 |}];
              TreeHead := [{| th_TreeId := 7; th_TreeHeadTimestamp := 100;
                              th_TreeSize := 0; th_RootHash := [];
                              th_TreeRevision := 0; th_RootSignature := [] |}];
              LeafData := []; SequencedLeafData := []; Unsequenced := [] |};
     savepoint := None;
     executed := [] |}.

(** The count [getLeavesByRangeInternal] queries with: for a [LOG] tree the
    requested count clipped to what the tree holds from [start] on. *)
Definition clipped_count (t : logTreeTX) (start count : Z) : Z :=
  if bool_decide (treeType t = LOG)
  then Z.min count (int64 (TreeSize (root t)) - start) else count.

(** The rows [getLeavesByRangeInternal] reads. *)
Definition range_rows (t : logTreeTX) (start count : Z) (s : sqlTx) : list leafRow :=
  selectLeavesByRangeSQL (db s) start (int64 (start + clipped_count t start count)) (treeID t).

(** The calls that pass the checks of [getLeavesByRangeInternal] and
    reach its loop: valid arguments, for a [LOG] tree a start below the
    tree size, and a clipped count that [make] takes as a capacity. *)
Definition range_admitted (t : logTreeTX) (start count : Z) : Prop :=
  0 < count ∧ 0 ≤ start
  ∧ (treeType t = LOG → start < int64 (TreeSize (root t)))
  ∧ 8 * clipped_count t start count ≤ maxAlloc.

(** The completeness the spec asks of a returned range: no index of the
    requested range that is below the tree size is missing from the
    leaves. *)
Definition no_gap_below_tree_size (t : logTreeTX) (start count : Z) (ret : list LogLeaf)
  : Prop :=
  ∀ i, start ≤ i < start + count → i < int64 (TreeSize (root t)) → i ∈ LeafIndex <$> ret.

(** Rows as the range query returns them below [2^63 - 1]: a sequence
    number that fits an [int64] with room for the next index, and an
    integrate timestamp. *)
Definition scannable (r : leafRow) : Prop :=
  (0 ≤ row_SequenceNumber r < 2 ^ 63 - 1) ∧ is_Some (row_IntegrateTimestampNanos r).

(** The acceptance condition the spec gives for [StoreSignedLogRoot],
    relative to the transaction's current root. *)
Definition root_admissible (t : logTreeTX) (logRoot : LogRootV1) : Prop :=
  TreeSize (root t) ≤ TreeSize logRoot
  ∧ TimestampNanos (root t) < TimestampNanos logRoot
  ∧ Revision logRoot = writeRevision t
  ∧ Metadata logRoot = [].

(** The tree head [StoreSignedLogRoot] inserts for a parsed root. *)
Definition head_row (t : logTreeTX) (logRoot : LogRootV1) : TreeHeadRow :=
  {| th_TreeId := treeID t; th_TreeHeadTimestamp := TimestampNanos logRoot;
     th_TreeSize := TreeSize logRoot; th_RootHash := RootHash logRoot;
     th_TreeRevision := writeRevision t; th_RootSignature := [] |}.

(** A decoder for the examples, after the version-1 log root layout: a
    two-byte version, then the tree size, the root hash, the timestamp, the
    revision and the metadata; integers are big-endian and the two opaque
    fields carry a one-byte and a two-byte length. *)
Definition read_uint (n : nat) (b : bytes) : option (Z * bytes) :=
  if bool_decide (n ≤ length b)%nat
  then Some (foldl (λ acc x, acc * 256 + Z.of_N (Byte.to_N x)) 0 (take n b), drop n b)
  else None.

Definition read_opaque (prefix : nat) (b : bytes) : option (bytes * bytes) :=
  match read_uint prefix b with
  | Some (n, b') =>
      if bool_decide (Z.to_nat n ≤ length b')%nat
      then Some (take (Z.to_nat n) b', drop (Z.to_nat n) b') else None
  | None => None
  end.

Definition example_UnmarshalBinary (b : bytes) : result LogRootV1 :=
  match read_uint 2 b with
  | Some (1, b) =>
      match read_uint 8 b with
      | Some (size, b) =>
          match read_opaque 1 b with
          | Some (hash, b) =>
              match read_uint 8 b with
              | Some (ts, b) =>
                  match read_uint 8 b with
                  | Some (rev, b) =>
                      match read_opaque 2 b with
                      | Some (meta, []) =>
                          Ok {| TreeSize := size; RootHash := hash; TimestampNanos := ts;
                                Revision := rev; Metadata := meta |}
                      | _ => Err (fmt_Errorf "invalid LogRoot")
                      end
                  | None => Err (fmt_Errorf "invalid LogRoot")
                  end
              | None => Err (fmt_Errorf "invalid LogRoot")
              end
          | None => Err (fmt_Errorf "invalid LogRoot")
          end
      | None => Err (fmt_Errorf "invalid LogRoot")
      end
  | _ => Err (fmt_Errorf "invalid LogRoot.Version")
  end.

(** A log transaction on tree 7 whose current root has ten leaves and the
    timestamp 100 at revision 3, over a database holding that head. *)
Definition grown_log_tx : logTreeTX :=
  {| treeID := 7; treeType := LOG; hashSizeBytes := 32; writeRevision := 4;
     root := {| TreeSize := 10; RootHash := [Byte.xaa]; TimestampNanos := 100;
                Revision := 0; Metadata := [] |};
     readRev := 3; slr := None; dequeued := ∅ |}.

Definition grown_log_sql : sqlTx :=
  {| db := {| Trees := []; TreeControl := [];
              TreeHead := [{| th_TreeId := 7; th_TreeHeadTimestamp := 100;
                              th_TreeSize := 10; th_RootHash := [Byte.xaa];
                              th_TreeRevision := 3; th_RootSignature := [] |}];
              LeafData := []; SequencedLeafData := []; Unsequenced := [] |};
     savepoint := None;
     executed := [] |}.

(** A serialized root of five leaves with the timestamp 50, the revision 0
    and neither root hash nor metadata. *)
Definition stale_root : SignedLogRoot :=
  {| LogRoot := [Byte.x00; Byte.x01]
                ++ [Byte.x00; Byte.x00; Byte.x00; Byte.x00; Byte.x00; Byte.x00; Byte.x00; Byte.x05]
                ++ [Byte.x00]
                ++ [Byte.x00; Byte.x00; Byte.x00; Byte.x00; Byte.x00; Byte.x00; Byte.x00; Byte.x32]
                ++ [Byte.x00; Byte.x00; Byte.x00; Byte.x00; Byte.x00; Byte.x00; Byte.x00; Byte.x00]
                ++ [Byte.x00; Byte.x00] |}.

Definition stale_logRoot : LogRootV1 :=
  {| TreeSize := 5; RootHash := []; TimestampNanos := 50; Revision := 0; Metadata := [] |}.

(** A database whose queue holds [n] entries. *)
Definition backlog_DB (n : nat) : DB :=
  set_Unsequenced
    (λ _, map (λ i, {| us_TreeId := 7; us_Bucket := 0; us_LeafIdentityHash := [];
                       us_MerkleLeafHash := []; us_QueueTimestampNanos := Z.of_nat i |})
            (seq 0 n))
    empty_DB.

Definition globalWrite : quota.Spec :=
  {| quota.spec_Group := quota.Global; quota.spec_Kind := quota.Write;
     quota.spec_TreeID := 0; quota.spec_User := "" |}.

(** The table of [TestQuotaManager_GetTokens]: unsequenced rows, maximum,
    tokens, specs and whether the error is wanted. *)
Definition TestQuotaManager_GetTokens_tests : list (nat * Z * Z * list quota.Spec * bool) :=
  [ (10%nat, 20, 1, [globalWrite], false);
    (10%nat, 20, 5, [globalWrite], false);
    (20%nat, 20, 1, [globalWrite], true);
    (15%nat, 20, 10, [globalWrite], true);
    (0%nat, 0, 10,
     [ {| quota.spec_Group := quota.User; quota.spec_Kind := quota.Read;
          quota.spec_TreeID := 0; quota.spec_User := "dylan" |};
       {| quota.spec_Group := quota.Tree; quota.spec_Kind := quota.Read;
          quota.spec_TreeID := 7; quota.spec_User := "" |};
       {| quota.spec_Group := quota.Global; quota.spec_Kind := quota.Read;
          quota.spec_TreeID := 0; quota.spec_User := "" |};
       {| quota.spec_Group := quota.User; quota.spec_Kind := quota.Write;
          quota.spec_TreeID := 0; quota.spec_User := "dylan" |};
       {| quota.spec_Group := quota.Tree; quota.spec_Kind := quota.Write;
          quota.spec_TreeID := 7; quota.spec_User := "" |} ], false) ].

Definition is_GlobalWrite (spec : quota.Spec) : Prop :=
  quota.spec_Group spec = quota.Global ∧ quota.spec_Kind spec = quota.Write.

(** A pre-ordered log of two leaves, the second not yet integrated. *)
Definition preordered_tx : logTreeTX :=
  {| treeID := 9; treeType := PREORDERED_LOG; hashSizeBytes := 32; writeRevision := 2;
     root := {| TreeSize := 1; RootHash := []; TimestampNanos := 100; Revision := 0;
                Metadata := [] |};
     readRev := 1; slr := None; dequeued := ∅ |}.

Definition preordered_sql : sqlTx :=
  {| db := {| Trees := []; TreeControl := []; TreeHead := [];
              LeafData :=
                [ {| ld_TreeId := 9; ld_LeafIdentityHash := replicate 32 Byte.x01;
                     ld_LeafValue := [Byte.x0a]; ld_ExtraData := [];
                     ld_QueueTimestampNanos := 10 |};
                  {| ld_TreeId := 9; ld_LeafIdentityHash := replicate 32 Byte.x02;
                     ld_LeafValue := [Byte.x0b]; ld_ExtraData := [];
                     ld_QueueTimestampNanos := 11 |} ];
              SequencedLeafData :=
                [ {| sl_TreeId := 9; sl_LeafIdentityHash := replicate 32 Byte.x02;
                     sl_MerkleLeafHash := replicate 32 Byte.x22; sl_SequenceNumber := 1;
                     sl_IntegrateTimestampNanos := 0 |};
                  {| sl_TreeId := 9; sl_LeafIdentityHash := replicate 32 Byte.x01;
                     sl_MerkleLeafHash := replicate 32 Byte.x11; sl_SequenceNumber := 0;
                     sl_IntegrateTimestampNanos := 50 |} ];
              Unsequenced := [] |};
     savepoint := None;
     executed := [] |}.

(** The rows [AddSequencedLeaves] and [QueueLeaves] insert for a leaf. *)
Definition leafData_row (t : logTreeTX) (nanos : Z) (l : LogLeaf) : LeafDataRow :=
  {| ld_TreeId := treeID t; ld_LeafIdentityHash := LeafIdentityHash l;
     ld_LeafValue := LeafValue l; ld_ExtraData := ExtraData l;
     ld_QueueTimestampNanos := nanos |}.

Definition sequenced_row (t : logTreeTX) (l : LogLeaf) : SequencedLeafDataRow :=
  {| sl_TreeId := treeID t; sl_LeafIdentityHash := LeafIdentityHash l;
     sl_MerkleLeafHash := MerkleLeafHash l; sl_SequenceNumber := LeafIndex l;
     sl_IntegrateTimestampNanos := 0 |}.

Definition unsequenced_row (t : logTreeTX) (nanos : Z) (l : LogLeaf) : UnsequencedRow :=
  {| us_TreeId := treeID t; us_Bucket := 0; us_LeafIdentityHash := LeafIdentityHash l;
     us_MerkleLeafHash := MerkleLeafHash l; us_QueueTimestampNanos := nanos |}.

(** The status code in a slot of the results of [AddSequencedLeaves]. *)
Definition slot_code (res : list (option QueuedLogLeaf)) (i : nat) : option Code :=
  match res !! i with
  | Some (Some {| Leaf := _; Status := Some st |}) => Some (status_Code st)
  | _ => None
  end.

(** The leaves of a sorted batch whose slot says [OK]. *)
Definition accepted (res : list (option QueuedLogLeaf)) (ordLeaves : list leafAndPosition)
  : list leafAndPosition :=
  filter (λ ol, slot_code res (idx ol) = Some codes_OK) ordLeaves.

(** The [LeafData] inserts among executed statements. *)
Definition is_leaf_insert (st : Stmt) : bool :=
  match st with insertLeafDataSQL _ _ _ _ _ => true | _ => false end.

Definition leaf_inserts (stmts : list Stmt) : list Stmt :=
  filter (λ st, is_leaf_insert st = true) stmts.

(** A database with the leaf-store and sequence-store rows of [leaves]
    appended. *)
Definition add_sequenced (t : logTreeTX) (nanos : Z) (leaves : list LogLeaf) (d : DB) : DB :=
  set_SequencedLeafData (λ rows, rows ++ (sequenced_row t <$> leaves))
    (set_LeafData (λ rows, rows ++ (leafData_row t nanos <$> leaves)) d).

(** A database with the leaf-store and queue rows of [leaves] appended. *)
Definition add_queued (t : logTreeTX) (nanos : Z) (leaves : list LogLeaf) (d : DB) : DB :=
  set_Unsequenced (λ rows, rows ++ (unsequenced_row t nanos <$> leaves))
    (set_LeafData (λ rows, rows ++ (leafData_row t nanos <$> leaves)) d).

(** The order [sort.Sort] establishes with [Less]: ascending identity
    hashes. *)
Definition hash_le (a b : leafAndPosition) : Prop :=
  bytes_Compare (LeafIdentityHash (leaf a)) (LeafIdentityHash (leaf b)) ≤ 0.

#[global] Instance hash_le_dec a b : Decision (hash_le a b).
Proof. unfold hash_le. apply _. Defined.

(** A sort for the examples: the insertion sort that [sort.Sort] runs on a
    short slice, which moves each element left while it is [Less] than its
    predecessor. *)
Fixpoint insert_sorted (x : leafAndPosition) (l : list leafAndPosition)
  : list leafAndPosition :=
  match l with
  | [] => [x]
  | y :: l' => if Less x y then x :: l else y :: insert_sorted x l'
  end.

Definition example_sort (l : list leafAndPosition) : list leafAndPosition :=
  foldl (λ sorted x, insert_sorted x sorted) [] l.

(** A pre-ordered log holding the leaves 0, 1 and 2, and a batch that
    repeats index 2 and brings index 3. *)
Definition h32 (b : Byte.byte) : bytes := replicate 32 b.

Definition sequenced_leaf (h : Byte.byte) (index : Z) : LogLeaf :=
  {| MerkleLeafHash := h32 h; LeafValue := [h]; ExtraData := []; LeafIndex := index;
     LeafIdentityHash := h32 h; QueueTimestamp := None; IntegrateTimestamp := None |}.

Definition s5_tx : logTreeTX :=
  {| treeID := 5; treeType := PREORDERED_LOG; hashSizeBytes := 32; writeRevision := 1;
     root := {| TreeSize := 0; RootHash := []; TimestampNanos := 1; Revision := 0;
                Metadata := [] |};
     readRev := 0; slr := None; dequeued := ∅ |}.

Definition s5_sql : sqlTx :=
  {| db := add_sequenced s5_tx 1000
             [sequenced_leaf Byte.x0a 0; sequenced_leaf Byte.x0b 1; sequenced_leaf Byte.x0c 2]
             empty_DB;
     savepoint := None;
     executed := [] |}.

Definition s5_batch : list LogLeaf :=
  [sequenced_leaf Byte.x0e 3; sequenced_leaf Byte.x0d 2].

(** The keys of the leaf store and of the sequence store's hash index. *)
Definition LeafData_key (l : LeafDataRow) : Z * bytes :=
  (ld_TreeId l, ld_LeafIdentityHash l).

Definition Sequenced_key (q : SequencedLeafDataRow) : Z * bytes :=
  (sl_TreeId q, sl_LeafIdentityHash q).

(** A leaf with this identity hash is stored for the tree. *)
Definition in_tree (d : DB) (treeID : Z) (h : bytes) : Prop :=
  (treeID, h) ∈ LeafData_key <$> LeafData d.

(** What the schema guarantees of the tables [QueueLeaves] reads: the two
    unique keys on the identity hash hold, and every queued entry belongs
    to a stored leaf. *)
Record db_wf (d : DB) : Prop := {
  wf_LeafData : NoDup (LeafData_key <$> LeafData d);
  wf_Sequenced : NoDup (Sequenced_key <$> SequencedLeafData d);
  wf_queue : Forall (λ u, in_tree d (us_TreeId u) (us_LeafIdentityHash u)) (Unsequenced d) }.

(** The leaf [QueueLeaves] returns for a stored row: the row's contents
    under the dummy Merkle hash and the index [-1], with the integrate
    timestamp of the sequenced entry if there is one. *)
Definition stored_leaf (d : DB) (row : LeafDataRow) : LogLeaf :=
  {| MerkleLeafHash := dummyMerkleLeafHash;
     LeafValue := ld_LeafValue row;
     ExtraData := ld_ExtraData row;
     LeafIndex := -1;
     LeafIdentityHash := ld_LeafIdentityHash row;
     QueueTimestamp :=
       Some (timestamppb_New (time_Unix0 (int64 (ld_QueueTimestampNanos row))));
     IntegrateTimestamp :=
       match filter (λ q, ld_LeafIdentityHash row = sl_LeafIdentityHash q
                          ∧ ld_TreeId row = sl_TreeId q) (SequencedLeafData d) with
       | [] => None
       | q :: _ => Some (timestamppb_New (time_Unix0 (int64 (sl_IntegrateTimestampNanos q))))
       end |}.

(** A leaf as [QueueLeaves] stamps it. *)
Definition stamp (queueTimestamp : Time) (l : LogLeaf) : LogLeaf :=
  set_QueueTimestamp (Some (timestamppb_New queueTimestamp)) l.

(** The entries of a sorted batch that were not found to exist. *)
Definition queued_entries (existingLeaves : list (option LogLeaf))
  (ordLeaves : list leafAndPosition) : list leafAndPosition :=
  filter (λ ol, existingLeaves !! idx ol = Some None) ordLeaves.

Definition AlreadyExists : spb_Status :=
  {| status_Code := codes_AlreadyExists; status_Message := "leaf already exists" |}.

(** An entry of the sorted batch carries the stamp of the call. *)
Definition stamped (queueTimestamp : Time) (ol : leafAndPosition) : Prop :=
  QueueTimestamp (leaf ol) = Some (timestamppb_New queueTimestamp).

(** Scenario S2 of the spec within one batch: the log stores a leaf with
    the hash [aa..]; the batch brings a new hash [bb..] twice, with
    different values, around a leaf with the stored hash. *)
Definition queue_tx : logTreeTX :=
  {| treeID := 7; treeType := LOG; hashSizeBytes := 32; writeRevision := 1;
     root := {| TreeSize := 0; RootHash := []; TimestampNanos := 1; Revision := 0;
                Metadata := [] |};
     readRev := 0; slr := None; dequeued := ∅ |}.

Definition queue_sql : sqlTx :=
  {| db := {| Trees := []; TreeControl := []; TreeHead := [];
              LeafData := [ {| ld_TreeId := 7; ld_LeafIdentityHash := h32 Byte.xaa;
                               ld_LeafValue := [Byte.x01]; ld_ExtraData := [];
                               ld_QueueTimestampNanos := 5 |} ];
              SequencedLeafData := [];
              Unsequenced := [ {| us_TreeId := 7; us_Bucket := 0;
                                  us_LeafIdentityHash := h32 Byte.xaa;
                                  us_MerkleLeafHash := h32 Byte.xaa;
                                  us_QueueTimestampNanos := 5 |} ] |};
     savepoint := None;
     executed := [] |}.

Definition queued_leaf (h v : Byte.byte) : LogLeaf :=
  {| MerkleLeafHash := h32 h; LeafValue := [v]; ExtraData := []; LeafIndex := 0;
     LeafIdentityHash := h32 h; QueueTimestamp := None; IntegrateTimestamp := None |}.

Definition queue_batch : list LogLeaf :=
  [queued_leaf Byte.xbb Byte.x02; queued_leaf Byte.xaa Byte.x03; queued_leaf Byte.xbb Byte.x04].

(** The insert statements of the two writers for an entry of the sorted
    batch. *)
Definition leaf_insert (t : logTreeTX) (nanos : Z) (ol : leafAndPosition) : Stmt :=
  insertLeafDataSQL (treeID t) (LeafIdentityHash (leaf ol)) (LeafValue (leaf ol))
    (ExtraData (leaf ol)) nanos.

(** A log of four leaves whose sequence store lacks the entry of index 2. *)
Definition gap_tx : logTreeTX :=
  {| treeID := 3; treeType := LOG; hashSizeBytes := 32; writeRevision := 2;
     root := {| TreeSize := 4; RootHash := []; TimestampNanos := 100; Revision := 0;
                Metadata := [] |};
     readRev := 1; slr := None; dequeued := ∅ |}.

Definition gap_sql : sqlTx :=
  {| db := {| Trees := []; TreeControl := []; TreeHead := [];
              LeafData :=
                map (λ h, {| ld_TreeId := 3; ld_LeafIdentityHash := h32 h; ld_LeafValue := [h];
                             ld_ExtraData := []; ld_QueueTimestampNanos := 10 |})
                  [Byte.x00; Byte.x01; Byte.x02; Byte.x03];
              SequencedLeafData :=
                map (λ '(h, n), {| sl_TreeId := 3; sl_LeafIdentityHash := h32 h;
                                   sl_MerkleLeafHash := h32 h; sl_SequenceNumber := n;
                                   sl_IntegrateTimestampNanos := 20 |})
                  [(Byte.x00, 0); (Byte.x01, 1); (Byte.x03, 3)];
              Unsequenced := [] |};
     savepoint := None;
     executed := [] |}.

(** ** admin_storage.go: listing trees and ending a transaction *)

(** [nonDeletedWhere]: [Deleted IS NULL OR Deleted = 'false'].  The column
    is a boolean, which the database keeps as a number, and the string
    ['false'] compares as the number 0. *)
Definition nonDeletedWhere (r : TreesRow) : Prop :=
  tr_Deleted r = None ∨ tr_Deleted r = Some false.

#[global] Instance nonDeletedWhere_dec r : Decision (nonDeletedWhere r).
Proof. unfold nonDeletedWhere. apply _. Defined.

(** [selectTrees] and [selectNonDeletedTrees] *)
Definition selectTrees (d : DB) : list TreesRow := Trees d.

Definition selectNonDeletedTrees (d : DB) : list TreesRow :=
  filter nonDeletedWhere (selectTrees d).

Section AdminListing.

Variable readTree : TreesRow → result Tree.

(** The row loop of [ListTrees]: the first row that cannot be read ends
    the call with its error. *)
Fixpoint ListTrees_scan (rows : list TreesRow) : result (list Tree) :=
  match rows with
  | [] => Ok []
  | r :: rows' =>
      match readTree r with
      | Err e => Err e
      | Ok tree =>
          match ListTrees_scan rows' with
          | Err e => Err e
          | Ok trees => Ok (tree :: trees)
          end
      end
  end.

Definition ListTrees (s : sqlTx) (includeDeleted : bool) : result (list Tree) :=
  let query := if includeDeleted then selectTrees else selectNonDeletedTrees in
  ListTrees_scan (query (db s)).

End AdminListing.

(** [*sql.Tx] of the database/sql package: the database as committed, the
    transaction's own view of it, and whether the transaction is done. *)
Record sql_Tx := {
  committed : DB;
  view : sqlTx;
  done : bool }.

(** [sql.ErrTxDone] *)
Definition ErrTxDone : error :=
  fmt_Errorf "sql: transaction has already been committed or rolled back".

(** [sql.Tx.Commit] and [sql.Tx.Rollback] *)
Definition sql_Tx_Commit (tx : sql_Tx) : option error * sql_Tx :=
  if done tx then (Some ErrTxDone, tx)
  else (None, {| committed := db (view tx); view := view tx; done := true |}).

Definition sql_Tx_Rollback (tx : sql_Tx) : option error * sql_Tx :=
  if done tx then (Some ErrTxDone, tx)
  else (None, {| committed := committed tx;
                 view := {| db := committed tx; savepoint := None;
                            executed := executed (view tx) |};
                 done := true |}).

(** [adminTX]: [closed] is set by [Commit] and [Close]. *)
Record adminTX := {
  tx : sql_Tx;
  closed : bool }.

Definition adminTX_Commit (t : adminTX) : option error * adminTX :=
  let '(err, tx') := sql_Tx_Commit (tx t) in
  (err, {| tx := tx'; closed := true |}).

Definition adminTX_Close (t : adminTX) : option error * adminTX :=
  if closed t then (None, t)
  else
    let '(err, tx') := sql_Tx_Rollback (tx t) in
    let t' := {| tx := tx'; closed := true |} in
    match err with
    | Some e => if bool_decide (e ≠ ErrTxDone) then (Some e, t') else (None, t')
    | None => (None, t')
    end.

(** [mysqlAdminStorage.beginInternal]: [db.BeginTx] on a database that is
    reachable. *)
Definition mysqlAdminStorage_beginInternal (d : DB) : result adminTX :=
  Ok {| tx := {| committed := d;
                 view := {| db := d; savepoint := None; executed := [] |};
                 done := false |};
        closed := false |}.

(** [mysqlAdminStorage.ReadWriteTransaction]: the deferred [Close] runs
    last, and its error is only logged. *)
Definition mysqlAdminStorage_ReadWriteTransaction (d : DB)
  (f : adminTX → option error * adminTX) : option error * option adminTX :=
  match mysqlAdminStorage_beginInternal d with
  | Err err => (Some err, None)
  | Ok tx =>
      match f tx with
      | (Some err, tx1) => (Some err, Some (adminTX_Close tx1).2)
      | (None, tx1) =>
          let '(err, tx2) := adminTX_Commit tx1 in
          (err, Some (adminTX_Close tx2).2)
      end
  end.

(** An [AdminTXFunc] that runs statements of the transaction and leaves
    ending it to its caller. *)
Definition in_adminTX (g : sqlTx → option error * sqlTx) (t : adminTX)
  : option error * adminTX :=
  let '(err, v) := g (view (tx t)) in
  (err, {| tx := {| committed := committed (tx t); view := v; done := done (tx t) |};
           closed := closed t |}).

(** ** log_storage.go: active logs, the latest root, and reading by hash *)

(** [selectNonDeletedTreeIDByTypeAndStateSQL] *)
Definition selectNonDeletedTreeIDByTypeAndStateSQL (d : DB)
  (type1 type2 state1 state2 : string) : list Z :=
  tr_TreeId
    <$> filter (λ r, (tr_TreeType r = type1 ∨ tr_TreeType r = type2)
                     ∧ (tr_TreeState r = state1 ∨ tr_TreeState r = state2)
                     ∧ nonDeletedWhere r)
          (Trees d).

(** [mySQLLogStorage.GetActiveLogIDs]: the query runs on the database
    handle, outside any transaction; each id is scanned into an [int64]. *)
Definition GetActiveLogIDs (d : DB) : result (list Z) :=
  Ok (int64
        <$> selectNonDeletedTreeIDByTypeAndStateSQL d
              (TreeType_String LOG) (TreeType_String PREORDERED_LOG)
              (TreeState_String ACTIVE) (TreeState_String DRAINING)).

Definition TreeHeadTimestamp_ge (a b : TreeHeadRow) : Prop :=
  th_TreeHeadTimestamp b ≤ th_TreeHeadTimestamp a.

#[global] Instance TreeHeadTimestamp_ge_dec a b : Decision (TreeHeadTimestamp_ge a b).
Proof. unfold TreeHeadTimestamp_ge. apply _. Defined.

(** [selectLatestSignedLogRootSQL]: the tree's heads by descending
    timestamp, limited to one. *)
Definition selectLatestSignedLogRootSQL (d : DB) (treeID : Z) : list TreeHeadRow :=
  take 1 (merge_sort TreeHeadTimestamp_ge (filter (λ h, th_TreeId h = treeID) (TreeHead d))).

(** [storage.ErrTreeNeedsInit] of the storage package. *)
Definition ErrTreeNeedsInit : error :=
  status_Errorf codes_FailedPrecondition "tree needs initialising".

(** The fields of the embedded [treeTX] that [beginTreeTx] sets. *)
Record treeTX := {
  ttx_treeID : Z;
  ttx_treeType : TreeType;
  ttx_hashSizeBytes : Z;
  ttx_writeRevision : Z }.

(** The zero value of [types.LogRootV1]. *)
Definition LogRootV1_zero : LogRootV1 :=
  {| TreeSize := 0; RootHash := []; TimestampNanos := 0; Revision := 0; Metadata := [] |}.

Definition set_writeRevision (rev : Z) (t : logTreeTX) : logTreeTX :=
  {| treeID := treeID t; treeType := treeType t; hashSizeBytes := hashSizeBytes t;
     writeRevision := rev; root := root t; readRev := readRev t; slr := slr t;
     dequeued := dequeued t |}.

(** [selectLeavesByMerkleHashSQL]: the join of the leaf and sequence stores
    on the identity hash, for one tree and the listed Merkle hashes. *)
Definition selectLeavesByMerkleHashSQL (d : DB) (hashes : list bytes) (treeID : Z)
  : list leafRow :=
  flat_map
    (λ l,
       map (λ s, {| row_MerkleLeafHash := sl_MerkleLeafHash s;
                    row_LeafIdentityHash := ld_LeafIdentityHash l;
                    row_LeafValue := ld_LeafValue l;
                    row_SequenceNumber := sl_SequenceNumber s;
                    row_ExtraData := ld_ExtraData l;
                    row_QueueTimestampNanos := ld_QueueTimestampNanos l;
                    row_IntegrateTimestampNanos :=
                      Some (sl_IntegrateTimestampNanos s) |})
         (filter (λ s, ld_LeafIdentityHash l = sl_LeafIdentityHash s
                       ∧ sl_MerkleLeafHash s ∈ hashes
                       ∧ ld_TreeId l = treeID ∧ sl_TreeId s = ld_TreeId l)
            (SequencedLeafData d)))
    (LeafData d).

(** [selectLeavesByMerkleHashOrderedBySequenceSQL] *)
Definition selectLeavesByMerkleHashOrderedBySequenceSQL (d : DB) (hashes : list bytes)
  (treeID : Z) : list leafRow :=
  merge_sort SequenceNumber_le (selectLeavesByMerkleHashSQL d hashes treeID).

(** [getLeavesByMerkleHashStmt]: the statement is prepared with one
    placeholder per hash, of which there is at least one. *)
Definition getLeavesByMerkleHashStmt (orderBySequence : bool)
  : DB → list bytes → Z → list leafRow :=
  if orderBySequence then selectLeavesByMerkleHashOrderedBySequenceSQL
  else selectLeavesByMerkleHashSQL.

Section LogStorageReads.

(** [LogRootV1.MarshalBinary] and [LogRootV1.UnmarshalBinary] of the types
    package. *)
Variable MarshalBinary : LogRootV1 → result bytes.
Variable UnmarshalBinary : bytes → result LogRootV1.

(** [fetchLatestRoot] reads the latest root and the revision from the DB.
    Only [sql.ErrNoRows] is looked for in the scan's error; the columns are
    scanned into [int64] variables. *)
Definition fetchLatestRoot (t : logTreeTX) (s : sqlTx) : result (SignedLogRoot * Z) :=
  match QueryRow (selectLatestSignedLogRootSQL (db s) (treeID t)) with
  | Err (driverErr ErrNoRows) =>
      (* It's possible there are no roots for this tree yet *)
      Err ErrTreeNeedsInit
  | scanned =>
      let '(timestamp, treeSize, rootHash, treeRevision) :=
        match scanned with
        | Ok h => (int64 (th_TreeHeadTimestamp h), int64 (th_TreeSize h), th_RootHash h,
                   int64 (th_TreeRevision h))
        | Err _ => (0, 0, [], 0)
        end in
      (* Put logRoot back together. *)
      match MarshalBinary {| TreeSize := uint64 treeSize; RootHash := rootHash;
                             TimestampNanos := uint64 timestamp; Revision := 0;
                             Metadata := [] |} with
      | Err err => Err err
      | Ok logRoot => Ok ({| LogRoot := logRoot |}, treeRevision)
      end
  end.

(** [mySQLLogStorage.beginInternal], given what [beginTreeTx] returned.
    The transaction and the error are returned side by side: a tree
    without a root gives both. *)
Definition mySQLLogStorage_beginInternal (ttx : treeTX) (err : option error) (s : sqlTx)
  : option logTreeTX * option error :=
  if bool_decide (err ≠ None ∧ err ≠ Some ErrTreeNeedsInit) then (None, err)
  else
    let ltx := {| treeID := ttx_treeID ttx; treeType := ttx_treeType ttx;
                  hashSizeBytes := ttx_hashSizeBytes ttx;
                  writeRevision := ttx_writeRevision ttx;
                  root := LogRootV1_zero; readRev := 0; slr := None; dequeued := ∅ |} in
    match fetchLatestRoot ltx s with
    | Err err =>
        if bool_decide (err = ErrTreeNeedsInit) then (Some (set_writeRevision 0 ltx), Some err)
        else (None, Some err)
    | Ok (slr, readRev) =>
        match UnmarshalBinary (LogRoot slr) with
        | Err err => (None, Some err)
        | Ok root =>
            (Some {| treeID := treeID ltx; treeType := treeType ltx;
                     hashSizeBytes := hashSizeBytes ltx;
                     writeRevision := int64 (readRev + 1);
                     root := root; readRev := readRev; slr := Some slr;
                     dequeued := dequeued ltx |},
             None)
        end
    end.

(** [mySQLLogStorage.SnapshotForTree] *)
Definition SnapshotForTree (ttx : treeTX) (err : option error) (s : sqlTx)
  : option logTreeTX * option error :=
  let '(tx, err) := mySQLLogStorage_beginInternal ttx err s in
  if bool_decide (err ≠ None ∧ err ≠ Some ErrTreeNeedsInit) then (None, err)
  else (tx, err).

(** The transaction a writer goes on with after [beginInternal]: a writer
    returns any error of the begin, the missing root included. *)
Definition begun (b : option logTreeTX * option error) : result logTreeTX :=
  match b with
  | (_, Some err) => Err err
  | (Some tx, None) => Ok tx
  | (None, None) => Err (fmt_Errorf "invalid memory address or nil pointer dereference")
  end.

(** [mySQLLogStorage.ReadWriteTransaction]: [f] runs whether or not the
    tree has a root; a transaction that is not committed is closed, which
    rolls the database back to [s]. *)
Definition mySQLLogStorage_ReadWriteTransaction (ttx : treeTX) (err : option error)
  (f : logTreeTX → sqlTx → option error * sqlTx) (s : sqlTx) : option error * sqlTx :=
  match mySQLLogStorage_beginInternal ttx err s with
  | (Some tx, _) =>
      match f tx s with
      | (Some err, _) => (Some err, s)
      | (None, s1) =>
          match Commit s1 with
          | (Some err, _) => (Some err, s)
          | (None, s2) => (None, s2)
          end
      end
  | (None, err) => (err, s)
  end.

End LogStorageReads.

(** [logTreeTX.LatestSignedLogRoot] *)
Definition LatestSignedLogRoot (t : logTreeTX) : result SignedLogRoot :=
  match slr t with
  | None => Err ErrTreeNeedsInit
  | Some slr => Ok slr
  end.

(** [logTreeTX.GetLeavesByHash] *)
Definition GetLeavesByHash (t : logTreeTX) (leafHashes : list bytes) (orderBySequence : bool)
  (s : sqlTx) : result (list LogLeaf) :=
  getLeavesByHash_scan t (getLeavesByMerkleHashStmt orderBySequence (db s) leafHashes (treeID t)).

Section LogStorageWrites.

Variable sort_Sort : list leafAndPosition → list leafAndPosition.

(** [mySQLLogStorage.AddSequencedLeaves].  [begin] is the outcome of
    [beginInternal]; a transaction that is not committed is closed, which
    rolls the database back to [s]. *)
Definition mySQLLogStorage_AddSequencedLeaves (begin : result logTreeTX)
  (leaves : list LogLeaf) (timestamp : Time) (s : sqlTx)
  : result (list (option QueuedLogLeaf)) * sqlTx :=
  match begin with
  | Err e => (Err e, s)
  | Ok tx =>
      match AddSequencedLeaves sort_Sort tx leaves timestamp s with
      | (Err e, _) => (Err e, s)
      | (Ok res, s1) =>
          match Commit s1 with
          | (Some e, _) => (Err e, s)
          | (None, s2) => (Ok res, s2)
          end
      end
  end.

End LogStorageWrites.

(** ** Derived notions for the further operations *)

(** The tree has a row and the row does not say it is soft deleted. *)
Definition live (s : sqlTx) (treeID : Z) : bool :=
  match selectTreeByID (db s) treeID with
  | row :: _ => negb (default false (tr_Deleted row))
  | [] => false
  end.

(** A row of [Trees] after ["UPDATE Trees SET Deleted = ?, DeleteTimeMillis
    = ? WHERE TreeId = ?"]. *)
Definition set_Deleted (deleted : bool) (deleteTimeMillis : option Z) (treeID : Z)
  (r : TreesRow) : TreesRow :=
  if bool_decide (tr_TreeId r = treeID) then
    {| tr_TreeId := tr_TreeId r; tr_TreeState := tr_TreeState r;
       tr_TreeType := tr_TreeType r; tr_HashStrategy := tr_HashStrategy r;
       tr_HashAlgorithm := tr_HashAlgorithm r;
       tr_SignatureAlgorithm := tr_SignatureAlgorithm r;
       tr_DisplayName := tr_DisplayName r; tr_Description := tr_Description r;
       tr_CreateTimeMillis := tr_CreateTimeMillis r;
       tr_UpdateTimeMillis := tr_UpdateTimeMillis r;
       tr_PrivateKey := tr_PrivateKey r; tr_PublicKey := tr_PublicKey r;
       tr_MaxRootDurationMillis := tr_MaxRootDurationMillis r;
       tr_Deleted := Some deleted; tr_DeleteTimeMillis := deleteTimeMillis |}
  else r.

(** The transaction after the update of [updateDeleted]. *)
Definition marked (s : sqlTx) (treeID : Z) (deleted : bool) (dtime : option Z) : sqlTx :=
  {| db := set_Trees (map (set_Deleted deleted dtime treeID)) (db s);
     savepoint := savepoint s;
     executed := executed s ++ [UPDATE_Trees_SET_Deleted deleted dtime treeID] |}.

(** A row of [Trees] after [updateTreeSQL] for the tree [tree] at
    [nowMillis], with the root duration [dur] in milliseconds. *)
Definition updated_row (tree : Tree) (nowMillis dur : Z) (r : TreesRow) : TreesRow :=
  if bool_decide (tr_TreeId r = TreeId tree) then
    {| tr_TreeId := tr_TreeId r;
       tr_TreeState := TreeState_String (tree_TreeState tree);
       tr_TreeType := TreeType_String (tree_TreeType tree);
       tr_HashStrategy := tr_HashStrategy r;
       tr_HashAlgorithm := tr_HashAlgorithm r;
       tr_SignatureAlgorithm := tr_SignatureAlgorithm r;
       tr_DisplayName := DisplayName tree; tr_Description := Description tree;
       tr_CreateTimeMillis := tr_CreateTimeMillis r;
       tr_UpdateTimeMillis := nowMillis; tr_PrivateKey := [];
       tr_PublicKey := tr_PublicKey r; tr_MaxRootDurationMillis := dur;
       tr_Deleted := tr_Deleted r; tr_DeleteTimeMillis := tr_DeleteTimeMillis r |}
  else r.

(** The transaction after the update of [UpdateTree]. *)
Definition after_UpdateTree (s : sqlTx) (tree : Tree) (nowMillis dur : Z) : sqlTx :=
  {| db := set_Trees (map (updated_row tree nowMillis dur)) (db s);
     savepoint := savepoint s;
     executed := executed s
       ++ [updateTreeSQL (TreeState_String (tree_TreeState tree))
             (TreeType_String (tree_TreeType tree)) (DisplayName tree) (Description tree)
             nowMillis dur [] (TreeId tree)] |}.

(** The row of a tree that [GetActiveLogIDs] selects. *)
Definition active_log_row (r : TreesRow) : Prop :=
  (tr_TreeType r = "LOG" ∨ tr_TreeType r = "PREORDERED_LOG")
  ∧ (tr_TreeState r = "ACTIVE" ∨ tr_TreeState r = "DRAINING")
  ∧ nonDeletedWhere r.

#[global] Instance active_log_row_dec r : Decision (active_log_row r).
Proof. unfold active_log_row. apply _. Defined.

(** ** Example data for the further operations *)

(** A log that is not deleted, beside the soft-deleted log 7. *)
Definition live_tree_row : TreesRow :=
  {| tr_TreeId := 5; tr_TreeState := "ACTIVE"; tr_TreeType := "LOG";
     tr_HashStrategy := "RFC6962_SHA256"; tr_HashAlgorithm := "SHA256";
     tr_SignatureAlgorithm := "ECDSA"; tr_DisplayName := "live log";
     tr_Description := ""; tr_CreateTimeMillis := 500; tr_UpdateTimeMillis := 500;
     tr_PrivateKey := []; tr_PublicKey := [Byte.x01]; tr_MaxRootDurationMillis := 0;
     tr_Deleted := None; tr_DeleteTimeMillis := None |}.

Definition admin_sql : sqlTx :=
  {| db := {| Trees := [live_tree_row; deleted_tree_row];
              TreeControl := [{| tc_TreeId := 5; tc_SigningEnabled := true;
                                 tc_SequencingEnabled := true;
                                 tc_SequenceIntervalSeconds := 60 |};
                              {| tc_TreeId := 7; tc_SigningEnabled := true;
                                 tc_SequencingEnabled := true;
                                 tc_SequenceIntervalSeconds := 60 |}];
              TreeHead := []; LeafData := []; SequencedLeafData := []; Unsequenced := [] |};
     savepoint := None;
     executed := [] |}.

(** A row reader for the examples: it knows the states and types by their
    names and fails on any other. *)
Definition example_readTree (r : TreesRow) : result Tree :=
  let state :=
    if bool_decide (tr_TreeState r = "ACTIVE") then Some ACTIVE
    else if bool_decide (tr_TreeState r = "FROZEN") then Some FROZEN
    else if bool_decide (tr_TreeState r = "DRAINING") then Some DRAINING
    else None in
  let type :=
    if bool_decide (tr_TreeType r = "LOG") then Some LOG
    else if bool_decide (tr_TreeType r = "PREORDERED_LOG") then Some PREORDERED_LOG
    else None in
  match state, type with
  | Some state, Some type =>
      Ok {| TreeId := tr_TreeId r; tree_TreeState := state; tree_TreeType := type;
            DisplayName := tr_DisplayName r; Description := tr_Description r;
            StorageSettings := None; MaxRootDuration := None;
            CreateTime := Some (timestamppb_New (tr_CreateTimeMillis r * 1000000));
            UpdateTime := Some (timestamppb_New (tr_UpdateTimeMillis r * 1000000));
            Deleted := default false (tr_Deleted r);
            DeleteTime := option_map (λ ms, timestamppb_New (ms * 1000000))
                            (tr_DeleteTimeMillis r) |}
  | _, _ => Err (fmt_Errorf "unknown TreeState or TreeType")
  end.

(** A mutator that freezes a tree. *)
Definition freeze (t : Tree) : Tree :=
  {| TreeId := TreeId t; tree_TreeState := FROZEN; tree_TreeType := tree_TreeType t;
     DisplayName := DisplayName t; Description := Description t;
     StorageSettings := StorageSettings t; MaxRootDuration := MaxRootDuration t;
     CreateTime := CreateTime t; UpdateTime := UpdateTime t; Deleted := Deleted t;
     DeleteTime := DeleteTime t |}.

(** [UpdateTree] with collaborators for the examples: every update is
    valid, no storage settings are recognised, every duration is valid and
    lasts no time, and a millisecond is a million nanoseconds. *)
Definition example_UpdateTree :=
  UpdateTree example_readTree (λ _ _, None) (λ _, false) (λ _, None) (λ _, 0)
    (λ t, t `div` 1000000) (λ ms, ms * 1000000).

(** An encoder for the examples, the inverse of the decoder above on the
    roots it can encode. *)
Definition write_uint (n : nat) (z : Z) : bytes :=
  (λ k, default Byte.x00 (Byte.of_N (Z.to_N ((z `div` (256 ^ Z.of_nat k)) `mod` 256))))
    <$> reverse (seq 0 n).

Definition example_MarshalBinary (r : LogRootV1) : result bytes :=
  if bool_decide (len (RootHash r) ≤ 128 ∧ len (Metadata r) ≤ 65535) then
    Ok (write_uint 2 1 ++ write_uint 8 (TreeSize r)
        ++ write_uint 1 (len (RootHash r)) ++ RootHash r
        ++ write_uint 8 (TimestampNanos r) ++ write_uint 8 (Revision r)
        ++ write_uint 2 (len (Metadata r)) ++ Metadata r)
  else Err (fmt_Errorf "tls: field too long").

(** The heads of a tree, and the root [fetchLatestRoot] builds from a
    head. *)
Definition heads_of (d : DB) (treeID : Z) : list TreeHeadRow :=
  filter (λ h, th_TreeId h = treeID) (TreeHead d).

Definition root_of_head (h : TreeHeadRow) : LogRootV1 :=
  {| TreeSize := uint64 (int64 (th_TreeSize h)); RootHash := th_RootHash h;
     TimestampNanos := uint64 (int64 (th_TreeHeadTimestamp h)); Revision := 0;
     Metadata := [] |}.

(** The log transaction [beginInternal] builds around a [treeTX]. *)
Definition logTreeTX_of (ttx : treeTX) (writeRevision : Z) (root : LogRootV1) (readRev : Z)
  (slr : option SignedLogRoot) : logTreeTX :=
  {| treeID := ttx_treeID ttx; treeType := ttx_treeType ttx;
     hashSizeBytes := ttx_hashSizeBytes ttx; writeRevision := writeRevision;
     root := root; readRev := readRev; slr := slr; dequeued := ∅ |}.

(** What [beginTreeTx] returns for tree 7 as a log. *)
Definition log7_ttx : treeTX :=
  {| ttx_treeID := 7; ttx_treeType := LOG; ttx_hashSizeBytes := 32; ttx_writeRevision := -1 |}.

(** A serialized root of twelve leaves with the timestamp 200. *)
Definition fresh_logRoot : LogRootV1 :=
  {| TreeSize := 12; RootHash := [Byte.xbb]; TimestampNanos := 200; Revision := 4;
     Metadata := [] |}.

Definition fresh_root : SignedLogRoot :=
  {| LogRoot := [Byte.x00; Byte.x01]
                ++ [Byte.x00; Byte.x00; Byte.x00; Byte.x00; Byte.x00; Byte.x00; Byte.x00; Byte.x0c]
                ++ [Byte.x01; Byte.xbb]
                ++ [Byte.x00; Byte.x00; Byte.x00; Byte.x00; Byte.x00; Byte.x00; Byte.x00; Byte.xc8]
                ++ [Byte.x00; Byte.x00; Byte.x00; Byte.x00; Byte.x00; Byte.x00; Byte.x00; Byte.x04]
                ++ [Byte.x00; Byte.x00] |}.

(** The leaf has a row in the way of [AddSequencedLeaves]: one of its
    identity hash in the leaf store, or one of its index or identity hash
    in the sequence store. *)
Definition in_the_way (d : DB) (t : logTreeTX) (l : LogLeaf) : Prop :=
  in_tree d (treeID t) (LeafIdentityHash l)
  ∨ Exists (λ r, SequencedLeafData_conflict (sequenced_row t l) r = true)
      (SequencedLeafData d).

(** The row that a leaf-store row and a sequence-store row join to, and
    the leaf that the scans of the leaf-selection statements build from a
    row. *)
Definition joined (l : LeafDataRow) (q : SequencedLeafDataRow) : leafRow :=
  {| row_MerkleLeafHash := sl_MerkleLeafHash q;
     row_LeafIdentityHash := ld_LeafIdentityHash l;
     row_LeafValue := ld_LeafValue l;
     row_SequenceNumber := sl_SequenceNumber q;
     row_ExtraData := ld_ExtraData l;
     row_QueueTimestampNanos := ld_QueueTimestampNanos l;
     row_IntegrateTimestampNanos := Some (sl_IntegrateTimestampNanos q) |}.

Definition leaf_of_row (r : leafRow) : LogLeaf :=
  {| MerkleLeafHash := row_MerkleLeafHash r;
     LeafValue := row_LeafValue r;
     ExtraData := row_ExtraData r;
     LeafIndex := int64 (row_SequenceNumber r);
     LeafIdentityHash := row_LeafIdentityHash r;
     QueueTimestamp :=
       Some (timestamppb_New (time_Unix0 (int64 (row_QueueTimestampNanos r))));
     IntegrateTimestamp :=
       option_map (λ i, timestamppb_New (time_Unix0 (int64 i)))
         (row_IntegrateTimestampNanos r) |}.

(** The two rows are those of one sequenced leaf of the tree. *)
Definition sequenced_in (d : DB) (treeID : Z) (l : LeafDataRow) (q : SequencedLeafDataRow)
  : Prop :=
  l ∈ LeafData d ∧ q ∈ SequencedLeafData d
  ∧ ld_TreeId l = treeID ∧ sl_TreeId q = treeID
  ∧ ld_LeafIdentityHash l = sl_LeafIdentityHash q.

(** The primary key of the sequence store. *)
Definition Sequence_key (q : SequencedLeafDataRow) : Z * Z :=
  (sl_TreeId q, sl_SequenceNumber q).

(** The database of [preordered_sql] with the rows of its leaf store in the
    opposite order. *)
Definition shuffled_sql : sqlTx :=
  {| db := {| Trees := []; TreeControl := []; TreeHead := [];
              LeafData := reverse (LeafData (db preordered_sql));
              SequencedLeafData := SequencedLeafData (db preordered_sql);
              Unsequenced := [] |};
     savepoint := None;
     executed := [] |}.

(** * Properties *)

(** ** Tree administration *)

Section AdminStorageProperties.

Variable readTree : TreesRow → result Tree.
Variable ValidateTreeForUpdate : Tree → Tree → option error.
Variable MessageIs_StorageOptions : option Any → bool.
Variable Duration_CheckValid : option Duration → option error.
Variable Duration_AsDuration : option Duration → Z.
Variable toMillisSinceEpoch : Time → Z.
Variable fromMillisSinceEpoch : Z → Time.

Lemma validateDeleted_spec (s : sqlTx) (treeID : Z) (wantDeleted : bool) :
  validateDeleted s treeID wantDeleted =
    match selectTreeByID (db s) treeID with
    | [] => Some (status_Errorf codes_NotFound "tree not found")
    | row :: _ =>
        let deleted := default false (tr_Deleted row) in
        if wantDeleted && negb deleted then
          Some (status_Errorf codes_FailedPrecondition "tree is not soft deleted")
        else if negb wantDeleted && deleted then
          Some (status_Errorf codes_FailedPrecondition "tree already soft deleted")
        else None
    end.
Proof.
  unfold validateDeleted, SELECT_Deleted_FROM_Trees, selectTreeByID.
  destruct (filter _ (Trees (db s))) as [|row rows]; [done|].
  cbn [map QueryRow]. by destruct (tr_Deleted row) as [[]|].
Qed.

(** C7: the deletion-state errors.  When no row of [Trees] has the id,
    [SoftDeleteTree], [UndeleteTree] and [HardDeleteTree] all fail with
    [NotFound]; when the tree is soft deleted, [SoftDeleteTree] fails with
    [FailedPrecondition]; when it is not, [UndeleteTree] and
    [HardDeleteTree] fail with [FailedPrecondition].  In each case nothing
    is executed. *)
Theorem deleted_state_errors (s : sqlTx) (treeID : Z) (now : Time) :
  match selectTreeByID (db s) treeID with
  | [] =>
      SoftDeleteTree readTree toMillisSinceEpoch s treeID now
        = (Err (status_Errorf codes_NotFound "tree not found"), s)
      ∧ UndeleteTree readTree s treeID
        = (Err (status_Errorf codes_NotFound "tree not found"), s)
      ∧ HardDeleteTree s treeID
        = (Some (status_Errorf codes_NotFound "tree not found"), s)
  | row :: _ =>
      if default false (tr_Deleted row) then
        SoftDeleteTree readTree toMillisSinceEpoch s treeID now
          = (Err (status_Errorf codes_FailedPrecondition "tree already soft deleted"), s)
      else
        UndeleteTree readTree s treeID
          = (Err (status_Errorf codes_FailedPrecondition "tree is not soft deleted"), s)
        ∧ HardDeleteTree s treeID
          = (Some (status_Errorf codes_FailedPrecondition "tree is not soft deleted"), s)
  end.
Proof.
  unfold SoftDeleteTree, UndeleteTree, updateDeleted, HardDeleteTree.
  rewrite !validateDeleted_spec.
  destruct (selectTreeByID (db s) treeID) as [|row rows]; [done|].
  cbn zeta. by destruct (default false (tr_Deleted row)).
Qed.

Lemma Forall_filter_not {A} (P : A → Prop) `{∀ x, Decision (P x)} (l : list A) :
  Forall (λ x, ¬ P x) (filter (λ x, ¬ P x) l).
Proof. apply Forall_forall. intros x Hx. by apply list_elem_of_filter in Hx as [? _]. Qed.

(** C6, as the code has it: for a soft-deleted tree [HardDeleteTree]
    succeeds, and the statements it executes are exactly the delete of the
    tree's [TreeControl] rows followed by the delete of the tree's own row.
    Afterwards neither table has a row of the tree; the [TreeHead] table is
    not touched by any statement of the call. *)
Theorem HardDeleteTree_explicit_deletes (s : sqlTx) (treeID : Z) :
  soft_deleted s treeID = true →
  ∃ s', HardDeleteTree s treeID = (None, s')
    ∧ executed s' = executed s ++ [DELETE_FROM_TreeControl treeID; DELETE_FROM_Trees treeID]
    ∧ Forall (λ r, tc_TreeId r ≠ treeID) (TreeControl (db s'))
    ∧ Forall (λ r, tr_TreeId r ≠ treeID) (Trees (db s'))
    ∧ TreeHead (db s') = TreeHead (db s).
Proof.
  unfold soft_deleted, HardDeleteTree. rewrite validateDeleted_spec.
  destruct (selectTreeByID (db s) treeID) as [|row rows]; [done|].
  intros ->. cbn. eexists. split; [done|]. cbn.
  split; [by rewrite <- app_assoc|].
  split; [apply (Forall_filter_not (λ r, tc_TreeId r = treeID))|].
  split; [apply (Forall_filter_not (λ r, tr_TreeId r = treeID))|done].
Qed.

Lemma HardDeleteTree_explicit_deletes_witness :
  soft_deleted deleted_tree_tx 7 = true
  ∧ ∃ s', HardDeleteTree deleted_tree_tx 7 = (None, s')
    ∧ executed s' = executed deleted_tree_tx ++ [DELETE_FROM_TreeControl 7; DELETE_FROM_Trees 7]
    ∧ Forall (λ r, tc_TreeId r ≠ 7) (TreeControl (db s'))
    ∧ Forall (λ r, tr_TreeId r ≠ 7) (Trees (db s'))
    ∧ TreeHead (db s') = TreeHead (db deleted_tree_tx).
Proof.
  split; [reflexivity|]. apply (HardDeleteTree_explicit_deletes deleted_tree_tx 7). reflexivity.
Defined.

(** C6, as the spec states it, fails: after [HardDeleteTree] of the
    soft-deleted tree 7 (which succeeds), the statements of the call have
    removed the tree's control row and its own row, but, no foreign-key
    cascade being counted, its tree head is still stored. *)
Lemma HardDeleteTree_keeps_tree_heads :
  soft_deleted deleted_tree_tx 7 = true
  ∧ (HardDeleteTree deleted_tree_tx 7).1 = None
  ∧ ¬ (Forall (λ r, tc_TreeId r ≠ 7) (TreeControl (db (HardDeleteTree deleted_tree_tx 7).2))
       ∧ Forall (λ r, th_TreeId r ≠ 7) (TreeHead (db (HardDeleteTree deleted_tree_tx 7).2))
       ∧ Forall (λ r, tr_TreeId r ≠ 7) (Trees (db (HardDeleteTree deleted_tree_tx 7).2))).
Proof.
  split; [reflexivity|]. split; [reflexivity|].
  intros (_ & Hheads & _). cbn in Hheads.
  apply Forall_cons in Hheads as [Hhead _]. by apply Hhead.
Qed.

Lemma run_updateTreeSQL_kept state type name descr upd dur priv tid (d : DB) sp :
  let '(_, d', sp') := run (updateTreeSQL state type name descr upd dur priv tid) d sp in
  map kept_columns (Trees d') = map kept_columns (Trees d)
  ∧ TreeControl d' = TreeControl d ∧ TreeHead d' = TreeHead d
  ∧ LeafData d' = LeafData d ∧ SequencedLeafData d' = SequencedLeafData d
  ∧ Unsequenced d' = Unsequenced d.
Proof.
  cbn. split; [|done]. rewrite map_map. apply map_ext. intros r.
  by case_bool_decide.
Qed.

(** C10: whatever the mutator and whatever the outcome, [UpdateTree]
    leaves the [PublicKey] column (the stored storage settings) of every
    row of [Trees] as it was, along with the other columns that
    [updateTreeSQL] does not name and all other tables; the only statement
    it can execute is [updateTreeSQL], which sets the state, type, display
    name, description, update time, max root duration and private key. *)
Theorem UpdateTree_keeps_storage_settings (s : sqlTx) (treeID : Z)
  (updateFunc : Tree → Tree) (now : Time) :
  let s' :=
    (UpdateTree readTree ValidateTreeForUpdate MessageIs_StorageOptions Duration_CheckValid
       Duration_AsDuration toMillisSinceEpoch fromMillisSinceEpoch s treeID updateFunc now).2 in
  map tr_PublicKey (Trees (db s')) = map tr_PublicKey (Trees (db s))
  ∧ map kept_columns (Trees (db s')) = map kept_columns (Trees (db s))
  ∧ TreeControl (db s') = TreeControl (db s) ∧ TreeHead (db s') = TreeHead (db s)
  ∧ LeafData (db s') = LeafData (db s)
  ∧ SequencedLeafData (db s') = SequencedLeafData (db s)
  ∧ Unsequenced (db s') = Unsequenced (db s)
  ∧ (executed s' = executed s
     ∨ ∃ state type name descr upd dur tid,
         executed s' = executed s ++ [updateTreeSQL state type name descr upd dur [] tid]).
Proof.
  assert (Hpk : ∀ l1 l2 : list TreesRow,
             map kept_columns l1 = map kept_columns l2 → map tr_PublicKey l1 = map tr_PublicKey l2).
  { intros l1 l2 Hk.
    apply (f_equal (map (λ c : _ * _ * _ * _ * _ * bytes * _ * _, c.1.1.2))) in Hk.
    by rewrite !map_map in Hk. }
  cbn zeta. unfold UpdateTree.
  destruct (GetTree readTree s treeID) as [tree0|e]; [|by auto 10].
  destruct (ValidateTreeForUpdate _ _); [by auto 10|].
  destruct (validateStorageSettings _ _); [by auto 10|].
  destruct (Duration_CheckValid _); [by auto 10|].
  unfold ExecContext.
  match goal with |- context [run (updateTreeSQL ?a ?b ?c ?e ?f ?g ?h ?i) ?d ?sp] =>
    pose proof (run_updateTreeSQL_kept a b c e f g h i d sp) as Hrun;
    destruct (run (updateTreeSQL a b c e f g h i) d sp) as [[r d'] sp'] eqn:Hr end.
  destruct Hrun as (Hk & ? & ? & ? & ? & ?).
  destruct r; cbn; (split; [by apply Hpk|]); repeat (split; [done|]);
    right; by do 7 eexists.
Qed.

End AdminStorageProperties.

(** ** Machine integers and timestamps *)

Lemma int64_range (z : Z) : - 2 ^ 63 ≤ int64 z < 2 ^ 63.
Proof. unfold int64. pose proof (Z.mod_pos_bound (z + 2 ^ 63) (2 ^ 64)). lia. Qed.

Lemma int64_id (z : Z) : - 2 ^ 63 ≤ z < 2 ^ 63 → int64 z = z.
Proof. intros H. unfold int64. rewrite Z.mod_small; lia. Qed.

Lemma Timestamp_CheckValid_int64 (z : Z) :
  Timestamp_CheckValid (Some (timestamppb_New (time_Unix0 (int64 z)))) = None.
Proof.
  pose proof (int64_range z) as Hr. unfold time_Unix0, timestamppb_New, Timestamp_CheckValid.
  cbn [Seconds Nanos].
  pose proof (Z.mod_pos_bound (int64 z) 1000000000).
  assert (- 9223372037 ≤ int64 z `div` 1000000000 ≤ 9223372037).
  { split; [apply Z.div_le_lower_bound|apply Z.div_le_upper_bound]; lia. }
  repeat case_bool_decide; try done; lia.
Qed.

(** ** Reading leaves by range *)

Lemma selectLeavesByRangeSQL_rows (d : DB) (lo hi treeID : Z) (r : leafRow) :
  r ∈ selectLeavesByRangeSQL d lo hi treeID →
  lo ≤ row_SequenceNumber r < hi ∧ is_Some (row_IntegrateTimestampNanos r).
Proof.
  unfold selectLeavesByRangeSQL. rewrite merge_sort_Permutation.
  rewrite list_elem_of_In, in_flat_map. intros (l & _ & Hr).
  apply list_elem_of_In, list_elem_of_fmap in Hr as (sq & -> & Hsq).
  apply list_elem_of_filter in Hsq as [(_ & ? & ? & _) _]. cbn. split; [lia|eauto].
Qed.

Section RangeScan.

Variable t : logTreeTX.

Lemma scan_dense (rows : list leafRow) (w : Z) (ret : list LogLeaf) :
  Forall scannable rows →
  getLeavesByRange_scan t rows w = Ok ret →
  ∀ (k : nat) (leaf : LogLeaf), ret !! k = Some leaf → LeafIndex leaf = w + Z.of_nat k.
Proof.
  revert w ret. induction rows as [|r rows IH]; intros w ret Hrows Hscan k leaf Hk.
  { cbn in Hscan. by simplify_eq. }
  apply Forall_cons in Hrows as [[Hseq [i Hi]] Hrows].
  cbn [getLeavesByRange_scan] in Hscan. rewrite Hi in Hscan.
  cbn [LeafIndex set_QueueTimestamp set_IntegrateTimestamp QueueTimestamp IntegrateTimestamp]
    in Hscan.
  rewrite (int64_id (row_SequenceNumber r)) in Hscan by lia.
  case_bool_decide as Hw.
  { case_bool_decide; by simplify_eq. }
  rewrite !Timestamp_CheckValid_int64 in Hscan.
  rewrite (int64_id (w + 1)) in Hscan by lia.
  destruct (getLeavesByRange_scan t rows (w + 1)) as [ret'|] eqn:Hrec; [|done].
  simplify_eq. destruct k as [|k]; cbn in Hk.
  - simplify_eq. cbn. lia.
  - rewrite (IH _ _ Hrows Hrec k leaf Hk). lia.
Qed.

Lemma scan_gap (rows : list leafRow) (w : Z) (k : nat) (r : leafRow) :
  Forall scannable rows →
  rows !! k = Some r →
  (∀ (j : nat) r', (j < k)%nat → rows !! j = Some r' → row_SequenceNumber r' = w + Z.of_nat j) →
  row_SequenceNumber r ≠ w + Z.of_nat k →
  w + Z.of_nat k < int64 (TreeSize (root t)) →
  getLeavesByRange_scan t rows w = Err (fmt_Errorf "got unexpected index").
Proof.
  revert w k. induction rows as [|r0 rows IH]; intros w k Hrows Hk Hpre Hne Hlt; [done|].
  apply Forall_cons in Hrows as [[Hseq [i Hi]] Hrows].
  cbn [getLeavesByRange_scan]. rewrite Hi.
  cbn [LeafIndex set_QueueTimestamp set_IntegrateTimestamp QueueTimestamp IntegrateTimestamp].
  rewrite (int64_id (row_SequenceNumber r0)) by lia.
  destruct k as [|k]; cbn in Hk.
  - simplify_eq. rewrite Z.add_0_r in Hne, Hlt.
    rewrite bool_decide_eq_true_2 by done. by rewrite bool_decide_eq_true_2.
  - assert (row_SequenceNumber r0 = w) as Hw.
    { rewrite (Hpre 0%nat r0); [lia|lia|done]. }
    rewrite bool_decide_eq_false_2 by lia.
    rewrite !Timestamp_CheckValid_int64.
    rewrite (int64_id (w + 1)) by lia.
    rewrite (IH (w + 1) k Hrows Hk); [done| |lia|lia].
    intros j r' Hj Hr'. rewrite (Hpre (S j) r'); [lia|lia|done].
Qed.

End RangeScan.

Lemma range_rows_scannable (t : logTreeTX) (d : DB) (start hi : Z) :
  0 ≤ start →
  Forall scannable (selectLeavesByRangeSQL d start (int64 hi) (treeID t)).
Proof.
  intros Hstart. apply Forall_forall. intros r Hr.
  apply selectLeavesByRangeSQL_rows in Hr as [Hseq Hi].
  pose proof (int64_range hi). split; [lia|done].
Qed.

Section RangeReturned.

Variable t : logTreeTX.

Lemma scan_returned (rows : list leafRow) (w : Z) (n : nat) :
  Forall scannable rows →
  (∀ (j : nat) r', (j < n)%nat → rows !! j = Some r' → row_SequenceNumber r' = w + Z.of_nat j) →
  n = length rows
  ∨ (∃ r, rows !! n = Some r ∧ row_SequenceNumber r ≠ w + Z.of_nat n
          ∧ int64 (TreeSize (root t)) ≤ w + Z.of_nat n) →
  getLeavesByRange_scan t rows w = Ok (leaf_of_row <$> take n rows).
Proof.
  revert w n. induction rows as [|r0 rows IH]; intros w n Hrows Hpre Hend.
  { by rewrite take_nil. }
  apply Forall_cons in Hrows as [[Hseq [i Hi]] Hrows].
  cbn [getLeavesByRange_scan]. rewrite Hi.
  cbn [LeafIndex set_QueueTimestamp set_IntegrateTimestamp QueueTimestamp IntegrateTimestamp].
  rewrite (int64_id (row_SequenceNumber r0)) by lia.
  destruct n as [|n].
  - destruct Hend as [Hlen|(r & Hr & Hne & Hge)]; [done|].
    cbn in Hr. injection Hr as <-. rewrite Z.add_0_r in Hne, Hge.
    rewrite bool_decide_eq_true_2 by done. by rewrite bool_decide_eq_false_2 by lia.
  - assert (row_SequenceNumber r0 = w) as Hw.
    { rewrite (Hpre 0%nat r0); [lia|lia|done]. }
    rewrite bool_decide_eq_false_2 by lia.
    rewrite !Timestamp_CheckValid_int64.
    rewrite (int64_id (w + 1)) by lia.
    rewrite (IH (w + 1) n Hrows).
    + change (take (S n) (r0 :: rows)) with (r0 :: take n rows). rewrite fmap_cons.
      do 2 f_equal. unfold leaf_of_row. rewrite Hi.
      by rewrite (int64_id (row_SequenceNumber r0)) by lia.
    + intros j r' Hj Hr'. rewrite (Hpre (S j) r'); [lia|lia|done].
    + destruct Hend as [Hlen|(r & Hr & Hne & Hge)].
      * left. cbn in Hlen. lia.
      * right. exists r. cbn in Hr. split; [done|]. split; lia.
Qed.

End RangeReturned.

Lemma getLeavesByRangeInternal_checked (t : logTreeTX) (start count : Z) (s : sqlTx) :
  0 < count → 0 ≤ start → (treeType t = LOG → start < int64 (TreeSize (root t))) →
  getLeavesByRangeInternal t start count s
  = if makeslice_cap_out_of_range (clipped_count t start count) then Err panicmakeslicecap
    else getLeavesByRange_scan t (range_rows t start count s) start.
Proof.
  intros Hc Hs Hlt. unfold getLeavesByRangeInternal, range_rows, clipped_count.
  rewrite (bool_decide_eq_false_2 (count ≤ 0)) by lia.
  rewrite (bool_decide_eq_false_2 (start < 0)) by lia.
  destruct (decide (treeType t = LOG)) as [Ht|Ht].
  - specialize (Hlt Ht). rewrite !(bool_decide_eq_true_2 (treeType t = LOG)) by done.
    rewrite (bool_decide_eq_false_2 (int64 _ ≤ 0)) by lia.
    rewrite (bool_decide_eq_false_2 (start >= _)) by lia.
    case_bool_decide.
    + by rewrite Z.min_r by lia.
    + by rewrite Z.min_l by lia.
  - by rewrite !(bool_decide_eq_false_2 (treeType t = LOG)) by done.
Qed.

(** C3: [getLeavesByRangeInternal], behind [GetLeavesByRange].  A count
    [≤ 0] and a start [< 0] are rejected as invalid arguments.  For a [LOG]
    tree a start at or beyond the tree size is rejected as out of range and
    the count is clipped to [tree_size - start]; a tree of another type
    keeps its count.  A clipped count that [make] does not take as a
    capacity makes the call panic.  Otherwise the call is the scan of the
    rows of [[start, start + clipped count)], for every tree type: the
    leaves returned are numbered [start, start + 1, ...] without a gap; the
    first row out of sequence makes the call fail with the
    unexpected-index error when the index wanted at its place is below the
    tree size; and when the rows are in sequence to their end, or up to a
    row out of sequence at an index wanted at or beyond the tree size, the
    leaves of the rows in sequence are returned, however few they are. *)
Theorem GetLeavesByRange_validates (t : logTreeTX) (start count : Z) (s : sqlTx) :
  let treeSize := int64 (TreeSize (root t)) in
  let rows := range_rows t start count s in
  (count ≤ 0 →
     GetLeavesByRange t start count s
       = Err (status_Errorf codes_InvalidArgument "invalid count, want > 0"))
  ∧ (start < 0 →
     ∃ msg, GetLeavesByRange t start count s = Err (status_Errorf codes_InvalidArgument msg))
  ∧ (treeType t = LOG → 0 < count → 0 ≤ start → treeSize ≤ start →
     ∃ msg, GetLeavesByRange t start count s = Err (status_Errorf codes_OutOfRange msg))
  ∧ (treeType t = LOG → clipped_count t start count = Z.min count (treeSize - start))
  ∧ (treeType t ≠ LOG → clipped_count t start count = count)
  ∧ (0 < count → 0 ≤ start → (treeType t = LOG → start < treeSize) →
     maxAlloc < 8 * clipped_count t start count →
     GetLeavesByRange t start count s = Err panicmakeslicecap)
  ∧ (range_admitted t start count →
     GetLeavesByRange t start count s = getLeavesByRange_scan t rows start
     ∧ (∀ (k : nat) r, rows !! k = Some r →
          (∀ (j : nat) r', (j < k)%nat → rows !! j = Some r' →
             row_SequenceNumber r' = start + Z.of_nat j) →
          row_SequenceNumber r ≠ start + Z.of_nat k →
          start + Z.of_nat k < treeSize →
          GetLeavesByRange t start count s = Err (fmt_Errorf "got unexpected index"))
     ∧ (∀ (n : nat),
          (∀ (j : nat) r', (j < n)%nat → rows !! j = Some r' →
             row_SequenceNumber r' = start + Z.of_nat j) →
          n = length rows
          ∨ (∃ r, rows !! n = Some r ∧ row_SequenceNumber r ≠ start + Z.of_nat n
                  ∧ treeSize ≤ start + Z.of_nat n) →
          GetLeavesByRange t start count s = Ok (leaf_of_row <$> take n rows)))
  ∧ (∀ ret, GetLeavesByRange t start count s = Ok ret →
     range_admitted t start count
     ∧ ∀ (k : nat) leaf, ret !! k = Some leaf → LeafIndex leaf = start + Z.of_nat k).
Proof.
  cbv zeta. unfold GetLeavesByRange.
  assert (Hrows : 0 ≤ start → Forall scannable (range_rows t start count s)).
  { intros Hs. unfold range_rows. by apply range_rows_scannable. }
  assert (Hclip : 0 < count → 0 < clipped_count t start count
                              ∨ (treeType t = LOG ∧ int64 (TreeSize (root t)) ≤ start)).
  { intros Hc. unfold clipped_count. case_bool_decide; [|by left].
    destruct (decide (int64 (TreeSize (root t)) ≤ start)); [by right|left; lia]. }
  split; [|split; [|split; [|split; [|split; [|split; [|split]]]]]].
  - intros Hc. unfold getLeavesByRangeInternal. by rewrite bool_decide_eq_true_2.
  - intros Hs. unfold getLeavesByRangeInternal.
    case_bool_decide; [by eexists|]. rewrite bool_decide_eq_true_2 by done. by eexists.
  - intros Ht Hc Hs Hge. unfold getLeavesByRangeInternal.
    rewrite (bool_decide_eq_false_2 (count ≤ 0)) by lia.
    rewrite (bool_decide_eq_false_2 (start < 0)) by lia.
    rewrite (bool_decide_eq_true_2 (treeType t = LOG)) by done.
    case_bool_decide; [by eexists|]. rewrite bool_decide_eq_true_2 by lia. by eexists.
  - intros Ht. unfold clipped_count. by rewrite bool_decide_eq_true_2.
  - intros Ht. unfold clipped_count. by rewrite bool_decide_eq_false_2.
  - intros Hc Hs Hlt Hcap. rewrite getLeavesByRangeInternal_checked by done.
    unfold makeslice_cap_out_of_range. rewrite bool_decide_eq_true_2; [done|]. by right.
  - intros (Hc & Hs & Hlt & Hcap).
    assert (Hrun : getLeavesByRangeInternal t start count s
                   = getLeavesByRange_scan t (range_rows t start count s) start).
    { rewrite getLeavesByRangeInternal_checked by done.
      unfold makeslice_cap_out_of_range. rewrite bool_decide_eq_false_2; [done|].
      destruct (Hclip Hc) as [?|[Ht ?]]; [|specialize (Hlt Ht)]; lia. }
    rewrite Hrun. split; [done|]. split.
    + intros k r Hk Hpre Hne Hw. eapply scan_gap; [by apply Hrows|exact Hk|exact Hpre|done|done].
    + intros n Hpre Hend. apply scan_returned; [by apply Hrows|done|done].
  - intros ret Hret.
    assert (Hc : 0 < count).
    { unfold getLeavesByRangeInternal in Hret. case_bool_decide; [done|lia]. }
    assert (Hs : 0 ≤ start).
    { unfold getLeavesByRangeInternal in Hret.
      case_bool_decide; [done|]. case_bool_decide; [done|lia]. }
    assert (Hlt : treeType t = LOG → start < int64 (TreeSize (root t))).
    { intros Ht. unfold getLeavesByRangeInternal in Hret.
      rewrite (bool_decide_eq_false_2 (count ≤ 0)) in Hret by lia.
      rewrite (bool_decide_eq_false_2 (start < 0)) in Hret by lia.
      rewrite (bool_decide_eq_true_2 (treeType t = LOG)) in Hret by done.
      case_bool_decide; [done|]. case_bool_decide; [done|lia]. }
    rewrite getLeavesByRangeInternal_checked in Hret by done.
    unfold makeslice_cap_out_of_range in Hret. case_bool_decide as Hcap; [done|].
    split; [repeat split; try done; lia|].
    eapply scan_dense; [|exact Hret]. by apply Hrows.
Qed.

(** A log of four leaves that lacks the sequenced entry of index 2: a range
    that ends before the gap is returned, and so is the range from index 3
    (clipped to one leaf); a range whose rows jump over index 2 is an
    error; a range whose rows merely stop before index 2 is returned as
    read; and the argument checks come first. *)
Example GetLeavesByRange_examples :
  option_map (map LeafIndex) (err_of_ok (GetLeavesByRange gap_tx 0 2 gap_sql)) = Some [0; 1]
  ∧ option_map (map LeafIndex) (err_of_ok (GetLeavesByRange gap_tx 3 10 gap_sql)) = Some [3]
  ∧ GetLeavesByRange gap_tx 0 10 gap_sql = Err (fmt_Errorf "got unexpected index")
  ∧ GetLeavesByRange gap_tx 1 3 gap_sql = Err (fmt_Errorf "got unexpected index")
  ∧ option_map (map LeafIndex) (err_of_ok (GetLeavesByRange gap_tx 0 3 gap_sql)) = Some [0; 1]
  ∧ GetLeavesByRange gap_tx 4 1 gap_sql
    = Err (status_Errorf codes_OutOfRange "invalid start, want < TreeSize")
  ∧ GetLeavesByRange gap_tx 0 0 gap_sql
    = Err (status_Errorf codes_InvalidArgument "invalid count, want > 0")
  ∧ GetLeavesByRange gap_tx (-1) 1 gap_sql
    = Err (status_Errorf codes_InvalidArgument "invalid start, want >= 0").
Proof. vm_compute. done. Qed.

(** In a pre-ordered log the count is not clipped: a count that [make]
    does not take as a capacity makes the call panic, after the argument
    checks. *)
Example GetLeavesByRange_panics_example :
  GetLeavesByRange preordered_tx 0 (2 ^ 62) preordered_sql = Err panicmakeslicecap
  ∧ GetLeavesByRange preordered_tx (-1) (2 ^ 62) preordered_sql
    = Err (status_Errorf codes_InvalidArgument "invalid start, want >= 0")
  ∧ option_map (map LeafIndex) (err_of_ok (GetLeavesByRange gap_tx 0 (2 ^ 62) gap_sql))
    = None
  ∧ option_map (map LeafIndex) (err_of_ok (GetLeavesByRange gap_tx 3 (2 ^ 62) gap_sql))
    = Some [3].
Proof. vm_compute. done. Qed.

(** C3, as the spec states it, fails.  In the log of four leaves that lacks
    the entry of index 2, the range of three leaves from index 0 is
    returned with the leaves 0 and 1 and no error, although index 2 is
    below the tree size and missing: rows that end before a gap are not
    told from rows that end at the count. *)
Lemma GetLeavesByRange_returns_short_of_gap :
  GetLeavesByRange gap_tx 0 3 gap_sql
  = Ok (default [] (err_of_ok (GetLeavesByRange gap_tx 0 3 gap_sql)))
  ∧ LeafIndex <$> default [] (err_of_ok (GetLeavesByRange gap_tx 0 3 gap_sql)) = [0; 1]
  ∧ 2 < int64 (TreeSize (root gap_tx))
  ∧ ¬ (∀ ret, GetLeavesByRange gap_tx 0 3 gap_sql = Ok ret →
         no_gap_below_tree_size gap_tx 0 3 ret).
Proof.
  assert (Hrun : GetLeavesByRange gap_tx 0 3 gap_sql
                 = Ok (default [] (err_of_ok (GetLeavesByRange gap_tx 0 3 gap_sql))))
    by (vm_compute; reflexivity).
  assert (Hidx : LeafIndex <$> default [] (err_of_ok (GetLeavesByRange gap_tx 0 3 gap_sql))
                 = [0; 1]) by (vm_compute; reflexivity).
  split; [exact Hrun|]. split; [exact Hidx|]. split; [by vm_compute|].
  intros Hall. specialize (Hall _ Hrun 2). rewrite Hidx in Hall.
  assert (Hin : 2 ∈ [0; 1]).
  { apply Hall; [lia|by vm_compute]. }
  apply elem_of_cons in Hin as [?|Hin]; [lia|].
  apply elem_of_cons in Hin as [?|Hin]; [lia|]. by apply elem_of_nil in Hin.
Qed.

(** C9: for a [PREORDERED_LOG] tree [DequeueLeaves] is the ranged scan
    [GetLeavesByRange] from the current tree size for [limit] leaves; the
    cutoff time plays no part, and the transaction's memo of dequeued
    leaves is left as it was. *)
Theorem DequeueLeaves_preordered (t : logTreeTX) (limit : Z) (cutoffTime : Time) (s : sqlTx) :
  treeType t = PREORDERED_LOG →
  DequeueLeaves t limit cutoffTime s
    = (GetLeavesByRange t (int64 (TreeSize (root t))) (int64 limit) s, t).
Proof.
  intros Ht. unfold DequeueLeaves, GetLeavesByRange. by rewrite bool_decide_eq_true_2.
Qed.

(** ** Storing a signed log root *)

Section StoreRoot.

Variable UnmarshalBinary : bytes → result LogRootV1.

Lemma insert_row_Some {Row} (conflict : Row → Row → bool) (row : Row) (table : list Row) :
  Forall (λ r, conflict row r = false) table →
  insert_row conflict row table = Some (table ++ [row]).
Proof.
  intros H. unfold insert_row.
  destruct (existsb (conflict row) table) eqn:He; [|done].
  apply existsb_exists in He as (r & Hr & Hc).
  rewrite Forall_forall in H. apply list_elem_of_In in Hr. by rewrite (H r Hr) in Hc.
Qed.

Lemma insert_row_None {Row} (conflict : Row → Row → bool) (row : Row) (table : list Row) :
  Exists (λ r, conflict row r = true) table →
  insert_row conflict row table = None.
Proof.
  intros H. unfold insert_row.
  destruct (existsb (conflict row) table) eqn:He; [done|].
  apply Exists_exists in H as (r & Hr & Hc).
  assert (existsb (conflict row) table = true); [|congruence].
  apply existsb_exists. exists r. by rewrite <- list_elem_of_In.
Qed.

Lemma TreeHead_conflict_head_row (t : logTreeTX) (logRoot : LogRootV1) (h : TreeHeadRow) :
  TreeHead_conflict (head_row t logRoot) h = true
  ↔ th_TreeId h = treeID t ∧ th_TreeRevision h = writeRevision t.
Proof.
  unfold TreeHead_conflict, head_row. cbn.
  rewrite andb_true_iff, !bool_decide_eq_true. intuition congruence.
Qed.

(** C1, as the code has it: [StoreSignedLogRoot] succeeds exactly when the
    supplied root parses, carries no metadata and no head of the tree is
    stored at the transaction's write revision; it then appends the head
    (tree id, timestamp, tree size, root hash, write revision) and changes
    nothing else.  With a head already stored at the write revision,
    whatever its contents, the call fails with the duplicate-entry error
    and stores nothing.  The supplied root's tree size and timestamp are
    not compared with the current root, and its revision is not read. *)
Theorem StoreSignedLogRoot_accepts (t : logTreeTX) (root : SignedLogRoot) (s : sqlTx) :
  let free :=
    Forall (λ h, ¬ (th_TreeId h = treeID t ∧ th_TreeRevision h = writeRevision t))
      (TreeHead (db s)) in
  ((StoreSignedLogRoot UnmarshalBinary t root s).1 = None
   ↔ ∃ logRoot, UnmarshalBinary (LogRoot root) = Ok logRoot ∧ Metadata logRoot = [] ∧ free)
  ∧ (∀ logRoot, UnmarshalBinary (LogRoot root) = Ok logRoot → Metadata logRoot = [] →
     if bool_decide free then
       StoreSignedLogRoot UnmarshalBinary t root s
       = (None, {| db := set_TreeHead (λ _, TreeHead (db s) ++ [head_row t logRoot]) (db s);
                   savepoint := savepoint s;
                   executed := executed s
                     ++ [insertTreeHeadSQL (treeID t) (TimestampNanos logRoot) (TreeSize logRoot)
                           (RootHash logRoot) (writeRevision t) []] |})
     else
       StoreSignedLogRoot UnmarshalBinary t root s
       = (Some (driverErr (MySQLError ER_DUP_ENTRY)),
          {| db := db s; savepoint := savepoint s;
             executed := executed s
               ++ [insertTreeHeadSQL (treeID t) (TimestampNanos logRoot) (TreeSize logRoot)
                     (RootHash logRoot) (writeRevision t) []] |})).
Proof.
  cbn zeta.
  assert (Hrun : ∀ logRoot, UnmarshalBinary (LogRoot root) = Ok logRoot → Metadata logRoot = [] →
    if bool_decide (Forall (λ h, ¬ (th_TreeId h = treeID t ∧ th_TreeRevision h = writeRevision t))
                      (TreeHead (db s))) then
       StoreSignedLogRoot UnmarshalBinary t root s
       = (None, {| db := set_TreeHead (λ _, TreeHead (db s) ++ [head_row t logRoot]) (db s);
                   savepoint := savepoint s;
                   executed := executed s
                     ++ [insertTreeHeadSQL (treeID t) (TimestampNanos logRoot) (TreeSize logRoot)
                           (RootHash logRoot) (writeRevision t) []] |})
     else
       StoreSignedLogRoot UnmarshalBinary t root s
       = (Some (driverErr (MySQLError ER_DUP_ENTRY)),
          {| db := db s; savepoint := savepoint s;
             executed := executed s
               ++ [insertTreeHeadSQL (treeID t) (TimestampNanos logRoot) (TreeSize logRoot)
                     (RootHash logRoot) (writeRevision t) []] |})).
  { intros logRoot Hparse Hmeta. unfold StoreSignedLogRoot. rewrite Hparse, Hmeta.
    rewrite (bool_decide_eq_false_2 (len [] ≠ 0)) by (unfold len; cbn; lia).
    unfold ExecContext. cbn [run]. fold (head_row t logRoot).
    case_bool_decide as Hfree.
    - rewrite insert_row_Some; [done|].
      eapply Forall_impl; [exact Hfree|]. intros h Hh. cbn beta in Hh.
      rewrite <- (TreeHead_conflict_head_row t logRoot) in Hh. by destruct (TreeHead_conflict _ _).
    - rewrite insert_row_None; [done|].
      pose proof (not_Forall_Exists _ _ Hfree) as Hex.
      eapply Exists_impl; [exact Hex|]. intros h Hh. cbn in Hh.
      apply TreeHead_conflict_head_row. by apply dec_stable. }
  split; [|exact Hrun]. split.
  - intros Hok.
    destruct (UnmarshalBinary (LogRoot root)) as [logRoot|] eqn:Hparse.
    2:{ unfold StoreSignedLogRoot in Hok. by rewrite Hparse in Hok. }
    destruct (Metadata logRoot) as [|b m] eqn:Hmeta.
    2:{ unfold StoreSignedLogRoot in Hok. rewrite Hparse, Hmeta in Hok.
        rewrite bool_decide_eq_true_2 in Hok; [done|]. unfold len. cbn [length]. lia. }
    exists logRoot. split; [done|]. split; [done|].
    specialize (Hrun logRoot eq_refl Hmeta). case_bool_decide; [done|].
    by rewrite Hrun in Hok.
  - intros (logRoot & Hparse & Hmeta & Hfree). specialize (Hrun logRoot Hparse Hmeta).
    rewrite bool_decide_eq_true_2 in Hrun by done. by rewrite Hrun.
Qed.

End StoreRoot.

(** C1, as the spec states it, fails.  In a transaction whose current root
    has ten leaves and the timestamp 100, with write revision 4, a root of
    five leaves with the timestamp 50 and the revision 0 is stored without
    an error although it is not admissible; and storing the same root a
    second time is not a no-op but fails on the duplicate entry. *)
Lemma StoreSignedLogRoot_stores_stale_root :
  example_UnmarshalBinary (LogRoot stale_root) = Ok stale_logRoot
  ∧ (StoreSignedLogRoot example_UnmarshalBinary grown_log_tx stale_root grown_log_sql).1 = None
  ∧ ¬ root_admissible grown_log_tx stale_logRoot
  ∧ ¬ ((StoreSignedLogRoot example_UnmarshalBinary grown_log_tx stale_root grown_log_sql).1 = None
       ↔ root_admissible grown_log_tx stale_logRoot)
  ∧ (StoreSignedLogRoot example_UnmarshalBinary grown_log_tx stale_root
       (StoreSignedLogRoot example_UnmarshalBinary grown_log_tx stale_root grown_log_sql).2).1
    = Some (driverErr (MySQLError ER_DUP_ENTRY)).
Proof.
  assert (Hno : ¬ root_admissible grown_log_tx stale_logRoot).
  { intros (Hsize & _). cbn in Hsize. lia. }
  split; [reflexivity|]. split; [reflexivity|]. split; [exact Hno|].
  split; [|reflexivity]. intros [Hadm _]. apply Hno, Hadm. reflexivity.
Qed.

(** ** The quota manager *)

Lemma GetTokens_unconstrained (m : quota.QuotaManager) (numTokens : Z)
  (specs : list quota.Spec) (d : DB) (statistics : Z) :
  Forall (λ spec, ¬ is_GlobalWrite spec) specs →
  quota.GetTokens m numTokens specs d statistics = None.
Proof.
  induction 1 as [|spec specs Hspec _ IH]; [done|]. cbn.
  destruct (quota.spec_Group spec) eqn:Hg, (quota.spec_Kind spec) eqn:Hk; try done.
  by destruct Hspec.
Qed.

Lemma GetTokens_over (m : quota.QuotaManager) (numTokens : Z)
  (specs : list quota.Spec) (d : DB) (statistics : Z) :
  Exists is_GlobalWrite specs →
  quota.countUnsequenced m d statistics + numTokens > quota.MaxUnsequencedRows m →
  quota.GetTokens m numTokens specs d statistics = Some quota.ErrTooManyUnsequencedRows.
Proof.
  intros Hex Hover. induction Hex as [spec specs [Hg Hk]|spec specs _ IH]; cbn.
  - rewrite Hg, Hk. by rewrite bool_decide_eq_true_2.
  - destruct (quota.spec_Group spec), (quota.spec_Kind spec); try done.
    by rewrite bool_decide_eq_true_2.
Qed.

(** C8: with a Global-Write spec among the specs and
    [backlog + n > max_unsequenced_rows], [GetTokens] returns the
    too-many-unsequenced-rows error; with no Global-Write spec it succeeds
    whatever the backlog; [PutTokens] and [ResetQuota] return success and
    leave the database as it is. *)
Theorem GetTokens_quota (m : quota.QuotaManager) (numTokens : Z)
  (specs : list quota.Spec) (d : DB) (statistics : Z) :
  (Exists is_GlobalWrite specs →
   quota.countUnsequenced m d statistics + numTokens > quota.MaxUnsequencedRows m →
   quota.GetTokens m numTokens specs d statistics = Some quota.ErrTooManyUnsequencedRows)
  ∧ (Forall (λ spec, ¬ is_GlobalWrite spec) specs →
     quota.GetTokens m numTokens specs d statistics = None)
  ∧ quota.PutTokens m numTokens specs d = (None, d)
  ∧ quota.ResetQuota m specs d = (None, d).
Proof.
  split; [apply GetTokens_over|]. split; [apply GetTokens_unconstrained|done].
Qed.

(** The model of [GetTokens] passes the table of
    [TestQuotaManager_GetTokens], which runs with the accurate count. *)
Example TestQuotaManager_GetTokens :
  Forall
    (λ '(unsequencedRows, maxUnsequencedRows, numTokens, specs, wantErr),
       bool_decide
         (quota.GetTokens
            {| quota.MaxUnsequencedRows := maxUnsequencedRows; quota.UseSelectCount := true |}
            numTokens specs (backlog_DB unsequencedRows) 0
          = Some quota.ErrTooManyUnsequencedRows) = wantErr)
    TestQuotaManager_GetTokens_tests.
Proof. repeat constructor. Qed.

Lemma DequeueLeaves_preordered_witness :
  treeType preordered_tx = PREORDERED_LOG
  ∧ DequeueLeaves preordered_tx 10 12345 preordered_sql
    = (GetLeavesByRange preordered_tx (int64 (TreeSize (root preordered_tx))) (int64 10)
         preordered_sql, preordered_tx).
Proof.
  split; [reflexivity|]. apply (DequeueLeaves_preordered preordered_tx 10 12345 preordered_sql).
  reflexivity.
Defined.

(** The ranged scan of the example returns the one leaf at index 1. *)
Example DequeueLeaves_preordered_example :
  option_map (map LeafIndex)
    (err_of_ok (DequeueLeaves preordered_tx 10 12345 preordered_sql).1)
  = Some [1].
Proof. vm_compute. reflexivity. Qed.

(** ** Inserting leaves in sorted order *)

Lemma insert_row_cases {Row} (conflict : Row → Row → bool) (row : Row) (table : list Row) :
  (Exists (λ r, conflict row r = true) table ∧ insert_row conflict row table = None)
  ∨ (Forall (λ r, conflict row r = false) table
     ∧ insert_row conflict row table = Some (table ++ [row])).
Proof.
  destruct (existsb (conflict row) table) eqn:He.
  - left. assert (Exists (λ r, conflict row r = true) table) as Hex.
    { apply existsb_exists in He as (r & Hr & Hc). apply Exists_exists.
      exists r. by rewrite list_elem_of_In. }
    split; [done|]. by apply insert_row_None.
  - right. assert (Forall (λ r, conflict row r = false) table) as Hall.
    { apply Forall_forall. intros r Hr. apply list_elem_of_In in Hr.
      destruct (conflict row r) eqn:Hc; [|done].
      assert (existsb (conflict row) table = true); [|congruence].
      apply existsb_exists. eauto. }
    split; [done|]. by apply insert_row_Some.
Qed.

Lemma DB_eq (d d' : DB) :
  Trees d = Trees d' → TreeControl d = TreeControl d' → TreeHead d = TreeHead d' →
  LeafData d = LeafData d' → SequencedLeafData d = SequencedLeafData d' →
  Unsequenced d = Unsequenced d' → d = d'.
Proof. destruct d, d'. cbn. by intros -> -> -> -> -> ->. Qed.

Lemma add_sequenced_nil t nanos d : add_sequenced t nanos [] d = d.
Proof. apply DB_eq; cbn; by rewrite ?app_nil_r. Qed.

Lemma add_sequenced_cons t nanos l ls d :
  add_sequenced t nanos (l :: ls) d = add_sequenced t nanos ls (add_sequenced t nanos [l] d).
Proof. apply DB_eq; cbn; by rewrite <- ?app_assoc. Qed.

Lemma LeafData_conflict_key (a b : LeafDataRow) :
  LeafData_conflict a b = true ↔ LeafData_key a = LeafData_key b.
Proof.
  unfold LeafData_conflict, LeafData_key.
  rewrite andb_true_iff, !bool_decide_eq_true. split; [by intros [-> ->]|]. by intros [=].
Qed.

Lemma LeafData_conflict_in_tree (t : logTreeTX) (nanos : Z) (l : LogLeaf) (rows : list LeafDataRow) :
  Exists (λ r, LeafData_conflict (leafData_row t nanos l) r = true) rows
  ↔ (treeID t, LeafIdentityHash l) ∈ LeafData_key <$> rows.
Proof.
  rewrite Exists_exists, list_elem_of_fmap. split.
  - intros (r & Hr & Hc). apply LeafData_conflict_key in Hc. by exists r.
  - intros (r & Hk & Hr). exists r. split; [done|]. by apply LeafData_conflict_key.
Qed.

Section AddSequenced.

Variable t : logTreeTX.
Variable timestamp : Time.

Lemma slot_code_insert (res : list (option QueuedLogLeaf)) (i : nat) (st : spb_Status) :
  (i < length res)%nat →
  slot_code (<[i := Some {| Leaf := None; Status := Some st |}]> res) i = Some (status_Code st).
Proof. intros Hi. unfold slot_code. by rewrite list_lookup_insert_eq. Qed.

(** One iteration: the slot of the leaf is set to [OK] with both rows
    appended, or to [FAILED_PRECONDITION] with the tables as they were
    before the iteration. *)
Lemma AddSequencedLeaves_body_spec (ol : leafAndPosition) (s : sqlTx)
  (res : list (option QueuedLogLeaf)) :
  len (LeafIdentityHash (leaf ol)) = hashSizeBytes t →
  ∃ st s' tr,
    AddSequencedLeaves_body t timestamp ol s res
      = (Ok (<[idx ol := Some {| Leaf := None; Status := Some st |}]> res), s')
    ∧ savepoint s' = Some (db s)
    ∧ executed s'
      = executed s ++ SAVEPOINT
          :: insertLeafDataSQL (treeID t) (LeafIdentityHash (leaf ol)) (LeafValue (leaf ol))
               (ExtraData (leaf ol)) (UnixNano timestamp) :: tr
    ∧ leaf_inserts tr = []
    ∧ ((status_Code st = codes_OK
        ∧ db s' = add_sequenced t (UnixNano timestamp) [leaf ol] (db s)
        ∧ Forall (λ r, LeafData_conflict (leafData_row t (UnixNano timestamp) (leaf ol)) r = false)
            (LeafData (db s))
        ∧ Forall (λ r, SequencedLeafData_conflict (sequenced_row t (leaf ol)) r = false)
            (SequencedLeafData (db s)))
       ∨ (status_Code st = codes_FailedPrecondition
          ∧ db s' = db s
          ∧ (Exists (λ r, LeafData_conflict (leafData_row t (UnixNano timestamp) (leaf ol)) r = true)
               (LeafData (db s))
             ∨ Exists (λ r, SequencedLeafData_conflict (sequenced_row t (leaf ol)) r = true)
                 (SequencedLeafData (db s))))).
Proof.
  intros Hsz. unfold AddSequencedLeaves_body.
  rewrite bool_decide_eq_false_2 by (intros Hne; by apply Hne).
  unfold ExecContext. cbn [run db savepoint executed].
  fold (leafData_row t (UnixNano timestamp) (leaf ol)).
  destruct (insert_row_cases LeafData_conflict (leafData_row t (UnixNano timestamp) (leaf ol))
              (LeafData (db s))) as [[Hld ->]|[Hld ->]].
  { cbn [err_of isDuplicateErr]. rewrite bool_decide_eq_true_2 by done.
    rewrite list_insert_insert_eq. do 3 eexists. split; [done|].
    cbn. split; [done|]. rewrite <- app_assoc. split; [done|]. split; [done|].
    right. auto. }
  cbn [err_of isDuplicateErr db savepoint executed SequencedLeafData set_LeafData].
  fold (sequenced_row t (leaf ol)).
  destruct (insert_row_cases SequencedLeafData_conflict (sequenced_row t (leaf ol))
              (SequencedLeafData (db s))) as [[Hsl ->]|[Hsl ->]].
  { cbn [err_of isDuplicateErr]. rewrite bool_decide_eq_true_2 by done.
    cbn [run db savepoint executed].
    rewrite list_insert_insert_eq. do 3 eexists. split; [done|].
    cbn. split; [done|]. rewrite <- !app_assoc. split; [done|]. split; [done|].
    right. auto. }
  cbn [err_of isDuplicateErr]. do 3 eexists. split; [done|].
  cbn. split; [done|]. rewrite <- !app_assoc. split; [done|]. split; [done|].
  left. split; [done|]. split; [|done]. by apply DB_eq.
Qed.

Lemma accepted_cons (res : list (option QueuedLogLeaf)) (ol : leafAndPosition)
  (ords : list leafAndPosition) :
  accepted res (ol :: ords)
  = if decide (slot_code res (idx ol) = Some codes_OK)
    then ol :: accepted res ords else accepted res ords.
Proof. unfold accepted. by rewrite filter_cons. Qed.

Lemma leaf_inserts_app (tr1 tr2 : list Stmt) :
  leaf_inserts (tr1 ++ tr2) = leaf_inserts tr1 ++ leaf_inserts tr2.
Proof. unfold leaf_inserts. apply filter_app. Qed.

Lemma in_the_way_add_sequenced (ls : list LogLeaf) (d : DB) (l : LogLeaf) :
  in_the_way d t l → in_the_way (add_sequenced t (UnixNano timestamp) ls d) t l.
Proof.
  unfold in_the_way, add_sequenced, in_tree. cbn. intros [Hin|Hex].
  - left. rewrite fmap_app. apply elem_of_app. by left.
  - right. apply Exists_app. by left.
Qed.

Lemma in_the_way_conflict (d : DB) (l : LogLeaf) :
  in_the_way d t l
  ↔ Exists (λ r, LeafData_conflict (leafData_row t (UnixNano timestamp) l) r = true)
      (LeafData d)
    ∨ Exists (λ r, SequencedLeafData_conflict (sequenced_row t l) r = true)
        (SequencedLeafData d).
Proof. unfold in_the_way. by rewrite LeafData_conflict_in_tree. Qed.

Lemma in_the_way_add_sequenced_inv (ls : list LogLeaf) (d : DB) (l : LogLeaf) :
  in_the_way (add_sequenced t (UnixNano timestamp) ls d) t l →
  in_the_way d t l
  ∨ ∃ l', l' ∈ ls ∧ (LeafIdentityHash l' = LeafIdentityHash l ∨ LeafIndex l' = LeafIndex l).
Proof.
  unfold in_the_way, add_sequenced, in_tree. cbn. rewrite fmap_app, elem_of_app, Exists_app.
  intros [[Hin|Hin]|[Hex|Hex]]; [by left; left| |by left; right|].
  - right. apply list_elem_of_fmap in Hin as (r & Hk & Hr).
    apply list_elem_of_fmap in Hr as (l' & -> & Hl').
    exists l'. split; [done|]. left. by injection Hk.
  - right. apply Exists_exists in Hex as (r & Hr & Hc).
    apply list_elem_of_fmap in Hr as (l' & -> & Hl').
    exists l'. split; [done|]. unfold SequencedLeafData_conflict in Hc. cbn in Hc.
    apply andb_true_iff in Hc as [_ Hc]. apply orb_true_iff in Hc as [Hc|Hc];
      apply bool_decide_eq_true in Hc; auto.
Qed.

(** One iteration, by what is in the leaf's way. *)
Lemma AddSequencedLeaves_body_in_the_way (ol : leafAndPosition) (s : sqlTx)
  (res : list (option QueuedLogLeaf)) :
  len (LeafIdentityHash (leaf ol)) = hashSizeBytes t →
  ∃ st s',
    AddSequencedLeaves_body t timestamp ol s res
      = (Ok (<[idx ol := Some {| Leaf := None; Status := Some st |}]> res), s')
    ∧ savepoint s' = Some (db s)
    ∧ ((status_Code st = codes_OK
        ∧ db s' = add_sequenced t (UnixNano timestamp) [leaf ol] (db s)
        ∧ ¬ in_the_way (db s) t (leaf ol))
       ∨ (status_Code st = codes_FailedPrecondition
          ∧ db s' = db s
          ∧ in_the_way (db s) t (leaf ol))).
Proof.
  intros Hsz.
  destruct (AddSequencedLeaves_body_spec ol s res Hsz)
    as (st & s1 & tr & Hbody & Hsp & _ & _ & Hcase).
  exists st, s1. split; [done|]. split; [done|].
  destruct Hcase as [(Hst & Hdb & Hld & Hsl)|(Hst & Hdb & Hex)]; [left|right].
  - split; [done|]. split; [done|]. intros [Hex|Hex]%in_the_way_conflict.
    + apply Exists_exists in Hex as (r & Hr & Hc). rewrite Forall_forall in Hld.
      by rewrite (Hld r Hr) in Hc.
    + apply Exists_exists in Hex as (r & Hr & Hc). rewrite Forall_forall in Hsl.
      by rewrite (Hsl r Hr) in Hc.
  - split; [done|]. split; [done|]. by apply in_the_way_conflict.
Qed.

Lemma AddSequencedLeaves_loop_spec (ords : list leafAndPosition) (s : sqlTx)
  (res : list (option QueuedLogLeaf)) :
  Forall (λ ol, len (LeafIdentityHash (leaf ol)) = hashSizeBytes t) ords →
  NoDup (idx <$> ords) →
  Forall (λ ol, (idx ol < length res)%nat) ords →
  ∃ res' s' tr,
    AddSequencedLeaves_loop t timestamp ords s res = (Ok res', s')
    ∧ length res' = length res
    ∧ (∀ i, i ∉ idx <$> ords → res' !! i = res !! i)
    ∧ (is_Some (savepoint s) → is_Some (savepoint s'))
    ∧ db s' = add_sequenced t (UnixNano timestamp) (leaf <$> accepted res' ords) (db s)
    ∧ Forall (λ ol, ∃ st, res' !! idx ol = Some (Some {| Leaf := None; Status := Some st |})
                ∧ (status_Code st = codes_OK ∨ status_Code st = codes_FailedPrecondition)) ords
    ∧ Forall (λ ol, Exists (λ r, SequencedLeafData_conflict (sequenced_row t (leaf ol)) r = true)
                      (SequencedLeafData (db s))
                    → slot_code res' (idx ol) = Some codes_FailedPrecondition) ords
    ∧ executed s' = executed s ++ tr
    ∧ leaf_inserts tr
      = (λ ol, insertLeafDataSQL (treeID t) (LeafIdentityHash (leaf ol)) (LeafValue (leaf ol))
                 (ExtraData (leaf ol)) (UnixNano timestamp)) <$> ords.
Proof.
  revert s res. induction ords as [|ol ords IH]; intros s res Hsize Hnodup Hidx.
  { exists res, s, []. cbn. rewrite add_sequenced_nil, app_nil_r. by repeat (split; [done|]). }
  apply Forall_cons in Hsize as [Hsz Hsize]. apply Forall_cons in Hidx as [Hi Hidx].
  rewrite fmap_cons in Hnodup. apply NoDup_cons in Hnodup as [Hfresh Hnodup].
  destruct (AddSequencedLeaves_body_spec ol s res Hsz)
    as (st & s1 & tr1 & Hbody & Hsp & Hex & Htr1 & Hcase).
  cbn [AddSequencedLeaves_loop]. rewrite Hbody.
  destruct (IH s1 (<[idx ol := Some {| Leaf := None; Status := Some st |}]> res) Hsize Hnodup)
    as (res' & s' & tr & -> & Hlen & Hother & Hsp' & Hdb & Hset & Hconf & Hex' & Htr).
  { eapply Forall_impl; [exact Hidx|]. intros ol' ?. cbn beta. by rewrite length_insert. }
  rewrite length_insert in Hlen.
  assert (Hol : res' !! idx ol = Some (Some {| Leaf := None; Status := Some st |})).
  { rewrite Hother by done. by apply list_lookup_insert_eq. }
  assert (Hcode : slot_code res' (idx ol) = Some (status_Code st)).
  { unfold slot_code. by rewrite Hol. }
  exists res', s', (SAVEPOINT
    :: insertLeafDataSQL (treeID t) (LeafIdentityHash (leaf ol)) (LeafValue (leaf ol))
         (ExtraData (leaf ol)) (UnixNano timestamp) :: tr1 ++ tr).
  split; [done|]. split; [done|]. split.
  { intros i Hi'. rewrite fmap_cons in Hi'. apply not_elem_of_cons in Hi' as [Hne Hi'].
    rewrite Hother by done. by apply list_lookup_insert_ne. }
  split. { intros _. apply Hsp'. rewrite Hsp. eauto. }
  split.
  { rewrite accepted_cons, Hcode, Hdb. destruct Hcase as [(Hst & -> & _)|(Hst & -> & _)].
    - rewrite decide_True by congruence. rewrite fmap_cons.
      symmetry. apply add_sequenced_cons.
    - rewrite decide_False; [done|]. rewrite Hst. congruence. }
  split.
  { apply Forall_cons. split; [|done]. exists st. split; [done|]. destruct Hcase; tauto. }
  split.
  { apply Forall_cons. split.
    - intros Hexists. rewrite Hcode. destruct Hcase as [(_ & _ & _ & Hnone)|(-> & _)]; [|done].
      apply Exists_exists in Hexists as (r & Hr & Hc).
      rewrite Forall_forall in Hnone. by rewrite (Hnone r Hr) in Hc.
    - eapply Forall_impl; [exact Hconf|]. intros ol' Himp Hexists. apply Himp.
      destruct Hcase as [(_ & -> & _)|(_ & -> & _)]; [|done].
      cbn. apply Exists_app. by left. }
  split.
  { rewrite Hex', Hex. by rewrite <- app_assoc. }
  rewrite fmap_cons. change (SAVEPOINT :: ?a :: tr1 ++ tr) with ([SAVEPOINT; a] ++ tr1 ++ tr).
  rewrite !leaf_inserts_app, Htr1, Htr. done.
Qed.

(** The loop, leaf by leaf: a leaf is reported [OK] exactly when nothing
    is in its way in the tables as the leaves before it left them. *)
Lemma AddSequencedLeaves_loop_slots (ords : list leafAndPosition) (s : sqlTx)
  (res res' : list (option QueuedLogLeaf)) (s' : sqlTx) :
  Forall (λ ol, len (LeafIdentityHash (leaf ol)) = hashSizeBytes t) ords →
  NoDup (idx <$> ords) →
  Forall (λ ol, (idx ol < length res)%nat) ords →
  AddSequencedLeaves_loop t timestamp ords s res = (Ok res', s') →
  ∀ pre ol post, ords = pre ++ ol :: post →
    (slot_code res' (idx ol) = Some codes_OK
     ↔ ¬ in_the_way
           (add_sequenced t (UnixNano timestamp) (leaf <$> accepted res' pre) (db s)) t
           (leaf ol)).
Proof.
  revert s res. induction ords as [|ol0 ords IH]; intros s res Hsize Hnd Hrange Hrun pre ol post Heq.
  { by destruct pre. }
  apply Forall_cons in Hsize as [Hsz Hsize]. apply Forall_cons in Hrange as [Hr Hrange].
  rewrite fmap_cons in Hnd. apply NoDup_cons in Hnd as [Hni Hnd].
  cbn [AddSequencedLeaves_loop] in Hrun.
  destruct (AddSequencedLeaves_body_in_the_way ol0 s res Hsz) as (st & s1 & Hbody & _ & Hcase).
  rewrite Hbody in Hrun.
  assert (Hrange' : Forall (λ ol1, (idx ol1 < length
                       (<[idx ol0 := Some {| Leaf := None; Status := Some st |}]> res))%nat)
                      ords).
  { eapply Forall_impl; [exact Hrange|]. intros ? ?. by rewrite length_insert. }
  destruct (AddSequencedLeaves_loop_spec ords s1 _ Hsize Hnd Hrange')
    as (res2 & s2 & tr2 & Hrun2 & _ & Hother & _).
  pose proof Hrun as Hrun'. rewrite Hrun2 in Hrun'. injection Hrun' as -> ->.
  assert (Hcode : slot_code res' (idx ol0) = Some (status_Code st)).
  { unfold slot_code. rewrite (Hother _ Hni). by rewrite list_lookup_insert_eq. }
  destruct pre as [|p pre]; cbn in Heq; injection Heq as <- ->.
  - unfold accepted. cbn. rewrite add_sequenced_nil, Hcode.
    destruct Hcase as [(-> & _ & Hno)|(-> & _ & Hin)]; [done|].
    split; [done|]. by intros Hno.
  - rewrite (IH s1 _ Hsize Hnd Hrange' Hrun pre ol post eq_refl).
    rewrite accepted_cons, Hcode.
    destruct Hcase as [(-> & -> & _)|(-> & -> & _)].
    + rewrite decide_True by done.
      rewrite fmap_cons, (add_sequenced_cons _ _ (leaf ol0) (leaf <$> accepted res' pre)).
      reflexivity.
    + rewrite decide_False by done. reflexivity.
Qed.

End AddSequenced.

Section SortContract.

(** [sort.Sort] returns a permutation of its argument. *)
Variable sort_Sort : list leafAndPosition → list leafAndPosition.
Hypothesis sort_Sort_Permutation : ∀ l, sort_Sort l ≡ₚ l.

Lemma sortLeavesForInsert_Permutation (leaves : list LogLeaf) :
  sortLeavesForInsert sort_Sort leaves ≡ₚ imap (λ i l, {| leaf := l; idx := i |}) leaves.
Proof. apply sort_Sort_Permutation. Qed.

Lemma sortLeavesForInsert_elem_of (leaves : list LogLeaf) (ol : leafAndPosition) :
  ol ∈ sortLeavesForInsert sort_Sort leaves ↔ leaves !! idx ol = Some (leaf ol).
Proof.
  rewrite sortLeavesForInsert_Permutation, elem_of_lookup_imap. split.
  - by intros (i & l & -> & Hl).
  - intros Hl. exists (idx ol), (leaf ol). by destruct ol.
Qed.

Lemma sortLeavesForInsert_idx (leaves : list LogLeaf) :
  idx <$> sortLeavesForInsert sort_Sort leaves ≡ₚ seq 0 (length leaves).
Proof.
  rewrite sortLeavesForInsert_Permutation, fmap_imap.
  rewrite <- (list_fmap_id (seq 0 (length leaves))), <- (imap_seq_0 leaves id).
  by erewrite imap_ext.
Qed.

Lemma sortLeavesForInsert_NoDup (leaves : list LogLeaf) :
  NoDup (idx <$> sortLeavesForInsert sort_Sort leaves).
Proof. rewrite sortLeavesForInsert_idx. apply NoDup_seq. Qed.


Lemma sortLeavesForInsert_in_range (leaves : list LogLeaf) :
  Forall (λ ol, (idx ol < length leaves)%nat) (sortLeavesForInsert sort_Sort leaves).
Proof.
  apply Forall_forall. intros ol Hol. apply sortLeavesForInsert_elem_of in Hol.
  by apply lookup_lt_Some in Hol.
Qed.

(** C4: [AddSequencedLeaves] on a batch whose leaves have the hash size.
    A leaf has a row in its way when the leaf store holds its identity
    hash for the tree, or the sequence store holds its sequence number or
    its identity hash for the tree.  Each iteration sets a savepoint; when
    nothing is in the leaf's way it appends the leaf's row to both the leaf
    store and the sequence store and reports [OK], and otherwise it reports
    [FAILED_PRECONDITION] and leaves the tables as they were before the
    iteration (a leaf-data insert followed by a conflicting sequenced
    insert is rolled back); in both cases the loop goes on.  The call
    succeeds with one slot per leaf, each [OK] or [FAILED_PRECONDITION].
    In the order of the inserts, a leaf is reported [OK] exactly when
    nothing is in its way in the tables as they began plus the rows of the
    leaves reported [OK] before it.  So a leaf with a row in its way at the
    start is reported [FAILED_PRECONDITION]; a leaf with none, whose
    identity hash and index no other leaf of the batch shares, is reported
    [OK]; the rows of a leaf reported [OK] are in both stores at the end;
    and the tables end as they began plus, for exactly the leaves reported
    [OK], their two rows. *)
Theorem AddSequencedLeaves_atomic (t : logTreeTX) (leaves : list LogLeaf)
  (timestamp : Time) (s : sqlTx) :
  Forall (λ l, len (LeafIdentityHash l) = hashSizeBytes t) leaves →
  (∀ ol s0 res0, len (LeafIdentityHash (leaf ol)) = hashSizeBytes t →
     ∃ st s1,
       AddSequencedLeaves_body t timestamp ol s0 res0
         = (Ok (<[idx ol := Some {| Leaf := None; Status := Some st |}]> res0), s1)
       ∧ savepoint s1 = Some (db s0)
       ∧ ((status_Code st = codes_OK
           ∧ db s1 = add_sequenced t (UnixNano timestamp) [leaf ol] (db s0)
           ∧ ¬ in_the_way (db s0) t (leaf ol))
          ∨ (status_Code st = codes_FailedPrecondition ∧ db s1 = db s0
             ∧ in_the_way (db s0) t (leaf ol))))
  ∧ ∃ res s',
      AddSequencedLeaves sort_Sort t leaves timestamp s = (Ok res, s')
      ∧ length res = length leaves
      ∧ db s' = add_sequenced t (UnixNano timestamp)
                  (leaf <$> accepted res (sortLeavesForInsert sort_Sort leaves)) (db s)
      ∧ (∀ (i : nat) l, leaves !! i = Some l →
           ∃ st, res !! i = Some (Some {| Leaf := None; Status := Some st |})
             ∧ (status_Code st = codes_OK ∨ status_Code st = codes_FailedPrecondition))
      ∧ (∀ pre ol post, sortLeavesForInsert sort_Sort leaves = pre ++ ol :: post →
           (slot_code res (idx ol) = Some codes_OK
            ↔ ¬ in_the_way
                  (add_sequenced t (UnixNano timestamp) (leaf <$> accepted res pre) (db s)) t
                  (leaf ol)))
      ∧ (∀ (i : nat) l, leaves !! i = Some l →
           in_the_way (db s) t l →
           slot_code res i = Some codes_FailedPrecondition)
      ∧ (∀ (i : nat) l, leaves !! i = Some l →
           ¬ in_the_way (db s) t l →
           (∀ (j : nat) l', leaves !! j = Some l' → j ≠ i →
              LeafIdentityHash l' ≠ LeafIdentityHash l ∧ LeafIndex l' ≠ LeafIndex l) →
           slot_code res i = Some codes_OK)
      ∧ (∀ (i : nat) l, leaves !! i = Some l →
           slot_code res i = Some codes_OK →
           leafData_row t (UnixNano timestamp) l ∈ LeafData (db s')
           ∧ sequenced_row t l ∈ SequencedLeafData (db s')).
Proof.
  intros Hsize. split.
  { intros ol s0 res0 Hsz. apply AddSequencedLeaves_body_in_the_way, Hsz. }
  unfold AddSequencedLeaves, ExecContext at 1. cbn [run db savepoint executed].
  set (s1 := {| db := db s; savepoint := Some (db s); executed := executed s ++ [SAVEPOINT] |}).
  set (ords := sortLeavesForInsert sort_Sort leaves).
  assert (Hords : ∀ ol, ol ∈ ords ↔ leaves !! idx ol = Some (leaf ol)).
  { intros ol. apply sortLeavesForInsert_elem_of. }
  assert (Hsizes : Forall (λ ol, len (LeafIdentityHash (leaf ol)) = hashSizeBytes t) ords).
  { apply Forall_forall. intros ol Hol. apply Hords in Hol.
    rewrite Forall_forall in Hsize. apply Hsize. by eapply list_elem_of_lookup_2. }
  assert (Hnd : NoDup (idx <$> ords)) by apply sortLeavesForInsert_NoDup.
  assert (Hrange : Forall (λ ol, (idx ol < length (replicate (length leaves) (@None QueuedLogLeaf)))%nat)
                     ords).
  { rewrite length_replicate. apply sortLeavesForInsert_in_range. }
  destruct (AddSequencedLeaves_loop_spec t timestamp ords s1
              (replicate (length leaves) None) Hsizes Hnd Hrange)
    as (res & s2 & tr & Hloop & Hlen & _ & Hsp & Hdb & Hset & _).
  pose proof (AddSequencedLeaves_loop_slots t timestamp ords s1 _ res s2 Hsizes Hnd Hrange Hloop)
    as Hslots.
  rewrite Hloop. rewrite length_replicate in Hlen.
  destruct Hsp as [d0 Hd0]; [by eexists|].
  unfold ExecContext. cbn [run]. rewrite Hd0.
  exists res. eexists. split; [done|]. split; [done|]. cbn [db].
  split; [exact Hdb|]. rewrite Forall_forall in Hset.
  assert (Hcodes : ∀ (i : nat) l, leaves !! i = Some l →
            slot_code res i = Some codes_OK ∨ slot_code res i = Some codes_FailedPrecondition).
  { intros i l Hl. destruct (Hset {| leaf := l; idx := i |}) as (st & Hst & Hcode).
    { by apply Hords. }
    unfold slot_code. cbn in Hst. rewrite Hst. destruct Hcode as [->| ->]; auto. }
  assert (Hsplit : ∀ (i : nat) l, leaves !! i = Some l →
            ∃ pre post, ords = pre ++ {| leaf := l; idx := i |} :: post).
  { intros i l Hl. apply list_elem_of_split, Hords. done. }
  split; [|split; [|split; [|split]]].
  - intros i l Hl. apply (Hset {| leaf := l; idx := i |}). by apply Hords.
  - exact Hslots.
  - intros i l Hl Hway. destruct (Hcodes i l Hl) as [Hok|Hfail]; [|done].
    destruct (Hsplit i l Hl) as (pre & post & Heq).
    apply (Hslots pre _ post Heq) in Hok. exfalso. apply Hok.
    by apply in_the_way_add_sequenced.
  - intros i l Hl Hfree Hother.
    destruct (Hsplit i l Hl) as (pre & post & Heq).
    apply (Hslots pre {| leaf := l; idx := i |} post Heq).
    intros [Hway|(l' & Hl' & Hsame)]%in_the_way_add_sequenced_inv; [done|].
    apply list_elem_of_fmap in Hl' as (ol' & -> & Hol').
    apply list_elem_of_filter in Hol' as [_ Hol'].
    assert (Hin : ol' ∈ ords). { rewrite Heq. apply elem_of_app. by left. }
    apply Hords in Hin.
    assert (Hne : idx ol' ≠ i).
    { intros Hi. rewrite Heq, fmap_app in Hnd. apply NoDup_app in Hnd as (_ & Hdis & _).
      apply (Hdis i); [rewrite <- Hi; by apply list_elem_of_fmap_2|]. cbn. left. }
    destruct (Hother _ _ Hin Hne) as [Hh Hi]. destruct Hsame; done.
  - intros i l Hl Hok. rewrite Hdb.
    assert (Hacc : l ∈ leaf <$> accepted res ords).
    { apply list_elem_of_fmap. exists {| leaf := l; idx := i |}. split; [done|].
      apply list_elem_of_filter. split; [done|]. by apply Hords. }
    unfold add_sequenced. cbn. split; apply elem_of_app; right; by apply list_elem_of_fmap_2.
Qed.

End SortContract.

Lemma insert_sorted_Permutation (x : leafAndPosition) (l : list leafAndPosition) :
  insert_sorted x l ≡ₚ x :: l.
Proof.
  induction l as [|y l IH]; [done|]. cbn. destruct (Less x y); [done|].
  rewrite IH. apply Permutation_swap.
Qed.

Lemma example_sort_Permutation (l : list leafAndPosition) : example_sort l ≡ₚ l.
Proof.
  unfold example_sort. change l with ([] ++ l) at 2. generalize (@nil leafAndPosition).
  induction l as [|x l IH]; intros acc; cbn; [by rewrite app_nil_r|].
  rewrite IH, insert_sorted_Permutation. cbn. apply Permutation_middle.
Qed.

Lemma AddSequencedLeaves_atomic_witness :
  Forall (λ l, len (LeafIdentityHash l) = hashSizeBytes s5_tx) s5_batch
  ∧ ∃ res s',
      AddSequencedLeaves example_sort s5_tx s5_batch 2000 s5_sql = (Ok res, s')
      ∧ length res = length s5_batch
      ∧ db s' = add_sequenced s5_tx (UnixNano 2000)
                  (leaf <$> accepted res (sortLeavesForInsert example_sort s5_batch)) (db s5_sql).
Proof.
  assert (Hsize : Forall (λ l, len (LeafIdentityHash l) = hashSizeBytes s5_tx) s5_batch)
    by (repeat constructor).
  split; [exact Hsize|].
  destruct (AddSequencedLeaves_atomic example_sort example_sort_Permutation
              s5_tx s5_batch 2000 s5_sql Hsize) as (_ & res & s' & Hrun & Hlen & Hdb & _).
  by exists res, s'.
Defined.

(** Scenario S5 of the spec: with the indices 0, 1 and 2 sequenced, a batch
    with the indices 3 and 2 has index 3 accepted and index 2 reported
    [FAILED_PRECONDITION]; the sequence store gains the one row of index 3
    and the leaf store the one row of its leaf. *)
Example AddSequencedLeaves_S5 :
  let '(r, s') := AddSequencedLeaves example_sort s5_tx s5_batch 2000 s5_sql in
  option_map (λ res, slot_code res <$> [0%nat; 1%nat]) (err_of_ok r)
    = Some [Some codes_OK; Some codes_FailedPrecondition]
  ∧ sl_SequenceNumber <$> SequencedLeafData (db s') = [0; 1; 2; 3]
  ∧ ld_LeafValue <$> LeafData (db s') = [[Byte.x0a]; [Byte.x0b]; [Byte.x0c]; [Byte.x0e]].
Proof. vm_compute. done. Qed.

(** ** Queueing leaves *)

Lemma Timestamp_AsTime_New (ts : Time) : Timestamp_AsTime (timestamppb_New ts) = ts.
Proof.
  unfold Timestamp_AsTime, timestamppb_New. cbn.
  pose proof (Z.div_mod ts 1000000000). lia.
Qed.

Lemma add_queued_nil t nanos d : add_queued t nanos [] d = d.
Proof. apply DB_eq; cbn; by rewrite ?app_nil_r. Qed.

Lemma add_queued_cons t nanos l ls d :
  add_queued t nanos (l :: ls) d = add_queued t nanos ls (add_queued t nanos [l] d).
Proof. apply DB_eq; cbn; by rewrite <- ?app_assoc. Qed.

Section QueueLoop.

Variable t : logTreeTX.
Variable queueTimestamp : Time.
Hypothesis queueTimestamp_valid :
  Timestamp_CheckValid (Some (timestamppb_New queueTimestamp)) = None.

(** One iteration: a leaf whose identity hash is stored for the tree is
    remembered as existing and nothing is written; any other leaf gets its
    leaf-store row and its queue entry. *)
Lemma QueueLeaves_body_spec (ol : leafAndPosition) (s : sqlTx)
  (existingLeaves : list (option LogLeaf)) (existingCount : Z) :
  stamped queueTimestamp ol →
  Forall (λ u, in_tree (db s) (us_TreeId u) (us_LeafIdentityHash u)) (Unsequenced (db s)) →
  let insert := insertLeafDataSQL (treeID t) (LeafIdentityHash (leaf ol)) (LeafValue (leaf ol))
                  (ExtraData (leaf ol)) (UnixNano queueTimestamp) in
  (in_tree (db s) (treeID t) (LeafIdentityHash (leaf ol))
   ∧ QueueLeaves_body t ol s existingLeaves existingCount
     = (Ok (<[idx ol := Some (leaf ol)]> existingLeaves, existingCount + 1),
        {| db := db s; savepoint := savepoint s; executed := executed s ++ [insert] |}))
  ∨ (¬ in_tree (db s) (treeID t) (LeafIdentityHash (leaf ol))
     ∧ QueueLeaves_body t ol s existingLeaves existingCount
       = (Ok (existingLeaves, existingCount),
          {| db := add_queued t (UnixNano queueTimestamp) [leaf ol] (db s);
             savepoint := savepoint s;
             executed := executed s
               ++ [insert;
                   insertUnsequencedEntrySQL (treeID t) (LeafIdentityHash (leaf ol))
                     (MerkleLeafHash (leaf ol)) (UnixNano queueTimestamp)] |})).
Proof.
  intros Hst Hq. unfold QueueLeaves_body. cbv zeta. unfold stamped in Hst.
  rewrite Hst, queueTimestamp_valid.
  cbn [from_option id]. rewrite Timestamp_AsTime_New.
  unfold ExecContext. cbn [run db savepoint executed].
  fold (leafData_row t (UnixNano queueTimestamp) (leaf ol)).
  destruct (insert_row_cases LeafData_conflict (leafData_row t (UnixNano queueTimestamp) (leaf ol))
              (LeafData (db s))) as [[Hld ->]|[Hld ->]].
  { left. apply LeafData_conflict_in_tree in Hld. split; [done|].
    cbn [err_of isDuplicateErr]. by rewrite bool_decide_eq_true_2. }
  right.
  assert (Hnot : ¬ in_tree (db s) (treeID t) (LeafIdentityHash (leaf ol))).
  { unfold in_tree. rewrite <- (LeafData_conflict_in_tree t (UnixNano queueTimestamp)).
    intros Hex. apply Exists_exists in Hex as (r & Hr & Hc).
    rewrite Forall_forall in Hld. by rewrite (Hld r Hr) in Hc. }
  split; [done|].
  cbn [err_of isDuplicateErr db savepoint executed Unsequenced set_LeafData].
  fold (unsequenced_row t (UnixNano queueTimestamp) (leaf ol)).
  rewrite insert_row_Some.
  2:{ eapply Forall_impl; [exact Hq|]. intros u Hu. cbn beta in Hu.
      unfold Unsequenced_conflict. cbn.
      destruct (bool_decide (treeID t = us_TreeId u)) eqn:Ht; [|done].
      destruct (bool_decide (0 = us_Bucket u)); [|done].
      destruct (bool_decide (UnixNano queueTimestamp = us_QueueTimestampNanos u)); [|done].
      cbn. apply bool_decide_eq_false. intros Hh. apply Hnot.
      apply bool_decide_eq_true in Ht. by rewrite Ht, Hh. }
  do 2 f_equal. by rewrite <- app_assoc.
Qed.

Lemma in_tree_add_queued (ls : list LogLeaf) (d : DB) (nanos treeID' : Z) (h : bytes) :
  in_tree (add_queued t nanos ls d) treeID' h
  ↔ in_tree d treeID' h ∨ (treeID' = treeID t ∧ h ∈ LeafIdentityHash <$> ls).
Proof.
  unfold in_tree. cbn. rewrite fmap_app, elem_of_app, !list_elem_of_fmap.
  split.
  - intros [?|(r & Hk & Hr)]; [by left|right].
    apply list_elem_of_fmap in Hr as (l & -> & Hl). injection Hk as -> ->.
    split; [done|]. by exists l.
  - intros [?|(-> & l & -> & Hl)]; [by left|right].
    exists (leafData_row t nanos l). split; [done|]. apply list_elem_of_fmap. by exists l.
Qed.

Lemma queued_entries_cons (ex : list (option LogLeaf)) (ol : leafAndPosition)
  (ords : list leafAndPosition) :
  queued_entries ex (ol :: ords)
  = if decide (ex !! idx ol = Some None)
    then ol :: queued_entries ex ords else queued_entries ex ords.
Proof. unfold queued_entries. by rewrite filter_cons. Qed.

Lemma QueueLeaves_insert_spec (ords : list leafAndPosition) (s : sqlTx)
  (ex : list (option LogLeaf)) (cnt : Z) :
  Forall (stamped queueTimestamp) ords →
  NoDup (idx <$> ords) →
  Forall (λ ol, ex !! idx ol = Some None) ords →
  NoDup (LeafData_key <$> LeafData (db s)) →
  Forall (λ u, in_tree (db s) (us_TreeId u) (us_LeafIdentityHash u)) (Unsequenced (db s)) →
  ∃ ex' cnt' s' tr,
    QueueLeaves_insert t ords s ex cnt = (Ok (ex', cnt'), s')
    ∧ length ex' = length ex
    ∧ (∀ i, i ∉ idx <$> ords → ex' !! i = ex !! i)
    ∧ cnt ≤ cnt' ∧ (cnt' = cnt → ex' = ex)
    ∧ db s' = add_queued t (UnixNano queueTimestamp) (leaf <$> queued_entries ex' ords) (db s)
    ∧ NoDup (LeafData_key <$> LeafData (db s'))
    ∧ Forall (λ u, in_tree (db s') (us_TreeId u) (us_LeafIdentityHash u)) (Unsequenced (db s'))
    ∧ Forall (λ ol,
        (ex' !! idx ol = Some None
         ∧ ¬ in_tree (db s) (treeID t) (LeafIdentityHash (leaf ol)))
        ∨ (ex' !! idx ol = Some (Some (leaf ol))
           ∧ in_tree (db s') (treeID t) (LeafIdentityHash (leaf ol))
           ∧ (in_tree (db s) (treeID t) (LeafIdentityHash (leaf ol))
              ∨ ∃ ol', ol' ∈ ords ∧ idx ol' ≠ idx ol
                  ∧ LeafIdentityHash (leaf ol') = LeafIdentityHash (leaf ol)))) ords
    ∧ savepoint s' = savepoint s
    ∧ executed s' = executed s ++ tr
    ∧ leaf_inserts tr
      = (λ ol, insertLeafDataSQL (treeID t) (LeafIdentityHash (leaf ol)) (LeafValue (leaf ol))
                 (ExtraData (leaf ol)) (UnixNano queueTimestamp)) <$> ords.
Proof.
  revert s ex cnt. induction ords as [|ol ords IH]; intros s ex cnt Hst Hnodup Hnone Hkeys Hq.
  { exists ex, cnt, s, []. cbn. rewrite add_queued_nil, app_nil_r.
    split; [done|]. split; [done|]. split; [done|]. split; [lia|]. by repeat (split; [done|]). }
  apply Forall_cons in Hst as [Hst1 Hst]. apply Forall_cons in Hnone as [Hn1 Hnone].
  rewrite fmap_cons in Hnodup. apply NoDup_cons in Hnodup as [Hfresh Hnodup].
  assert (Hother : ∀ ol', ol' ∈ ords → idx ol' ≠ idx ol).
  { intros ol' Hol' Heq. apply Hfresh. rewrite <- Heq. by apply list_elem_of_fmap_2. }
  cbn [QueueLeaves_insert].
  destruct (QueueLeaves_body_spec ol s ex cnt Hst1 Hq) as [[Hin ->]|[Hnot ->]].
  - (* the leaf exists *)
    destruct (IH {| db := db s; savepoint := savepoint s;
                    executed := executed s ++
                      [insertLeafDataSQL (treeID t) (LeafIdentityHash (leaf ol))
                         (LeafValue (leaf ol)) (ExtraData (leaf ol)) (UnixNano queueTimestamp)] |}
                (<[idx ol := Some (leaf ol)]> ex) (cnt + 1) Hst Hnodup)
      as (ex' & cnt' & s' & tr & -> & Hlen & Hout & Hle & _ & Hdb & Hkeys' & Hq' & Hall
          & Hsp & Hex & Htr); [|done|done|].
    { rewrite Forall_forall in Hnone |- *. intros ol' Hol'.
      rewrite list_lookup_insert_ne by (apply not_eq_sym; auto). auto. }
    cbn [db savepoint executed] in *.
    assert (Hol : ex' !! idx ol = Some (Some (leaf ol))).
    { rewrite Hout by done. apply list_lookup_insert_eq. by eapply lookup_lt_Some. }
    exists ex', cnt', s'. eexists. split; [done|].
    rewrite length_insert in Hlen. split; [done|]. split.
    { intros i Hi. rewrite fmap_cons in Hi. apply not_elem_of_cons in Hi as [Hne Hi].
      rewrite Hout by done. by apply list_lookup_insert_ne. }
    split; [lia|]. split; [lia|]. split.
    { rewrite queued_entries_cons, decide_False; [done|]. by rewrite Hol. }
    split; [done|]. split; [done|]. split.
    { apply Forall_cons. split.
      { right. split; [done|]. split; [|by left]. rewrite Hdb. apply in_tree_add_queued. by left. }
      eapply Forall_impl; [exact Hall|].
      intros ol' [?|(? & ? & [?|(ol'' & ? & ?)])]; [by left|right..].
      - auto.
      - split; [done|]. split; [done|]. right. exists ol''.
        split; [by apply list_elem_of_further|done]. }
    split; [done|]. split.
    { rewrite Hex, <- app_assoc. done. }
    rewrite fmap_cons, leaf_inserts_app, Htr. done.
  - (* the leaf is new *)
    set (s1 := {| db := add_queued t (UnixNano queueTimestamp) [leaf ol] (db s);
                  savepoint := savepoint s; executed := _ |}).
    destruct (IH s1 ex cnt Hst Hnodup Hnone)
      as (ex' & cnt' & s' & tr & -> & Hlen & Hout & Hle & Hsame & Hdb & Hkeys' & Hq' & Hall
          & Hsp & Hex & Htr).
    { cbn. rewrite fmap_app. apply NoDup_app. split; [done|]. split; [|apply NoDup_singleton].
      intros k Hk Hk'. apply list_elem_of_singleton in Hk'. subst k. by apply Hnot. }
    { cbn [s1 db]. apply Forall_forall. intros u Hu. apply in_tree_add_queued.
      cbn in Hu. apply elem_of_app in Hu as [Hu|Hu].
      - left. rewrite Forall_forall in Hq. by apply Hq.
      - apply list_elem_of_singleton in Hu. subst u. right. cbn. split; [done|].
        apply list_elem_of_singleton. done. }
    cbn [s1 db savepoint executed] in *.
    assert (Hol : ex' !! idx ol = Some None) by (by rewrite Hout).
    exists ex', cnt', s'. eexists. split; [done|]. split; [done|]. split.
    { intros i Hi. rewrite fmap_cons in Hi. apply not_elem_of_cons in Hi as [Hne Hi]. auto. }
    split; [done|]. split; [done|]. split.
    { rewrite queued_entries_cons, decide_True by done.
      rewrite fmap_cons, Hdb. symmetry. apply add_queued_cons. }
    split; [done|]. split; [done|]. split.
    { apply Forall_cons. split; [by left|].
      rewrite Forall_forall in Hall |- *. intros ol' Hol'.
      destruct (Hall ol' Hol') as [[? Hn]|(? & ? & Hd)]; [left|right].
      - split; [done|]. intros Hin. apply Hn, in_tree_add_queued. by left.
      - split; [done|]. split; [done|]. destruct Hd as [Hin|(ol'' & ? & ? & ?)].
        + apply in_tree_add_queued in Hin as [?|[_ Hin]]; [by left|right].
          apply list_elem_of_singleton in Hin. exists ol.
          split; [apply list_elem_of_here|]. split; [apply not_eq_sym; auto|done].
        + right. exists ol''. split; [by apply list_elem_of_further|done]. }
    split; [done|]. split.
    { rewrite Hex, <- app_assoc. done. }
    rewrite fmap_cons. change [?a; ?b] with ([a] ++ [b]).
    rewrite !leaf_inserts_app, Htr. done.
Qed.

End QueueLoop.

(** *** Retrieving the existing leaves *)

Lemma QueueLeaves_collate_spec (ex : list (option LogLeaf)) (U : gset bytes)
  (acc : list bytes) :
  (∀ h, h ∈ U ↔ h ∈ acc) → NoDup acc →
  NoDup (QueueLeaves_collate ex U acc)
  ∧ ∀ h, h ∈ QueueLeaves_collate ex U acc
         ↔ h ∈ acc ∨ ∃ l, Some l ∈ ex ∧ LeafIdentityHash l = h.
Proof.
  revert U acc. induction ex as [|[existing|] ex IH]; intros U acc HU Hacc; cbn.
  - split; [done|]. intros h. split; [by left|]. intros [?|(l & Hl & _)]; [done|].
    by apply elem_of_nil in Hl.
  - case_bool_decide as Hin.
    + destruct (IH U acc HU Hacc) as [Hnd Hel]. split; [done|]. intros h. rewrite Hel.
      split; [intros [?|(l & Hl & ?)]; [by left|right; exists l; by split; [right|]]|].
      intros [?|(l & Hl & <-)]; [by left|].
      apply elem_of_cons in Hl as [ [= <-] | Hl ]; [left; by apply HU|right; eauto].
    + destruct (IH ({[LeafIdentityHash existing]} ∪ U) (acc ++ [LeafIdentityHash existing]))
        as [Hnd Hel].
      { intros h. rewrite elem_of_union, elem_of_singleton, elem_of_app, list_elem_of_singleton.
        rewrite HU. tauto. }
      { apply NoDup_app. split; [done|]. split; [|apply NoDup_singleton].
        intros h Hh Hh'. apply list_elem_of_singleton in Hh'. subst h. by apply Hin, HU. }
      split; [done|]. intros h. rewrite Hel, elem_of_app, list_elem_of_singleton.
      split.
      * intros [[Hh| ->]|(l & Hl & ?)]; [by left|right..].
        -- exists existing. by split; [left|].
        -- exists l. by split; [right|].
      * intros [?|(l & Hl & <-)]; [by left; left|].
        apply elem_of_cons in Hl as [ [= <-] | Hl ]; [left; by right|right; eauto].
  - destruct (IH U acc HU Hacc) as [Hnd Hel]. split; [done|]. intros h. rewrite Hel.
    split; [intros [?|(l & Hl & ?)]; [by left|right; exists l; by split; [right|]]|].
    intros [?|(l & Hl & <-)]; [by left|].
    apply elem_of_cons in Hl as [ [=] | Hl ]. right; eauto.
Qed.

Lemma QueueLeaves_stamp_spec (t : logTreeTX) (leaves : list LogLeaf) (queueTimestamp : Time) :
  Timestamp_CheckValid (Some (timestamppb_New queueTimestamp)) = None →
  Forall (λ l, len (LeafIdentityHash l) = hashSizeBytes t) leaves →
  QueueLeaves_stamp t leaves queueTimestamp = Ok (stamp queueTimestamp <$> leaves).
Proof.
  intros Hvalid. induction 1 as [|l leaves Hl _ IH]; [done|].
  cbn [QueueLeaves_stamp]. rewrite bool_decide_eq_false_2 by (intros Hne; by apply Hne).
  cbn [QueueTimestamp set_QueueTimestamp]. by rewrite Hvalid, IH.
Qed.

Lemma QueueLeaves_replace_spec (results : list LogLeaf) (ex : list (option LogLeaf)) :
  (∀ req, Some req ∈ ex → ∃ r, r ∈ results ∧ LeafIdentityHash r = LeafIdentityHash req) →
  ∃ fin, QueueLeaves_replace results ex = Ok fin
    ∧ length fin = length ex
    ∧ ∀ (i : nat),
        (ex !! i = Some None → fin !! i = Some None)
        ∧ (∀ req, ex !! i = Some (Some req) →
             ∃ r, fin !! i = Some (Some r) ∧ r ∈ results
               ∧ LeafIdentityHash r = LeafIdentityHash req).
Proof.
  induction ex as [|[requested|] ex IH]; intros Hfound; cbn [QueueLeaves_replace].
  - exists []. split; [done|]. split; [done|]. intros i. by rewrite lookup_nil.
  - destruct IH as (fin & -> & Hlen & Hfin).
    { intros req Hreq. apply Hfound. by right. }
    destruct (find _ results) as [result|] eqn:Hfind.
    + apply find_some in Hfind as [Hin Heq]. apply list_elem_of_In in Hin.
      unfold bytes_Equal in Heq. apply bool_decide_eq_true in Heq.
      exists (Some result :: fin). split; [done|]. split; [by rewrite !length_cons, Hlen|].
      intros [|i]; cbn; [|apply Hfin]. split; [done|]. intros req [= <-]. eauto.
    + destruct (Hfound requested) as (r & Hr & Hh); [by left|].
      apply list_elem_of_In in Hr.
      pose proof (find_none _ _ Hfind r Hr) as Hno. cbv beta in Hno.
      unfold bytes_Equal in Hno. by rewrite bool_decide_eq_true_2 in Hno.
  - destruct IH as (fin & -> & Hlen & Hfin).
    { intros req Hreq. apply Hfound. by right. }
    exists (None :: fin). split; [done|]. split; [by rewrite !length_cons, Hlen|].
    intros [|i]; cbn; [|apply Hfin]. split; [done|]. by intros req [=].
Qed.

Lemma NoDup_fmap_same_key {A K} (f : A → K) (k : K) (l : list A) :
  NoDup (f <$> l) → Forall (λ x, f x = k) l → (length l ≤ 1)%nat.
Proof.
  destruct l as [|a [|b l]]; cbn; [lia|lia|].
  intros Hnd Hall. exfalso.
  apply NoDup_cons in Hnd as [Hna _]. apply Hna.
  apply Forall_cons in Hall as [-> Hall]. apply Forall_cons in Hall as [<- _]. by left.
Qed.

Lemma NoDup_fmap_filter {A K} (f : A → K) (P : A → Prop) `{∀ x, Decision (P x)} (l : list A) :
  NoDup (f <$> l) → NoDup (f <$> filter P l).
Proof.
  intros Hnd. eapply sublist_NoDup; [exact Hnd|].
  apply fmap_sublist, sublist_filter.
Qed.

Lemma NoDup_fmap_eq {A K} (f : A → K) (l : list A) (x y : A) :
  NoDup (f <$> l) → x ∈ l → y ∈ l → f x = f y → x = y.
Proof.
  induction l as [|a l IH]; intros Hnd Hx Hy Hxy; [by apply elem_of_nil in Hx|].
  rewrite fmap_cons in Hnd. apply NoDup_cons in Hnd as [Ha Hnd].
  apply elem_of_cons in Hx as [->|Hx]; apply elem_of_cons in Hy as [->|Hy]; [done|..].
  - exfalso. apply Ha. rewrite Hxy. by apply list_elem_of_fmap_2.
  - exfalso. apply Ha. rewrite <- Hxy. by apply list_elem_of_fmap_2.
  - by apply IH.
Qed.

Lemma sequenced_join_unique (d : DB) (row : LeafDataRow) :
  NoDup (Sequenced_key <$> SequencedLeafData d) →
  (length (filter (λ q, ld_LeafIdentityHash row = sl_LeafIdentityHash q
                        ∧ ld_TreeId row = sl_TreeId q) (SequencedLeafData d)) ≤ 1)%nat.
Proof.
  intros Hnd. apply (NoDup_fmap_same_key Sequenced_key (ld_TreeId row, ld_LeafIdentityHash row)).
  - by apply NoDup_fmap_filter.
  - apply Forall_forall. intros q Hq. apply list_elem_of_filter in Hq as [[-> ->] _]. done.
Qed.

Lemma getLeafDataByIdentityHash_spec (t : logTreeTX) (hashes : list bytes) (s : sqlTx) :
  hashSizeBytes t = 32 →
  NoDup (Sequenced_key <$> SequencedLeafData (db s)) →
  getLeafDataByIdentityHash t hashes s
  = Ok (stored_leaf (db s)
          <$> filter (λ l, ld_LeafIdentityHash l ∈ hashes ∧ ld_TreeId l = treeID t)
                (LeafData (db s))).
Proof.
  intros Hsize Hnd. unfold getLeafDataByIdentityHash, selectLeavesByLeafIdentityHashSQL.
  match goal with |- getLeavesByHash_scan t (flat_map ?g ?rs) = _ =>
    set (G := g); generalize rs end.
  intros rows. induction rows as [|row rows IH]; [done|].
  cbn [flat_map]. pose proof (sequenced_join_unique (db s) row Hnd) as Hle.
  rewrite fmap_cons. unfold stored_leaf at 1. unfold G at 1.
  destruct (filter _ (SequencedLeafData (db s))) as [|q [|q' qs]]; cbn in Hle; [| |lia].
  - cbn [app getLeavesByHash_scan row_QueueTimestampNanos row_IntegrateTimestampNanos
         QueueTimestamp MerkleLeafHash row_MerkleLeafHash].
    rewrite Timestamp_CheckValid_int64, Hsize.
    rewrite bool_decide_eq_false_2 by (intros Hne; by apply Hne).
    rewrite IH.
    cbn [row_LeafValue row_ExtraData row_SequenceNumber row_LeafIdentityHash
         row_QueueTimestampNanos].
    by rewrite (int64_id (-1)) by lia.
  - cbn [map app getLeavesByHash_scan row_QueueTimestampNanos row_IntegrateTimestampNanos
         QueueTimestamp IntegrateTimestamp MerkleLeafHash row_MerkleLeafHash
         set_IntegrateTimestamp].
    rewrite !Timestamp_CheckValid_int64, Hsize.
    rewrite bool_decide_eq_false_2 by (intros Hne; by apply Hne).
    rewrite IH.
    cbn [row_LeafValue row_ExtraData row_SequenceNumber row_LeafIdentityHash
         row_QueueTimestampNanos].
    by rewrite (int64_id (-1)) by lia.
Qed.

Lemma retrieve_Permutation (d : DB) (treeID : Z) (hashes : list bytes) :
  NoDup hashes →
  NoDup (LeafData_key <$> LeafData d) →
  (∀ h, h ∈ hashes → in_tree d treeID h) →
  ld_LeafIdentityHash
    <$> filter (λ l, ld_LeafIdentityHash l ∈ hashes ∧ ld_TreeId l = treeID) (LeafData d)
  ≡ₚ hashes.
Proof.
  intros Hnd Hkeys Hin. apply NoDup_Permutation; [|done|].
  - apply NoDup_fmap_2_strong; [|by eapply NoDup_filter, NoDup_fmap_1].
    intros a b Ha Hb Hab. apply list_elem_of_filter in Ha as [[_ Hta] Ha].
    apply list_elem_of_filter in Hb as [[_ Htb] Hb].
    apply (NoDup_fmap_eq LeafData_key (LeafData d)); [done..|].
    unfold LeafData_key. congruence.
  - intros h. rewrite list_elem_of_fmap. split.
    + intros (l & -> & Hl). by apply list_elem_of_filter in Hl as [[? _] _].
    + intros Hh. apply Hin in Hh as Ht. unfold in_tree in Ht.
      apply list_elem_of_fmap in Ht as (l & Hk & Hl). injection Hk as Hk1 Hk2.
      exists l. split; [done|]. apply list_elem_of_filter. split; [|done].
      split; [by rewrite <- Hk2|done].
Qed.

Lemma list_filter_iff_elem {A} (P1 P2 : A → Prop)
  `{!∀ x, Decision (P1 x), !∀ x, Decision (P2 x)} (l : list A) :
  (∀ x, x ∈ l → P1 x ↔ P2 x) → filter P1 l = filter P2 l.
Proof.
  induction l as [|a l IH]; intros Hiff; [done|].
  rewrite !filter_cons. rewrite IH by (intros x Hx; apply Hiff; by right).
  destruct (decide (P1 a)) as [H1|H1], (decide (P2 a)) as [H2|H2]; try done.
  - by apply Hiff in H1; [|left].
  - by apply Hiff in H2; [|left].
Qed.

Section QueueContract.

(** [sort.Sort] returns a permutation of its argument. *)
Variable sort_Sort : list leafAndPosition → list leafAndPosition.
Hypothesis sort_Sort_Permutation : ∀ l, sort_Sort l ≡ₚ l.

Variable t : logTreeTX.
Variable queueTimestamp : Time.
Hypothesis hashSizeBytes_32 : hashSizeBytes t = 32.
Hypothesis queueTimestamp_valid :
  Timestamp_CheckValid (Some (timestamppb_New queueTimestamp)) = None.

Lemma QueueLeaves_spec (leaves : list LogLeaf) (s : sqlTx) :
  Forall (λ l, len (LeafIdentityHash l) = hashSizeBytes t) leaves →
  db_wf (db s) →
  ∃ fin s' tr,
    QueueLeaves sort_Sort t leaves queueTimestamp s
      = (Ok (fin, stamp queueTimestamp <$> leaves), s')
    ∧ length fin = length leaves
    ∧ db_wf (db s')
    ∧ db s' = add_queued t (UnixNano queueTimestamp)
                (leaf <$> queued_entries fin
                            (sortLeavesForInsert sort_Sort (stamp queueTimestamp <$> leaves)))
                (db s)
    ∧ (∀ (i : nat) l, leaves !! i = Some l →
         (fin !! i = Some None ∧ ¬ in_tree (db s) (treeID t) (LeafIdentityHash l))
         ∨ (∃ row, fin !! i = Some (Some (stored_leaf (db s') row))
              ∧ row ∈ LeafData (db s')
              ∧ LeafData_key row = (treeID t, LeafIdentityHash l)
              ∧ (in_tree (db s) (treeID t) (LeafIdentityHash l)
                 ∨ ∃ (j : nat) l', j ≠ i ∧ leaves !! j = Some l'
                     ∧ LeafIdentityHash l' = LeafIdentityHash l)))
    ∧ savepoint s' = savepoint s
    ∧ executed s' = executed s ++ tr
    ∧ leaf_inserts tr
      = (λ ol, insertLeafDataSQL (treeID t) (LeafIdentityHash (leaf ol)) (LeafValue (leaf ol))
                 (ExtraData (leaf ol)) (UnixNano queueTimestamp))
          <$> sortLeavesForInsert sort_Sort (stamp queueTimestamp <$> leaves).
Proof.
  intros Hsize [Hkeys Hseq Hq]. unfold QueueLeaves.
  rewrite (QueueLeaves_stamp_spec t leaves queueTimestamp queueTimestamp_valid Hsize).
  set (leaves' := stamp queueTimestamp <$> leaves).
  set (ords := sortLeavesForInsert sort_Sort leaves').
  assert (Hords : ∀ ol, ol ∈ ords ↔ leaves' !! idx ol = Some (leaf ol)).
  { intros ol. by apply sortLeavesForInsert_elem_of. }
  assert (Hlen' : length leaves' = length leaves) by apply length_fmap.
  destruct (QueueLeaves_insert_spec t queueTimestamp queueTimestamp_valid ords s
              (replicate (length leaves') None) 0)
    as (ex' & cnt' & s' & tr & -> & Hlen & Hout & Hle & Hsame & Hdb & Hkeys' & Hq' & Hall
        & Hsp & Hex & Htr); [..|done|done|].
  { apply Forall_forall. intros ol Hol. apply Hords in Hol.
    unfold leaves' in Hol. rewrite list_lookup_fmap in Hol.
    unfold stamped. destruct (leaves !! idx ol) as [l|]; [|done]. by injection Hol as <-. }
  { by apply sortLeavesForInsert_NoDup. }
  { apply Forall_forall. intros ol Hol. apply Hords in Hol.
    apply lookup_replicate_2. by eapply lookup_lt_Some. }
  rewrite length_replicate in Hlen. rewrite Forall_forall in Hall.
  assert (Hseq' : NoDup (Sequenced_key <$> SequencedLeafData (db s'))) by (by rewrite Hdb).
  (* what the slice of existing leaves is replaced by *)
  assert (Hfin : ∃ fin,
    (if bool_decide (cnt' = 0) then (Ok (ex', leaves'), s')
     else
       match getLeafDataByIdentityHash t (QueueLeaves_collate ex' ∅ []) s' with
       | Err _ => (Err (fmt_Errorf "failed to retrieve existing leaves"), s')
       | Ok results =>
           if bool_decide (len results ≠ len (QueueLeaves_collate ex' ∅ []))
           then (Err (fmt_Errorf "failed to retrieve all existing leaves"), s')
           else match QueueLeaves_replace results ex' with
                | Err e => (Err e, s')
                | Ok existingLeaves => (Ok (existingLeaves, leaves'), s')
                end
       end) = (Ok (fin, leaves'), s')
    ∧ length fin = length ex'
    ∧ ∀ (i : nat),
        (ex' !! i = Some None → fin !! i = Some None)
        ∧ (∀ req, ex' !! i = Some (Some req) →
             ∃ row, fin !! i = Some (Some (stored_leaf (db s') row))
               ∧ row ∈ LeafData (db s')
               ∧ LeafData_key row = (treeID t, LeafIdentityHash req))).
  { case_bool_decide as Hcnt.
    { exists ex'. split; [done|]. split; [done|]. intros i. split; [done|].
      intros req Hreq. rewrite Hsame in Hreq by lia.
      apply lookup_replicate in Hreq as [[=] _]. }
    destruct (QueueLeaves_collate_spec ex' ∅ []) as [Hnd Hel]; [|apply NoDup_nil_2|].
    { intros h. rewrite elem_of_empty, elem_of_nil. tauto. }
    assert (Hin : ∀ req, Some req ∈ ex' → in_tree (db s') (treeID t) (LeafIdentityHash req)).
    { intros req Hreq. apply list_elem_of_lookup in Hreq as [i Hi].
      destruct (decide (i ∈ idx <$> ords)) as [Hio|Hio].
      - apply list_elem_of_fmap in Hio as (ol & -> & Hol).
        destruct (Hall ol Hol) as [[Hn _]|(Hs & Htree & _)]; [congruence|].
        rewrite Hi in Hs. injection Hs as ->. done.
      - rewrite Hout in Hi by done. apply lookup_replicate in Hi as [[=] _]. }
    assert (Hret : ∀ h, h ∈ QueueLeaves_collate ex' ∅ [] → in_tree (db s') (treeID t) h).
    { intros h Hh. apply Hel in Hh as [Hh|(l & Hl & <-)]; [by apply elem_of_nil in Hh|auto]. }
    rewrite (getLeafDataByIdentityHash_spec t _ s' hashSizeBytes_32 Hseq').
    pose proof (retrieve_Permutation (db s') (treeID t) _ Hnd Hkeys' Hret) as Hperm.
    rewrite bool_decide_eq_false_2.
    2:{ intros Hne. apply Hne. unfold len. f_equal.
        rewrite length_fmap. rewrite <- (Permutation_length Hperm). by rewrite length_fmap. }
    destruct (QueueLeaves_replace_spec
                (stored_leaf (db s') <$> filter (λ l, ld_LeafIdentityHash l ∈ QueueLeaves_collate ex' ∅ []
                                                      ∧ ld_TreeId l = treeID t) (LeafData (db s')))
                ex') as (fin & -> & Hflen & Hfin).
    { intros req Hreq.
      assert (LeafIdentityHash req ∈ QueueLeaves_collate ex' ∅ []) as Hh.
      { apply Hel. right. eauto. }
      rewrite <- Hperm in Hh. apply list_elem_of_fmap in Hh as (row & Hrow & Hin').
      exists (stored_leaf (db s') row). split; [by apply list_elem_of_fmap_2|done]. }
    exists fin. split; [done|]. split; [done|]. intros i. split; [apply Hfin|].
    intros req Hreq. destruct (Hfin i) as [_ Hsome].
    destruct (Hsome req Hreq) as (r & Hr & Hrin & Hrh).
    apply list_elem_of_fmap in Hrin as (row & -> & Hrow).
    apply list_elem_of_filter in Hrow as [[_ Htree] Hrow].
    exists row. split; [done|]. split; [done|]. unfold LeafData_key. cbn in Hrh. by rewrite Htree, Hrh. }
  destruct Hfin as (fin & -> & Hflen & Hfin).
  exists fin, s', tr. split; [done|]. split; [lia|]. split; [by split|]. split.
  { rewrite Hdb. do 2 f_equal. unfold queued_entries. apply list_filter_iff_elem.
    intros ol Hol. destruct (Hall ol Hol) as [[Hn _]|(Hs & _)].
    - pose proof (proj1 (Hfin (idx ol)) Hn). by split.
    - destruct (proj2 (Hfin (idx ol)) _ Hs) as (row & Hr & _). rewrite Hs, Hr. by split. }
  split; [|done].
  intros i l Hl.
  assert (Hol : {| leaf := stamp queueTimestamp l; idx := i |} ∈ ords).
  { apply Hords. cbn. unfold leaves'. by rewrite list_lookup_fmap, Hl. }
  destruct (Hall _ Hol) as [[Hn Hnot]|(Hs & _ & Hwhy)]; cbn in *.
  - left. split; [by apply Hfin|done].
  - right. destruct (proj2 (Hfin i) _ Hs) as (row & Hr & Hrow & Hkey).
    exists row. split; [done|]. split; [done|]. split; [done|].
    destruct Hwhy as [?|(ol' & Hol' & Hne & Hh)]; [by left|right].
    apply Hords in Hol'. unfold leaves' in Hol'. rewrite list_lookup_fmap in Hol'.
    destruct (leaves !! idx ol') as [l'|] eqn:Hl'; [|done]. injection Hol' as Hol'.
    exists (idx ol'), l'. split; [done|]. split; [done|]. by rewrite <- Hol' in Hh.
Qed.

Lemma stored_leaf_same_sequenced (d d' : DB) (row : LeafDataRow) :
  SequencedLeafData d' = SequencedLeafData d → stored_leaf d' row = stored_leaf d row.
Proof. intros Heq. unfold stored_leaf. by rewrite Heq. Qed.

(** C2: [QueueLeaves] on a batch whose leaves have the hash size, in a
    transaction with the 32-byte hash size, over tables that satisfy the
    schema's unique keys.  A unique-key violation of a leaf insert is not a
    failure: the call succeeds with one result per input position.  A
    position whose identity hash was stored for the tree before the call
    receives the stored row, annotated [ALREADY_EXISTS]; a position whose
    hash was not stored and is not repeated in the batch receives the
    caller's (stamped) leaf with no status; and every position receives
    one or the other, a repeat of a new hash being answered with the row
    now stored for it.  The stored row of a hash is unique.  A position
    answered with the caller's leaf and no status holds a leaf whose hash
    was not stored before, and the call has added that leaf's row to the
    leaf store and its entry to the queue; no two such positions hold the
    same identity hash, and every hash of the batch that was not stored
    before is answered so at one position: a repeated new hash is queued
    once.  The rows the call adds are those of exactly these positions.
    The list of hashes looked up holds every hash of an existing leaf
    once. *)
Theorem QueueLeaves_results (leaves : list LogLeaf) (s : sqlTx) :
  Forall (λ l, len (LeafIdentityHash l) = hashSizeBytes t) leaves →
  db_wf (db s) →
  (∀ existingLeaves,
     NoDup (QueueLeaves_collate existingLeaves ∅ [])
     ∧ ∀ h, h ∈ QueueLeaves_collate existingLeaves ∅ []
            ↔ ∃ l, Some l ∈ existingLeaves ∧ LeafIdentityHash l = h)
  ∧ ∃ ret s',
    mySQLLogStorage_QueueLeaves sort_Sort (Ok t) leaves queueTimestamp s = (Ok ret, s')
    ∧ length ret = length leaves
    ∧ db_wf (db s')
    ∧ (∀ (i : nat) l, leaves !! i = Some l →
         in_tree (db s) (treeID t) (LeafIdentityHash l) →
         ∃ row, row ∈ LeafData (db s)
           ∧ LeafData_key row = (treeID t, LeafIdentityHash l)
           ∧ ret !! i = Some {| Leaf := Some (stored_leaf (db s) row);
                                Status := Some AlreadyExists |})
    ∧ (∀ (i : nat) l, leaves !! i = Some l →
         ¬ in_tree (db s) (treeID t) (LeafIdentityHash l) →
         (∀ (j : nat) l', leaves !! j = Some l' →
            LeafIdentityHash l' = LeafIdentityHash l → j = i) →
         ret !! i = Some {| Leaf := Some (stamp queueTimestamp l); Status := None |})
    ∧ (∀ (i : nat) l, leaves !! i = Some l →
         ret !! i = Some {| Leaf := Some (stamp queueTimestamp l); Status := None |}
         ∨ ∃ row, row ∈ LeafData (db s')
             ∧ LeafData_key row = (treeID t, LeafIdentityHash l)
             ∧ ret !! i = Some {| Leaf := Some (stored_leaf (db s') row);
                                  Status := Some AlreadyExists |})
    ∧ (∀ (i : nat) l', ret !! i = Some {| Leaf := Some l'; Status := None |} →
         (∃ l, leaves !! i = Some l ∧ l' = stamp queueTimestamp l)
         ∧ ¬ in_tree (db s) (treeID t) (LeafIdentityHash l')
         ∧ leafData_row t (UnixNano queueTimestamp) l' ∈ LeafData (db s')
         ∧ unsequenced_row t (UnixNano queueTimestamp) l' ∈ Unsequenced (db s'))
    ∧ (∀ (i j : nat) l l',
         ret !! i = Some {| Leaf := Some l; Status := None |} →
         ret !! j = Some {| Leaf := Some l'; Status := None |} →
         LeafIdentityHash l = LeafIdentityHash l' → i = j)
    ∧ (∀ (i : nat) l, leaves !! i = Some l →
         ¬ in_tree (db s) (treeID t) (LeafIdentityHash l) →
         ∃ (j : nat) l', leaves !! j = Some l'
           ∧ LeafIdentityHash l' = LeafIdentityHash l
           ∧ ret !! j = Some {| Leaf := Some (stamp queueTimestamp l'); Status := None |})
    ∧ (∃ queued, db s' = add_queued t (UnixNano queueTimestamp) queued (db s)
         ∧ ∀ l', l' ∈ queued ↔
             ∃ (i : nat), ret !! i = Some {| Leaf := Some l'; Status := None |}).
Proof.
  intros Hsize Hwf. split.
  { intros ex. destruct (QueueLeaves_collate_spec ex ∅ []) as [Hnd Hel]; [|apply NoDup_nil_2|].
    { intros h. rewrite elem_of_empty, elem_of_nil. tauto. }
    split; [done|]. intros h. rewrite Hel, elem_of_nil. tauto. }
  destruct (QueueLeaves_spec leaves s Hsize Hwf)
    as (fin & s' & tr & Hrun & Hlen & Hwf' & Hdb & Hpos & _).
  unfold mySQLLogStorage_QueueLeaves, Commit. rewrite Hrun.
  eexists; exists s'. split; [done|].
  split. { rewrite length_zip_with, length_fmap. lia. }
  split; [done|].
  assert (Hret : ∀ (i : nat) l, leaves !! i = Some l →
    (fin !! i = Some None
     ∧ zip_with
         (λ e leaf, match e with
                    | Some e => {| Leaf := Some e;
                                   Status := Some {| status_Code := codes_AlreadyExists;
                                                     status_Message := "leaf already exists" |} |}
                    | None => {| Leaf := Some leaf; Status := None |}
                    end) fin (stamp queueTimestamp <$> leaves) !! i
       = Some {| Leaf := Some (stamp queueTimestamp l); Status := None |})
    ∨ (∃ e, fin !! i = Some (Some e)
       ∧ zip_with
         (λ e leaf, match e with
                    | Some e => {| Leaf := Some e;
                                   Status := Some {| status_Code := codes_AlreadyExists;
                                                     status_Message := "leaf already exists" |} |}
                    | None => {| Leaf := Some leaf; Status := None |}
                    end) fin (stamp queueTimestamp <$> leaves) !! i
         = Some {| Leaf := Some e; Status := Some AlreadyExists |})).
  { intros i l Hl. rewrite lookup_zip_with, list_lookup_fmap, Hl.
    destruct (Hpos i l Hl) as [[-> _]|(row & -> & _)]; [by left|right; eauto]. }
  assert (Hseq : SequencedLeafData (db s') = SequencedLeafData (db s)) by (by rewrite Hdb).
  set (ords := sortLeavesForInsert sort_Sort (stamp queueTimestamp <$> leaves)) in *.
  assert (Hords : ∀ ol, ol ∈ ords
            ↔ ∃ l, leaves !! idx ol = Some l ∧ leaf ol = stamp queueTimestamp l).
  { intros ol. unfold ords.
    rewrite (sortLeavesForInsert_elem_of sort_Sort sort_Sort_Permutation).
    rewrite list_lookup_fmap. destruct (leaves !! idx ol) as [l|]; cbn.
    - split; [intros [= <-]; by exists l|]. by intros (l0 & [= <-] & ->).
    - split; [done|]. by intros (l0 & [=] & _). }
  assert (Hinv : ∀ (i : nat) l',
            zip_with
              (λ e leaf, match e with
                         | Some e => {| Leaf := Some e;
                                        Status := Some {| status_Code := codes_AlreadyExists;
                                                          status_Message := "leaf already exists" |} |}
                         | None => {| Leaf := Some leaf; Status := None |}
                         end) fin (stamp queueTimestamp <$> leaves) !! i
            = Some {| Leaf := Some l'; Status := None |} →
            ∃ l, leaves !! i = Some l ∧ l' = stamp queueTimestamp l ∧ fin !! i = Some None).
  { intros i l' Hi. rewrite lookup_zip_with, list_lookup_fmap in Hi.
    destruct (fin !! i) as [[e|]|]; [| |done]; cbn in Hi;
      destruct (leaves !! i) as [l|]; cbn in Hi; try done.
    injection Hi as <-. by exists l. }
  assert (Hqueued : ∀ ol, ol ∈ queued_entries fin ords →
            leafData_row t (UnixNano queueTimestamp) (leaf ol) ∈ LeafData (db s')
            ∧ unsequenced_row t (UnixNano queueTimestamp) (leaf ol) ∈ Unsequenced (db s')).
  { intros ol Hol. rewrite Hdb. unfold add_queued. cbn.
    split; apply elem_of_app; right; apply list_elem_of_fmap_2; by apply list_elem_of_fmap_2. }
  assert (Hnd : NoDup ((λ ol, LeafData_key (leafData_row t (UnixNano queueTimestamp) (leaf ol)))
                         <$> queued_entries fin ords)).
  { pose proof (wf_LeafData _ Hwf') as Hk. rewrite Hdb in Hk. cbn in Hk.
    rewrite fmap_app in Hk. apply NoDup_app in Hk as (_ & _ & Hk).
    by rewrite <- !list_fmap_compose in Hk. }
  split; [|split; [|split; [|split; [|split; [|split]]]]].
  - intros i l Hl Hin.
    destruct (Hpos i l Hl) as [[_ Hnot]|(row & Hfin & Hrow & Hkey & _)]; [done|].
    unfold in_tree in Hin. apply list_elem_of_fmap in Hin as (row0 & Hkey0 & Hrow0).
    assert (row0 = row) as ->.
    { apply (NoDup_fmap_eq LeafData_key (LeafData (db s'))); [apply Hwf'| |done|congruence].
      rewrite Hdb. cbn. apply elem_of_app. by left. }
    exists row. split; [done|]. split; [done|].
    destruct (Hret i l Hl) as [[Hn _]|(e & He & ->)]; [congruence|].
    rewrite Hfin in He. injection He as <-. by rewrite (stored_leaf_same_sequenced (db s)).
  - intros i l Hl Hnot Huniq.
    destruct (Hpos i l Hl) as [[Hn _]|(row & _ & _ & _ & [Hin|(j & l' & Hne & Hl' & Hh)])].
    + destruct (Hret i l Hl) as [[_ ->]|(e & He & _)]; [done|congruence].
    + done.
    + exfalso. apply Hne. by eapply Huniq.
  - intros i l Hl.
    destruct (Hpos i l Hl) as [[Hn _]|(row & Hfin & Hrow & Hkey & _)].
    + left. destruct (Hret i l Hl) as [[_ ->]|(e & He & _)]; [done|congruence].
    + right. exists row. split; [done|]. split; [done|].
      destruct (Hret i l Hl) as [[Hn _]|(e & He & ->)]; [congruence|].
      rewrite Hfin in He. by injection He as <-.
  - intros i l' Hi. destruct (Hinv i l' Hi) as (l & Hl & -> & Hnone).
    split; [by exists l|].
    assert (Hol : {| leaf := stamp queueTimestamp l; idx := i |} ∈ queued_entries fin ords).
    { apply list_elem_of_filter. split; [done|]. apply Hords. by exists l. }
    split; [|exact (Hqueued _ Hol)].
    destruct (Hpos i l Hl) as [[_ Hnot]|(row & Hfin & _)]; [done|congruence].
  - intros i j l l' Hi Hj Hh.
    destruct (Hinv i l Hi) as (l0 & Hl0 & -> & Hni).
    destruct (Hinv j l' Hj) as (l1 & Hl1 & -> & Hnj).
    assert (Heq : {| leaf := stamp queueTimestamp l0; idx := i |}
                  = {| leaf := stamp queueTimestamp l1; idx := j |}).
    { eapply (NoDup_fmap_eq _ (queued_entries fin ords)); [exact Hnd|..].
      - apply list_elem_of_filter. split; [done|]. apply Hords. by exists l0.
      - apply list_elem_of_filter. split; [done|]. apply Hords. by exists l1.
      - unfold LeafData_key. cbn. cbn in Hh. by rewrite Hh. }
    by injection Heq.
  - intros i l Hl Hnot.
    destruct (Hpos i l Hl) as [[Hn _]|(row & _ & Hrow & Hkey & _)].
    { exists i, l. split; [done|]. split; [done|].
      destruct (Hret i l Hl) as [[_ ->]|(e & He & _)]; [done|congruence]. }
    rewrite Hdb in Hrow. cbn in Hrow. apply elem_of_app in Hrow as [Hrow|Hrow].
    { exfalso. apply Hnot. unfold in_tree. rewrite <- Hkey. by apply list_elem_of_fmap_2. }
    apply list_elem_of_fmap in Hrow as (l' & -> & Hl').
    apply list_elem_of_fmap in Hl' as (ol & -> & Hol).
    apply list_elem_of_filter in Hol as [Hnone Hol].
    apply Hords in Hol as (l0 & Hl0 & Hleaf).
    exists (idx ol), l0. split; [done|].
    injection Hkey as Hkey. rewrite Hleaf in Hkey. cbn in Hkey. split; [done|].
    destruct (Hret _ _ Hl0) as [[_ ->]|(e & He & _)]; [done|congruence].
  - eexists. split; [exact Hdb|]. intros l'. split.
    + intros Hl'. apply list_elem_of_fmap in Hl' as (ol & -> & Hol).
      apply list_elem_of_filter in Hol as [Hnone Hol].
      apply Hords in Hol as (l & Hl & Hleaf).
      exists (idx ol). destruct (Hret _ _ Hl) as [[_ ->]|(e & He & _)]; [|congruence].
      by rewrite Hleaf.
    + intros (i & Hi). destruct (Hinv i l' Hi) as (l & Hl & -> & Hnone).
      apply list_elem_of_fmap. exists {| leaf := stamp queueTimestamp l; idx := i |}.
      split; [done|]. apply list_elem_of_filter. split; [done|]. apply Hords. by exists l.
Qed.

End QueueContract.

Lemma queue_sql_wf : db_wf (db queue_sql).
Proof.
  split.
  - apply (bool_decide_unpack _). by vm_compute.
  - apply NoDup_nil_2.
  - repeat constructor.
Qed.

Lemma QueueLeaves_results_witness :
  Forall (λ l, len (LeafIdentityHash l) = hashSizeBytes queue_tx) queue_batch
  ∧ db_wf (db queue_sql)
  ∧ ∃ ret s',
      mySQLLogStorage_QueueLeaves example_sort (Ok queue_tx) queue_batch 1000 queue_sql
        = (Ok ret, s')
      ∧ length ret = length queue_batch.
Proof.
  assert (Hsize : Forall (λ l, len (LeafIdentityHash l) = hashSizeBytes queue_tx) queue_batch)
    by (repeat constructor).
  split; [exact Hsize|]. split; [exact queue_sql_wf|].
  destruct (QueueLeaves_results example_sort example_sort_Permutation queue_tx 1000
              eq_refl eq_refl queue_batch queue_sql Hsize queue_sql_wf)
    as (_ & ret & s' & Hrun & Hlen & _).
  by exists ret, s'.
Defined.

(** The batch of the example: the stored hash is answered with the stored
    value [01], the first occurrence of the new hash is queued, and its
    repeat is answered with the row the first occurrence stored (value
    [02], not the repeat's [04]). *)
Example QueueLeaves_S2 :
  option_map
    (map (λ q, (option_map LeafValue (Leaf q), option_map status_Code (Status q))))
    (err_of_ok (mySQLLogStorage_QueueLeaves example_sort (Ok queue_tx) queue_batch 1000
                  queue_sql).1)
  = Some [ (Some [Byte.x02], None);
           (Some [Byte.x01], Some codes_AlreadyExists);
           (Some [Byte.x02], Some codes_AlreadyExists) ].
Proof. vm_compute. reflexivity. Qed.

(** ** The order of the inserts *)

Lemma bytes_Compare_range (a b : bytes) :
  bytes_Compare a b = -1 ∨ bytes_Compare a b = 0 ∨ bytes_Compare a b = 1.
Proof.
  revert b. induction a as [|x a IH]; intros [|y b]; cbn; auto.
  destruct (_ <? _)%N; auto. destruct (_ <? _)%N; auto.
Qed.

Lemma bytes_Compare_antisym (a b : bytes) : bytes_Compare b a = - bytes_Compare a b.
Proof.
  revert b. induction a as [|x a IH]; intros [|y b]; cbn; try done.
  destruct (N.ltb_spec (Byte.to_N x) (Byte.to_N y)), (N.ltb_spec (Byte.to_N y) (Byte.to_N x));
    try done; lia.
Qed.

Lemma bytes_Compare_lt_trans (a b c : bytes) :
  bytes_Compare a b = -1 → bytes_Compare b c = -1 → bytes_Compare a c = -1.
Proof.
  revert b c. induction a as [|x a IH]; intros [|y b] [|z c]; cbn; try done.
  destruct (N.ltb_spec (Byte.to_N x) (Byte.to_N y)), (N.ltb_spec (Byte.to_N y) (Byte.to_N x)),
    (N.ltb_spec (Byte.to_N y) (Byte.to_N z)), (N.ltb_spec (Byte.to_N z) (Byte.to_N y)),
    (N.ltb_spec (Byte.to_N x) (Byte.to_N z)), (N.ltb_spec (Byte.to_N z) (Byte.to_N x));
    try done; try lia. apply IH.
Qed.


Lemma Less_asym (a b : leafAndPosition) : Less a b = true → Less b a = false.
Proof.
  unfold Less. rewrite bool_decide_eq_true, bool_decide_eq_false.
  rewrite (bytes_Compare_antisym (LeafIdentityHash (leaf a))). lia.
Qed.

Lemma Less_trans (a b c : leafAndPosition) :
  Less a b = true → Less b c = true → Less a c = true.
Proof. unfold Less. rewrite !bool_decide_eq_true. apply bytes_Compare_lt_trans. Qed.



Section InsertOrder.

Variable t : logTreeTX.





Lemma AddSequencedLeaves_loop_Ok (timestamp : Time) (ords : list leafAndPosition)
  (s : sqlTx) (res : list (option QueuedLogLeaf)) res' s' :
  AddSequencedLeaves_loop t timestamp ords s res = (Ok res', s') →
  Forall (λ ol, len (LeafIdentityHash (leaf ol)) = hashSizeBytes t) ords.
Proof.
  revert s res. induction ords as [|ol ords IH]; intros s res; [done|].
  cbn [AddSequencedLeaves_loop].
  destruct (AddSequencedLeaves_body t timestamp ol s res) as [[res1|e] s1] eqn:Hbody; [|done].
  intros Hloop. constructor; [|by eapply IH].
  unfold AddSequencedLeaves_body in Hbody. case_bool_decide as Hsz; [done|].
  done.
Qed.

End InsertOrder.

Section SortedInserts.

(** [sort.Sort] returns a permutation of its argument in which no
    element is [Less] than an earlier one. *)
Variable sort_Sort : list leafAndPosition → list leafAndPosition.
Hypothesis sort_Sort_Permutation : ∀ l, sort_Sort l ≡ₚ l.
Hypothesis sort_Sort_sorted : ∀ l, StronglySorted (λ a b, Less b a = false) (sort_Sort l).

Variable t : logTreeTX.



Lemma AddSequencedLeaves_Ok (leaves : list LogLeaf) (timestamp : Time) (s : sqlTx) res s' :
  AddSequencedLeaves sort_Sort t leaves timestamp s = (Ok res, s') →
  (∃ tr, executed s' = executed s ++ tr
     ∧ leaf_inserts tr
       = leaf_insert t (UnixNano timestamp) <$> sortLeavesForInsert sort_Sort leaves)
  ∧ length res = length leaves
  ∧ ∀ (i : nat) l, leaves !! i = Some l → slot_code res i = Some codes_OK →
      leafData_row t (UnixNano timestamp) l ∈ LeafData (db s')
      ∧ sequenced_row t l ∈ SequencedLeafData (db s').
Proof.
  unfold AddSequencedLeaves, ExecContext at 1. cbn [run db savepoint executed].
  set (s1 := {| db := db s; savepoint := Some (db s); executed := executed s ++ [SAVEPOINT] |}).
  set (ords := sortLeavesForInsert sort_Sort leaves).
  destruct (AddSequencedLeaves_loop t timestamp ords s1 _) as [[res1|e] s2] eqn:Hloop; [|done].
  pose proof (AddSequencedLeaves_loop_Ok _ _ _ _ _ _ _ Hloop) as Hsizes.
  destruct (AddSequencedLeaves_loop_spec t timestamp ords s1 (replicate (length leaves) None) Hsizes)
    as (res' & s2' & tr & Hloop' & Hlen & _ & Hsp & Hdb & _ & _ & Hex & Htr).
  { by apply sortLeavesForInsert_NoDup. }
  { rewrite length_replicate. by apply sortLeavesForInsert_in_range. }
  rewrite Hloop in Hloop'. injection Hloop' as <- <-.
  rewrite length_replicate in Hlen.
  destruct Hsp as [d0 Hd0]; [by eexists|].
  unfold ExecContext. cbn [run]. rewrite Hd0. intros [= <- <-]. cbn [db executed].
  split.
  { exists ([SAVEPOINT] ++ tr ++ [RELEASE_SAVEPOINT]). split.
    - rewrite Hex. cbn [s1 executed]. by rewrite <- !app_assoc.
    - rewrite !leaf_inserts_app, Htr. cbn. by rewrite app_nil_r. }
  split; [done|]. intros i l Hl Hok.
  assert (Hacc : {| leaf := l; idx := i |} ∈ accepted res1 ords).
  { unfold accepted. apply list_elem_of_filter. split; [done|].
    by apply (sortLeavesForInsert_elem_of sort_Sort sort_Sort_Permutation). }
  rewrite Hdb. cbn. split; apply elem_of_app; right.
  - apply (list_elem_of_fmap_2 (leafData_row t (UnixNano timestamp))).
    by apply (list_elem_of_fmap_2 leaf) in Hacc.
  - apply (list_elem_of_fmap_2 (sequenced_row t)).
    by apply (list_elem_of_fmap_2 leaf) in Hacc.
Qed.


End SortedInserts.


(** The batch of the example is inserted as [aa..], [bb..], [bb..]: the
    stored hash first, then the two occurrences of the new hash in the
    order of the batch, each followed by its queue entry when it is new. *)
Example QueueLeaves_order :
  idx <$> sortLeavesForInsert example_sort queue_batch = [1; 0; 2]%nat
  ∧ leaf_inserts
      (executed (QueueLeaves example_sort queue_tx queue_batch 1000 queue_sql).2)
    = [ insertLeafDataSQL 7 (h32 Byte.xaa) [Byte.x03] [] 1000;
        insertLeafDataSQL 7 (h32 Byte.xbb) [Byte.x02] [] 1000;
        insertLeafDataSQL 7 (h32 Byte.xbb) [Byte.x04] [] 1000 ].
Proof. vm_compute. done. Qed.

(** * Further properties *)

(** ** The life cycle of a tree *)

Lemma tr_TreeId_set_Deleted (deleted : bool) (dtime : option Z) (treeID : Z) (r : TreesRow) :
  tr_TreeId (set_Deleted deleted dtime treeID r) = tr_TreeId r.
Proof. unfold set_Deleted. by case_bool_decide. Qed.

Lemma set_Deleted_other (deleted : bool) (dtime : option Z) (treeID : Z) (r : TreesRow) :
  tr_TreeId r ≠ treeID → set_Deleted deleted dtime treeID r = r.
Proof. intros Hid. unfold set_Deleted. by rewrite bool_decide_eq_false_2. Qed.

Lemma selectTreeByID_set_Deleted (d : DB) (deleted : bool) (dtime : option Z) (treeID : Z) :
  selectTreeByID (set_Trees (map (set_Deleted deleted dtime treeID)) d) treeID
  = map (set_Deleted deleted dtime treeID) (selectTreeByID d treeID).
Proof.
  unfold selectTreeByID. cbn. induction (Trees d) as [|r rows IH]; [done|].
  cbn [map]. rewrite !filter_cons, IH, tr_TreeId_set_Deleted.
  by destruct (decide _).
Qed.

Lemma filter_other_set_Deleted (rows : list TreesRow) (deleted : bool) (dtime : option Z)
  (treeID : Z) :
  filter (λ r, tr_TreeId r ≠ treeID) (map (set_Deleted deleted dtime treeID) rows)
  = filter (λ r, tr_TreeId r ≠ treeID) rows.
Proof.
  induction rows as [|r rows IH]; [done|].
  cbn [map]. rewrite !filter_cons, IH, tr_TreeId_set_Deleted.
  destruct (decide _) as [Hid|]; [|done]. by rewrite set_Deleted_other.
Qed.

Lemma set_Deleted_twice (rows : list TreesRow) (d1 d2 : bool) (t1 t2 : option Z) (treeID : Z) :
  map (set_Deleted d2 t2 treeID) (map (set_Deleted d1 t1 treeID) rows)
  = map (set_Deleted d2 t2 treeID) rows.
Proof.
  rewrite map_map. apply map_ext. intros r.
  destruct (decide (tr_TreeId r = treeID)) as [Hid|Hid].
  - unfold set_Deleted. rewrite (bool_decide_eq_true_2 (tr_TreeId r = treeID)) by done.
    cbn. by rewrite (bool_decide_eq_true_2 (tr_TreeId r = treeID)).
  - by rewrite (set_Deleted_other d1), !(set_Deleted_other d2).
Qed.

Lemma set_Deleted_same (rows : list TreesRow) (deleted : bool) (dtime : option Z) (treeID : Z) :
  Forall (λ r, tr_TreeId r = treeID →
               tr_Deleted r = Some deleted ∧ tr_DeleteTimeMillis r = dtime) rows →
  map (set_Deleted deleted dtime treeID) rows = rows.
Proof.
  induction 1 as [|r rows Hr _ IH]; [done|]. cbn [map]. rewrite IH. f_equal.
  unfold set_Deleted. case_bool_decide as Hid; [|done].
  destruct (Hr Hid) as [<- <-]. by destruct r.
Qed.

Lemma selectTreeByID_gone (rows : list TreesRow) (treeID : Z) :
  filter (λ r, tr_TreeId r = treeID) (filter (λ r, tr_TreeId r ≠ treeID) rows) = [].
Proof.
  induction rows as [|r rows IH]; [done|].
  rewrite (filter_cons (λ r, tr_TreeId r ≠ treeID)).
  destruct (decide (tr_TreeId r ≠ treeID)) as [Hid|Hid]; [|done].
  by rewrite filter_cons_False.
Qed.

Section TreeLifeCycle.

Variable readTree : TreesRow → result Tree.
Variable toMillisSinceEpoch : Time → Z.

Lemma live_validateDeleted (s : sqlTx) (treeID : Z) :
  live s treeID = true → validateDeleted s treeID false = None.
Proof.
  unfold live. rewrite validateDeleted_spec.
  destruct (selectTreeByID (db s) treeID) as [|row rows]; [done|].
  cbn. by destruct (default false (tr_Deleted row)).
Qed.

Lemma soft_deleted_validateDeleted (s : sqlTx) (treeID : Z) :
  soft_deleted s treeID = true → validateDeleted s treeID true = None.
Proof.
  unfold soft_deleted. rewrite validateDeleted_spec.
  destruct (selectTreeByID (db s) treeID) as [|row rows]; [done|].
  cbn. by destruct (default false (tr_Deleted row)).
Qed.

Lemma updateDeleted_run (s : sqlTx) (treeID : Z) (deleted : bool) (dtime : option Z) :
  validateDeleted s treeID (negb deleted) = None →
  updateDeleted readTree s treeID deleted dtime
  = (GetTree readTree (marked s treeID deleted dtime) treeID, marked s treeID deleted dtime).
Proof. intros Hv. unfold updateDeleted. by rewrite Hv. Qed.

Lemma live_marked (s : sqlTx) (treeID : Z) (dtime : option Z) :
  selectTreeByID (db s) treeID ≠ [] →
  soft_deleted (marked s treeID true dtime) treeID = true
  ∧ live (marked s treeID false dtime) treeID = true.
Proof.
  intros Hrow. unfold soft_deleted, live, marked. cbn [db].
  rewrite !selectTreeByID_set_Deleted.
  destruct (selectTreeByID (db s) treeID) as [|row rows] eqn:Hsel; [done|].
  assert (tr_TreeId row = treeID) as Hid.
  { assert (row ∈ selectTreeByID (db s) treeID) as Hin by (rewrite Hsel; left).
    unfold selectTreeByID in Hin. by apply list_elem_of_filter in Hin as [? _]. }
  cbn [map]. unfold set_Deleted. by rewrite !bool_decide_eq_true_2.
Qed.

Lemma live_row (s : sqlTx) (treeID : Z) :
  live s treeID = true → selectTreeByID (db s) treeID ≠ [].
Proof. unfold live. by destruct (selectTreeByID (db s) treeID). Qed.

(** X1: soft-deleting a live tree and undeleting it again is a round trip
    on the database: the two updates are the only statements executed, the
    tree is soft deleted in between and live again at the end, and the
    tables are as before except that the tree's rows now say [Deleted =
    false] with no delete time; a tree whose row said so before is left
    exactly as it was.  Each of the two calls returns what [GetTree] reads
    after its update: when the tree's row as the update marked it can be
    read, the call succeeds with the tree read from it. *)
Theorem SoftDeleteTree_UndeleteTree_round_trip (s : sqlTx) (treeID : Z) (now : Time) :
  live s treeID = true →
  let s1 := (SoftDeleteTree readTree toMillisSinceEpoch s treeID now).2 in
  let s2 := (UndeleteTree readTree s1 treeID).2 in
  soft_deleted s1 treeID = true
  ∧ live s2 treeID = true
  ∧ db s2 = set_Trees (map (set_Deleted false None treeID)) (db s)
  ∧ executed s2
    = executed s ++ [UPDATE_Trees_SET_Deleted true (Some (toMillisSinceEpoch now)) treeID;
                     UPDATE_Trees_SET_Deleted false None treeID]
  ∧ (Forall (λ r, tr_TreeId r = treeID →
                  tr_Deleted r = Some false ∧ tr_DeleteTimeMillis r = None) (Trees (db s)) →
     db s2 = db s)
  ∧ (SoftDeleteTree readTree toMillisSinceEpoch s treeID now).1 = GetTree readTree s1 treeID
  ∧ (UndeleteTree readTree s1 treeID).1 = GetTree readTree s2 treeID
  ∧ ∃ row, head (selectTreeByID (db s) treeID) = Some row
      ∧ (∀ tree,
           readTree (set_Deleted true (Some (toMillisSinceEpoch now)) treeID row) = Ok tree →
           (SoftDeleteTree readTree toMillisSinceEpoch s treeID now).1 = Ok tree)
      ∧ (∀ tree,
           readTree (set_Deleted false None treeID row) = Ok tree →
           (UndeleteTree readTree s1 treeID).1 = Ok tree).
Proof.
  intros Hlive. pose proof (live_row _ _ Hlive) as Hrow.
  unfold SoftDeleteTree, UndeleteTree.
  rewrite (updateDeleted_run s treeID true) by (by apply live_validateDeleted).
  cbn [fst snd]. set (s1 := marked s treeID true _).
  destruct (live_marked s treeID (Some (toMillisSinceEpoch now)) Hrow) as [Hdel _].
  fold s1 in Hdel.
  rewrite (updateDeleted_run s1 treeID false) by (by apply soft_deleted_validateDeleted).
  cbn [fst snd]. cbv zeta.
  assert (db (marked s1 treeID false None)
          = set_Trees (map (set_Deleted false None treeID)) (db s)) as Hdb.
  { unfold marked, s1, set_Trees. cbn. by rewrite set_Deleted_twice. }
  split; [done|]. split.
  { destruct (live_marked s treeID None Hrow) as [_ Hl].
    unfold live in *. by rewrite Hdb. }
  split; [done|]. split.
  { unfold marked, s1. cbn. by rewrite <- app_assoc. }
  split.
  { intros Hsame. rewrite Hdb. unfold set_Trees. rewrite set_Deleted_same by done.
    by destruct (db s). }
  split; [done|]. split; [done|].
  destruct (selectTreeByID (db s) treeID) as [|row rows] eqn:Hsel; [done|].
  exists row. split; [done|]. split.
  - intros tree Hread. unfold GetTree, s1, marked. cbn [db].
    rewrite selectTreeByID_set_Deleted, Hsel. cbn. by rewrite Hread.
  - intros tree Hread. unfold GetTree. rewrite Hdb.
    rewrite selectTreeByID_set_Deleted, Hsel. cbn. by rewrite Hread.
Qed.

(** X2: a live tree that is soft deleted can be hard deleted, and is then
    gone: the tree's rows have left [Trees] and [TreeControl] while the
    rows of every other tree stay, [GetTree] answers not-found, and so do
    the three deleting operations. *)
Theorem HardDeleteTree_after_SoftDeleteTree (s : sqlTx) (treeID : Z) (now : Time) :
  live s treeID = true →
  let s1 := (SoftDeleteTree readTree toMillisSinceEpoch s treeID now).2 in
  ∃ s2, HardDeleteTree s1 treeID = (None, s2)
    ∧ Trees (db s2) = filter (λ r, tr_TreeId r ≠ treeID) (Trees (db s))
    ∧ TreeControl (db s2) = filter (λ r, tc_TreeId r ≠ treeID) (TreeControl (db s))
    ∧ GetTree readTree s2 treeID = Err (status_Errorf codes_NotFound "tree not found")
    ∧ HardDeleteTree s2 treeID = (Some (status_Errorf codes_NotFound "tree not found"), s2)
    ∧ UndeleteTree readTree s2 treeID
      = (Err (status_Errorf codes_NotFound "tree not found"), s2)
    ∧ SoftDeleteTree readTree toMillisSinceEpoch s2 treeID now
      = (Err (status_Errorf codes_NotFound "tree not found"), s2).
Proof.
  intros Hlive. pose proof (live_row _ _ Hlive) as Hrow.
  unfold SoftDeleteTree at 1.
  rewrite (updateDeleted_run s treeID true) by (by apply live_validateDeleted).
  cbn [snd]. set (s1 := marked s treeID true _). cbv zeta.
  destruct (live_marked s treeID (Some (toMillisSinceEpoch now)) Hrow) as [Hdel _].
  fold s1 in Hdel.
  unfold HardDeleteTree at 1. rewrite (soft_deleted_validateDeleted _ _ Hdel).
  cbn. eexists. split; [reflexivity|].
  match goal with |- Trees (db ?x) = _ ∧ _ => set (s2 := x) end.
  assert (Htrees : Trees (db s2) = filter (λ r, tr_TreeId r ≠ treeID) (Trees (db s))).
  { unfold s2. cbn. apply filter_other_set_Deleted. }
  assert (Hsel : selectTreeByID (db s2) treeID = []).
  { unfold selectTreeByID. rewrite Htrees. apply selectTreeByID_gone. }
  split; [done|]. split; [done|].
  split. { unfold GetTree, readTree_Row. by rewrite Hsel. }
  split. { unfold HardDeleteTree. by rewrite validateDeleted_spec, Hsel. }
  split.
  - unfold UndeleteTree, updateDeleted. by rewrite validateDeleted_spec, Hsel.
  - unfold SoftDeleteTree, updateDeleted. by rewrite validateDeleted_spec, Hsel.
Qed.

(** X3: the guards of the life cycle follow the state the operations
    leave: once a tree is soft deleted, soft-deleting it again fails with
    failed-precondition and changes nothing; once it is undeleted,
    undeleting and hard-deleting it fail in the same way. *)
Theorem deleted_state_is_guarded (s : sqlTx) (treeID : Z) (now now' : Time) :
  live s treeID = true →
  let s1 := (SoftDeleteTree readTree toMillisSinceEpoch s treeID now).2 in
  let s2 := (UndeleteTree readTree s1 treeID).2 in
  SoftDeleteTree readTree toMillisSinceEpoch s1 treeID now'
    = (Err (status_Errorf codes_FailedPrecondition "tree already soft deleted"), s1)
  ∧ UndeleteTree readTree s2 treeID
    = (Err (status_Errorf codes_FailedPrecondition "tree is not soft deleted"), s2)
  ∧ HardDeleteTree s2 treeID
    = (Some (status_Errorf codes_FailedPrecondition "tree is not soft deleted"), s2).
Proof.
  intros Hlive. pose proof (live_row _ _ Hlive) as Hrow. cbv zeta.
  assert ((SoftDeleteTree readTree toMillisSinceEpoch s treeID now).2
          = marked s treeID true (Some (toMillisSinceEpoch now))) as ->.
  { unfold SoftDeleteTree.
    by rewrite (updateDeleted_run s treeID true) by (by apply live_validateDeleted). }
  set (s1 := marked s treeID true _).
  destruct (live_marked s treeID (Some (toMillisSinceEpoch now)) Hrow) as [Hdel _].
  fold s1 in Hdel.
  assert ((UndeleteTree readTree s1 treeID).2 = marked s1 treeID false None) as ->.
  { unfold UndeleteTree.
    by rewrite (updateDeleted_run s1 treeID false) by (by apply soft_deleted_validateDeleted). }
  set (s2 := marked s1 treeID false None).
  assert (live s2 treeID = true) as Hlive2.
  { apply live_marked. intros Hnil. unfold soft_deleted in Hdel. by rewrite Hnil in Hdel. }
  split.
  - unfold SoftDeleteTree, updateDeleted. rewrite validateDeleted_spec.
    unfold soft_deleted in Hdel. destruct (selectTreeByID (db s1) treeID); [done|].
    by rewrite Hdel.
  - unfold UndeleteTree, updateDeleted, HardDeleteTree. rewrite !validateDeleted_spec.
    unfold live in Hlive2. destruct (selectTreeByID (db s2) treeID) as [|row ?]; [done|].
    destruct (default false (tr_Deleted row)); done.
Qed.

End TreeLifeCycle.

Lemma SoftDeleteTree_UndeleteTree_round_trip_witness :
  live admin_sql 5 = true
  ∧ db (UndeleteTree example_readTree
          (SoftDeleteTree example_readTree (λ t, t `div` 1000000) admin_sql 5 3000000000).2
          5).2
    = set_Trees (map (set_Deleted false None 5)) (db admin_sql)
  ∧ option_map Deleted
      (err_of_ok (SoftDeleteTree example_readTree (λ t, t `div` 1000000) admin_sql 5
                    3000000000).1) = Some true
  ∧ option_map Deleted
      (err_of_ok
         (UndeleteTree example_readTree
            (SoftDeleteTree example_readTree (λ t, t `div` 1000000) admin_sql 5
               3000000000).2 5).1) = Some false.
Proof.
  split; [reflexivity|].
  destruct (SoftDeleteTree_UndeleteTree_round_trip example_readTree (λ t, t `div` 1000000)
              admin_sql 5 3000000000 eq_refl)
    as (_ & _ & Hdb & _ & _ & _ & _ & row & Hrow & Hsoft & Hun).
  split; [exact Hdb|]. injection Hrow as <-.
  split.
  - by rewrite (Hsoft _ eq_refl).
  - by rewrite (Hun _ eq_refl).
Defined.

Lemma HardDeleteTree_after_SoftDeleteTree_witness :
  live admin_sql 5 = true
  ∧ ∃ s2,
      HardDeleteTree
        (SoftDeleteTree example_readTree (λ t, t `div` 1000000) admin_sql 5 3000000000).2 5
      = (None, s2)
      ∧ Trees (db s2) = [deleted_tree_row].
Proof.
  split; [reflexivity|].
  destruct (HardDeleteTree_after_SoftDeleteTree example_readTree (λ t, t `div` 1000000)
              admin_sql 5 3000000000 eq_refl) as (s2 & Hrun & Htrees & _).
  exists s2. split; [exact Hrun|]. rewrite Htrees. reflexivity.
Defined.

Lemma deleted_state_is_guarded_witness :
  live admin_sql 5 = true
  ∧ SoftDeleteTree example_readTree (λ t, t `div` 1000000)
      (SoftDeleteTree example_readTree (λ t, t `div` 1000000) admin_sql 5 3000000000).2 5
      4000000000
    = (Err (status_Errorf codes_FailedPrecondition "tree already soft deleted"),
       (SoftDeleteTree example_readTree (λ t, t `div` 1000000) admin_sql 5 3000000000).2).
Proof.
  split; [reflexivity|].
  apply (deleted_state_is_guarded example_readTree (λ t, t `div` 1000000)
           admin_sql 5 3000000000 4000000000 eq_refl).
Defined.


(** ** Listing trees *)

Section Listing.

Variable readTree : TreesRow → result Tree.
Variable toMillisSinceEpoch : Time → Z.

Lemma ListTrees_scan_Ok (rows : list TreesRow) (trees : list Tree) :
  ListTrees_scan readTree rows = Ok trees ↔ Forall2 (λ r t, readTree r = Ok t) rows trees.
Proof.
  revert trees. induction rows as [|r rows IH]; intros trees; cbn.
  - split; [intros [= <-]; constructor|]. by intros ->%Forall2_nil_inv_l.
  - destruct (readTree r) as [tree|e] eqn:Hr.
    + destruct (ListTrees_scan readTree rows) as [trees'|e] eqn:Hscan.
      * split.
        -- intros [= <-]. constructor; [done|]. by apply IH.
        -- intros (t' & ts' & Ht' & Hts' & ->)%Forall2_cons_inv_l.
           apply IH in Hts'. congruence.
      * split; [done|].
        intros (t' & ts' & Ht' & Hts' & ->)%Forall2_cons_inv_l. by apply IH in Hts'.
    + split; [done|]. intros (t' & ts' & Ht' & _)%Forall2_cons_inv_l. congruence.
Qed.

Lemma ListTrees_scan_Err (rows : list TreesRow) (e : error) :
  ListTrees_scan readTree rows = Err e →
  ∃ (k : nat) r, rows !! k = Some r ∧ readTree r = Err e
    ∧ ∀ (j : nat) r', (j < k)%nat → rows !! j = Some r' → is_Ok (readTree r') = true.
Proof.
  induction rows as [|r rows IH]; cbn; [done|].
  destruct (readTree r) as [tree|e'] eqn:Hr.
  - destruct (ListTrees_scan readTree rows) as [trees'|e'] eqn:Hscan; [done|].
    intros [= ->]. destruct (IH eq_refl) as (k & r' & Hk & Hr' & Hbefore).
    exists (S k), r'. split; [done|]. split; [done|].
    intros [|j] r'' Hj; cbn; [intros [= <-]; by rewrite Hr|].
    apply Hbefore. lia.
  - intros [= ->]. exists 0%nat, r. split; [done|]. split; [done|]. lia.
Qed.

Lemma Forall2_sublist_l {A B} (R : A → B → Prop) (l l' : list A) (k : list B) :
  l' `sublist_of` l → Forall2 R l k →
  ∃ k', k' `sublist_of` k ∧ Forall2 R l' k'.
Proof.
  intros Hsub. revert k. induction Hsub as [|x l1 l2 _ IH|x l1 l2 _ IH]; intros k Hk.
  - apply Forall2_nil_inv_l in Hk as ->. by exists [].
  - apply Forall2_cons_inv_l in Hk as (y & k2 & Hxy & Hk2 & ->).
    destruct (IH _ Hk2) as (k' & Hsub' & HR). exists (y :: k').
    split; [by apply sublist_skip|by constructor].
  - apply Forall2_cons_inv_l in Hk as (y & k2 & Hxy & Hk2 & ->).
    destruct (IH _ Hk2) as (k' & Hsub' & HR). exists k'.
    split; [by apply sublist_cons|done].
Qed.

(** X4: [ListTrees] returns the trees read from the rows of [Trees], one
    per row and in their order: from every row when deleted trees are
    included, and otherwise from the rows that are not soft deleted, so
    that the second list is a sublist of the first.  The call fails with
    the error of the first row that cannot be read, and only then. *)
Theorem ListTrees_reads (s : sqlTx) (includeDeleted : bool) :
  let rows := filter (λ r, includeDeleted = true ∨ nonDeletedWhere r) (Trees (db s)) in
  (∀ trees, ListTrees readTree s includeDeleted = Ok trees
            ↔ Forall2 (λ r t, readTree r = Ok t) rows trees)
  ∧ (∀ e, ListTrees readTree s includeDeleted = Err e →
       ∃ (k : nat) r, rows !! k = Some r ∧ readTree r = Err e
         ∧ ∀ (j : nat) r', (j < k)%nat → rows !! j = Some r' → is_Ok (readTree r') = true)
  ∧ (∀ all, ListTrees readTree s true = Ok all →
       length all = length (Trees (db s))
       ∧ ∃ nonDeleted, ListTrees readTree s false = Ok nonDeleted
           ∧ nonDeleted `sublist_of` all).
Proof.
  cbv zeta.
  assert (Hrows : ListTrees readTree s includeDeleted
                  = ListTrees_scan readTree
                      (filter (λ r, includeDeleted = true ∨ nonDeletedWhere r) (Trees (db s)))).
  { unfold ListTrees, selectNonDeletedTrees, selectTrees. destruct includeDeleted.
    - f_equal. induction (Trees (db s)) as [|r rows IH]; [done|].
      rewrite filter_cons_True by (by left). by rewrite <- IH.
    - f_equal. apply list_filter_iff_elem. intros r _. split; [by right|]. by intros [|]. }
  split; [|split].
  - intros trees. rewrite Hrows. apply ListTrees_scan_Ok.
  - intros e. rewrite Hrows. apply ListTrees_scan_Err.
  - intros all Hall. unfold ListTrees in *. unfold selectTrees in Hall.
    apply ListTrees_scan_Ok in Hall. split.
    { symmetry. by eapply Forall2_length. }
    destruct (Forall2_sublist_l _ _ (selectNonDeletedTrees (db s)) _
                (sublist_filter _ _) Hall) as (k' & Hsub & Hk').
    exists k'. split; [|done]. by apply ListTrees_scan_Ok.
Qed.

(** X5: once a live tree is soft deleted, [ListTrees] without the deleted
    trees reads the rows it read before except those of the tree, so with
    a row reader that keeps the tree id no listed tree has the id; with the
    deleted trees included, every row of the tree is still read, now
    marked as deleted. *)
Theorem ListTrees_after_SoftDeleteTree (s : sqlTx) (treeID : Z) (now : Time) :
  live s treeID = true →
  let s1 := (SoftDeleteTree readTree toMillisSinceEpoch s treeID now).2 in
  ListTrees readTree s1 false
    = ListTrees_scan readTree
        (filter (λ r, tr_TreeId r ≠ treeID) (selectNonDeletedTrees (db s)))
  ∧ ListTrees readTree s1 true
    = ListTrees_scan readTree
        (map (set_Deleted true (Some (toMillisSinceEpoch now)) treeID) (Trees (db s)))
  ∧ ((∀ r t, readTree r = Ok t → TreeId t = tr_TreeId r) →
     ∀ trees, ListTrees readTree s1 false = Ok trees →
       Forall (λ t, TreeId t ≠ treeID) trees).
Proof.
  intros Hlive. cbv zeta.
  assert ((SoftDeleteTree readTree toMillisSinceEpoch s treeID now).2
          = marked s treeID true (Some (toMillisSinceEpoch now))) as ->.
  { unfold SoftDeleteTree.
    by rewrite (updateDeleted_run readTree s treeID true) by (by apply live_validateDeleted). }
  assert (Hrows : selectNonDeletedTrees (db (marked s treeID true (Some (toMillisSinceEpoch now))))
                  = filter (λ r, tr_TreeId r ≠ treeID) (selectNonDeletedTrees (db s))).
  { unfold selectNonDeletedTrees, selectTrees, marked. cbn.
    induction (Trees (db s)) as [|r rows IH]; [done|].
    cbn [map]. rewrite !filter_cons, IH.
    destruct (decide (tr_TreeId r = treeID)) as [Hid|Hid].
    - rewrite decide_False.
      2:{ unfold set_Deleted, nonDeletedWhere. rewrite bool_decide_eq_true_2 by done.
          cbn. by intros [|]. }
      destruct (decide (nonDeletedWhere r)); [|done].
      by rewrite filter_cons_False by (by intros ?).
    - rewrite set_Deleted_other by done.
      destruct (decide (nonDeletedWhere r)); [|done]. by rewrite filter_cons_True. }
  split; [|split].
  - unfold ListTrees. by rewrite Hrows.
  - done.
  - intros Hid trees. unfold ListTrees. rewrite Hrows. intros Hscan%ListTrees_scan_Ok.
    assert (Hall : Forall (λ r, tr_TreeId r ≠ treeID)
                     (filter (λ r, tr_TreeId r ≠ treeID) (selectNonDeletedTrees (db s)))).
    { apply Forall_forall. by intros r [? _]%list_elem_of_filter. }
    revert Hscan Hall.
    generalize (filter (λ r, tr_TreeId r ≠ treeID) (selectNonDeletedTrees (db s))).
    intros rows' Hscan.
    induction Hscan as [|r t rows' trees' Hrt _ IH]; intros Hall; [constructor|].
    apply Forall_cons in Hall as [Hr Hall]. constructor; [|by apply IH].
    by rewrite (Hid _ _ Hrt).
Qed.

End Listing.

Lemma ListTrees_after_SoftDeleteTree_witness :
  live admin_sql 5 = true
  ∧ ListTrees example_readTree
      (SoftDeleteTree example_readTree (λ t, t `div` 1000000) admin_sql 5 3000000000).2 false
    = Ok [].
Proof.
  split; [reflexivity|].
  etransitivity;
    [apply (ListTrees_after_SoftDeleteTree example_readTree (λ t, t `div` 1000000)
              admin_sql 5 3000000000 eq_refl)|].
  reflexivity.
Defined.

(** ** The active logs *)

Lemma GetActiveLogIDs_rows (d : DB) :
  GetActiveLogIDs d = Ok (int64 <$> (tr_TreeId <$> filter active_log_row (Trees d))).
Proof.
  unfold GetActiveLogIDs, selectNonDeletedTreeIDByTypeAndStateSQL. do 3 f_equal.
Qed.

Lemma active_log_row_set_Deleted_true (rows : list TreesRow) (dtime : option Z) (treeID : Z) :
  filter active_log_row (map (set_Deleted true dtime treeID) rows)
  = filter (λ r, active_log_row r ∧ tr_TreeId r ≠ treeID) rows.
Proof.
  induction rows as [|r rows IH]; [done|].
  cbn [map]. rewrite !filter_cons, IH.
  destruct (decide (tr_TreeId r = treeID)) as [Hid|Hid].
  - rewrite decide_False.
    2:{ unfold set_Deleted, active_log_row, nonDeletedWhere.
        rewrite bool_decide_eq_true_2 by done. cbn. by intros (_ & _ & [|]). }
    by rewrite decide_False by (by intros [_ ?]).
  - rewrite set_Deleted_other by done.
    destruct (decide (active_log_row r)).
    + by rewrite decide_True.
    + by rewrite decide_False by (by intros [? _]).
Qed.

Lemma active_log_row_set_Deleted_false (rows : list TreesRow) (treeID : Z) :
  Forall (λ r, tr_TreeId r = treeID → nonDeletedWhere r) rows →
  tr_TreeId <$> filter active_log_row (map (set_Deleted false None treeID) rows)
  = tr_TreeId <$> filter active_log_row rows.
Proof.
  induction 1 as [|r rows Hr _ IH]; [done|].
  cbn [map]. rewrite !filter_cons.
  destruct (decide (tr_TreeId r = treeID)) as [Hid|Hid].
  - assert (active_log_row (set_Deleted false None treeID r) ↔ active_log_row r) as Hiff.
    { unfold set_Deleted, active_log_row, nonDeletedWhere in *.
      rewrite bool_decide_eq_true_2 by done. cbn. specialize (Hr Hid).
      split; intros (Htype & Hstate & _); repeat split; auto. }
    destruct (decide (active_log_row r)).
    + rewrite decide_True by (by apply Hiff). cbn. by rewrite IH, tr_TreeId_set_Deleted.
    + by rewrite decide_False by (by rewrite Hiff).
  - rewrite set_Deleted_other by done.
    destruct (decide (active_log_row r)); [|done]. cbn. by rewrite IH.
Qed.

Section ActiveLogs.

Variable readTree : TreesRow → result Tree.
Variable toMillisSinceEpoch : Time → Z.

(** X6: soft-deleting a live tree takes exactly its rows out of the ids
    that [GetActiveLogIDs] returns, whatever its type and state, and
    undeleting it gives the ids back as they were (the tree id being the
    key of [Trees]). *)
Theorem GetActiveLogIDs_without_deleted (s : sqlTx) (treeID : Z) (now : Time) :
  live s treeID = true →
  let s1 := (SoftDeleteTree readTree toMillisSinceEpoch s treeID now).2 in
  let s2 := (UndeleteTree readTree s1 treeID).2 in
  GetActiveLogIDs (db s1)
    = Ok (int64 <$> (tr_TreeId
                       <$> filter (λ r, active_log_row r ∧ tr_TreeId r ≠ treeID)
                             (Trees (db s))))
  ∧ (NoDup (tr_TreeId <$> Trees (db s)) →
     GetActiveLogIDs (db s2) = GetActiveLogIDs (db s)).
Proof.
  intros Hlive. pose proof (live_row _ _ Hlive) as Hrow. cbv zeta.
  assert ((SoftDeleteTree readTree toMillisSinceEpoch s treeID now).2
          = marked s treeID true (Some (toMillisSinceEpoch now))) as ->.
  { unfold SoftDeleteTree.
    by rewrite (updateDeleted_run readTree s treeID true) by (by apply live_validateDeleted). }
  set (s1 := marked s treeID true _).
  destruct (live_marked s treeID (Some (toMillisSinceEpoch now)) Hrow) as [Hdel _].
  fold s1 in Hdel.
  assert ((UndeleteTree readTree s1 treeID).2 = marked s1 treeID false None) as ->.
  { unfold UndeleteTree.
    by rewrite (updateDeleted_run readTree s1 treeID false)
      by (by apply soft_deleted_validateDeleted). }
  rewrite !GetActiveLogIDs_rows. split.
  - unfold s1, marked. cbn. by rewrite active_log_row_set_Deleted_true.
  - intros Hkey. unfold s1, marked. cbn. rewrite set_Deleted_twice.
    rewrite active_log_row_set_Deleted_false; [done|].
    apply Forall_forall. intros r Hr Hid.
    unfold live in Hlive. destruct (selectTreeByID (db s) treeID) as [|row rest] eqn:Hsel; [done|].
    assert (row ∈ selectTreeByID (db s) treeID) as Hin by (rewrite Hsel; left).
    unfold selectTreeByID in Hin. apply list_elem_of_filter in Hin as [Hid' Hin].
    assert (r = row) as -> by (apply (NoDup_fmap_eq tr_TreeId (Trees (db s))); congruence).
    unfold nonDeletedWhere. destruct (tr_Deleted row) as [[|]|]; cbn in Hlive; auto. done.
Qed.

End ActiveLogs.

Lemma GetActiveLogIDs_without_deleted_witness :
  live admin_sql 5 = true
  ∧ GetActiveLogIDs (db admin_sql) = Ok [5]
  ∧ GetActiveLogIDs
      (db (SoftDeleteTree example_readTree (λ t, t `div` 1000000) admin_sql 5 3000000000).2)
    = Ok [].
Proof.
  split; [reflexivity|]. split; [reflexivity|].
  etransitivity;
    [apply (GetActiveLogIDs_without_deleted example_readTree (λ t, t `div` 1000000)
              admin_sql 5 3000000000 eq_refl)|].
  reflexivity.
Defined.

(** ** Updating a tree *)

Lemma TreeType_String_log (type : TreeType) :
  (TreeType_String type = "LOG" ∨ TreeType_String type = "PREORDERED_LOG")
  ↔ (type = LOG ∨ type = PREORDERED_LOG).
Proof. destruct type; cbn; split; intros [|]; auto; done. Qed.

Lemma TreeState_String_active (state : TreeState) :
  (TreeState_String state = "ACTIVE" ∨ TreeState_String state = "DRAINING")
  ↔ (state = ACTIVE ∨ state = DRAINING).
Proof. destruct state; cbn; split; intros [|]; auto; done. Qed.

Section UpdateTreeProperties.

Variable readTree : TreesRow → result Tree.
Variable ValidateTreeForUpdate : Tree → Tree → option error.
Variable MessageIs_StorageOptions : option Any → bool.
Variable Duration_CheckValid : option Duration → option error.
Variable Duration_AsDuration : option Duration → Z.
Variable toMillisSinceEpoch : Time → Z.
Variable fromMillisSinceEpoch : Z → Time.

Lemma UpdateTree_Ok (s : sqlTx) (treeID : Z) (updateFunc : Tree → Tree) (now : Time)
  (tree : Tree) (s' : sqlTx) :
  UpdateTree readTree ValidateTreeForUpdate MessageIs_StorageOptions
    Duration_CheckValid Duration_AsDuration toMillisSinceEpoch fromMillisSinceEpoch
    s treeID updateFunc now = (Ok tree, s') →
  ∃ tree0, GetTree readTree s treeID = Ok tree0
    ∧ ValidateTreeForUpdate tree0 (updateFunc tree0) = None
    ∧ validateStorageSettings MessageIs_StorageOptions (updateFunc tree0) = None
    ∧ Duration_CheckValid (MaxRootDuration (updateFunc tree0)) = None
    ∧ tree = set_UpdateTime
               (Some (timestamppb_New (fromMillisSinceEpoch (toMillisSinceEpoch now))))
               (updateFunc tree0)
    ∧ s' = after_UpdateTree s tree (toMillisSinceEpoch now)
             (Duration_AsDuration (MaxRootDuration tree) `quot` time_Millisecond).
Proof.
  unfold UpdateTree.
  destruct (GetTree readTree s treeID) as [tree0|e]; [|done].
  destruct (ValidateTreeForUpdate tree0 (updateFunc tree0)) eqn:Hv; [done|].
  destruct (validateStorageSettings MessageIs_StorageOptions (updateFunc tree0)) eqn:Hs; [done|].
  cbn [MaxRootDuration set_UpdateTime].
  destruct (Duration_CheckValid (MaxRootDuration (updateFunc tree0))) eqn:Hd; [done|].
  cbn. intros [= <- <-]. by exists tree0.
Qed.

(** X7: how [UpdateTree] ends.  Any failure leaves the transaction as it
    was, with no statement executed; a tree that cannot be read fails with
    the error of [GetTree] (not-found for a missing row).  The call
    succeeds exactly when the tree is read and the mutated tree passes the
    update validation, the storage-settings check and the duration check;
    it then executes the one update, which rewrites the rows carrying the
    returned tree's id and no other row, and returns the mutated tree
    stamped with the time truncated to milliseconds. *)
Theorem UpdateTree_outcome (s : sqlTx) (treeID : Z) (updateFunc : Tree → Tree) (now : Time) :
  (∀ e s',
      UpdateTree readTree ValidateTreeForUpdate MessageIs_StorageOptions
        Duration_CheckValid Duration_AsDuration toMillisSinceEpoch fromMillisSinceEpoch
        s treeID updateFunc now = (Err e, s') → s' = s)
  ∧ (∀ e, GetTree readTree s treeID = Err e →
       UpdateTree readTree ValidateTreeForUpdate MessageIs_StorageOptions
         Duration_CheckValid Duration_AsDuration toMillisSinceEpoch fromMillisSinceEpoch
         s treeID updateFunc now = (Err e, s))
  ∧ (∀ tree s',
      UpdateTree readTree ValidateTreeForUpdate MessageIs_StorageOptions
        Duration_CheckValid Duration_AsDuration toMillisSinceEpoch fromMillisSinceEpoch
        s treeID updateFunc now = (Ok tree, s')
       ↔ ∃ tree0, GetTree readTree s treeID = Ok tree0
           ∧ ValidateTreeForUpdate tree0 (updateFunc tree0) = None
           ∧ validateStorageSettings MessageIs_StorageOptions (updateFunc tree0) = None
           ∧ Duration_CheckValid (MaxRootDuration (updateFunc tree0)) = None
           ∧ tree = set_UpdateTime
                      (Some (timestamppb_New (fromMillisSinceEpoch (toMillisSinceEpoch now))))
                      (updateFunc tree0)
           ∧ s' = after_UpdateTree s tree (toMillisSinceEpoch now)
             (Duration_AsDuration (MaxRootDuration tree) `quot` time_Millisecond))
  ∧ (∀ tree s',
      UpdateTree readTree ValidateTreeForUpdate MessageIs_StorageOptions
        Duration_CheckValid Duration_AsDuration toMillisSinceEpoch fromMillisSinceEpoch
        s treeID updateFunc now = (Ok tree, s') →
       ∀ (k : nat) r, Trees (db s) !! k = Some r →
         Trees (db s') !! k
         = Some (if bool_decide (tr_TreeId r = TreeId tree)
                 then updated_row tree (toMillisSinceEpoch now)
                        (Duration_AsDuration (MaxRootDuration tree) `quot` time_Millisecond) r
                 else r)).
Proof.
  split; [|split; [|split]].
  - intros e s'. unfold UpdateTree.
    destruct (GetTree readTree s treeID) as [tree0|e0]; [|by intros [= _ <-]].
    destruct (ValidateTreeForUpdate tree0 (updateFunc tree0)); [by intros [= _ <-]|].
    destruct (validateStorageSettings MessageIs_StorageOptions (updateFunc tree0));
      [by intros [= _ <-]|].
    cbn [MaxRootDuration set_UpdateTime].
    destruct (Duration_CheckValid (MaxRootDuration (updateFunc tree0)));
      [by intros [= _ <-]|].
    cbn. done.
  - intros e He. unfold UpdateTree. by rewrite He.
  - intros tree s'. split; [apply UpdateTree_Ok|].
    intros (tree0 & Hget & Hv & Hs & Hd & -> & ->).
    unfold UpdateTree. rewrite Hget, Hv, Hs. cbn [MaxRootDuration set_UpdateTime].
    by rewrite Hd.
  - intros tree s' (tree0 & _ & _ & _ & _ & _ & ->)%UpdateTree_Ok k r Hk.
    cbn. rewrite list_lookup_fmap, Hk. cbn. f_equal.
    unfold updated_row. by case_bool_decide.
Qed.

(** X8: after a successful [UpdateTree], the returned tree is among the
    ids of [GetActiveLogIDs] exactly when it is a log or a pre-ordered log
    whose state is active or draining and whose row is not soft deleted
    (tree ids being 64-bit integers). *)
Theorem UpdateTree_sets_activity (s : sqlTx) (treeID : Z) (updateFunc : Tree → Tree)
  (now : Time) (tree : Tree) (s' : sqlTx) :
  UpdateTree readTree ValidateTreeForUpdate MessageIs_StorageOptions
    Duration_CheckValid Duration_AsDuration toMillisSinceEpoch fromMillisSinceEpoch
    s treeID updateFunc now = (Ok tree, s') →
  Forall (λ r, - 2 ^ 63 ≤ tr_TreeId r < 2 ^ 63) (Trees (db s)) →
  ∀ ids, GetActiveLogIDs (db s') = Ok ids →
    (TreeId tree ∈ ids
     ↔ (tree_TreeType tree = LOG ∨ tree_TreeType tree = PREORDERED_LOG)
       ∧ (tree_TreeState tree = ACTIVE ∨ tree_TreeState tree = DRAINING)
       ∧ ∃ r, r ∈ Trees (db s) ∧ tr_TreeId r = TreeId tree ∧ nonDeletedWhere r).
Proof.
  intros (tree0 & _ & _ & _ & _ & _ & ->)%UpdateTree_Ok Hrange ids.
  rewrite GetActiveLogIDs_rows. intros [= <-]. cbn [db set_Trees Trees].
  set (upd := updated_row tree _ _).
  rewrite <- list_fmap_compose, list_elem_of_fmap.
  rewrite <- TreeType_String_log, <- TreeState_String_active.
  assert (Hupd : ∀ r, tr_TreeId (upd r) = tr_TreeId r).
  { intros r. unfold upd, updated_row. by case_bool_decide. }
  split.
  - intros (r' & Hid & [Hactive (r & -> & Hr)%list_elem_of_fmap]%list_elem_of_filter).
    cbn in Hid. rewrite Hupd in Hid.
    rewrite Forall_forall in Hrange. rewrite int64_id in Hid by (by apply Hrange).
    unfold upd, updated_row, active_log_row, nonDeletedWhere in Hactive.
    rewrite bool_decide_eq_true_2 in Hactive by done. cbn in Hactive.
    destruct Hactive as (Htype & Hstate & Hdel). split; [done|]. split; [done|].
    by exists r.
  - intros (Htype & Hstate & r & Hr & Hid & Hdel).
    exists (upd r). split.
    + cbn. rewrite Hupd. rewrite Forall_forall in Hrange.
      by rewrite int64_id by (by apply Hrange).
    + apply list_elem_of_filter. split; [|by apply list_elem_of_fmap_2].
      unfold upd, updated_row, active_log_row, nonDeletedWhere.
      by rewrite bool_decide_eq_true_2.
Qed.

End UpdateTreeProperties.

Lemma UpdateTree_sets_activity_witness :
  (∃ tree s', example_UpdateTree admin_sql 5 freeze 3000000000 = (Ok tree, s')
     ∧ TreeId tree = 5 ∧ tree_TreeState tree = FROZEN
     ∧ ∀ ids, GetActiveLogIDs (db s') = Ok ids → ¬ 5 ∈ ids)
  ∧ GetActiveLogIDs (db admin_sql) = Ok [5].
Proof.
  split; [|reflexivity].
  destruct (example_UpdateTree admin_sql 5 freeze 3000000000) as [r s'] eqn:Hrun.
  assert (Hr : ∃ tree, r = Ok tree ∧ TreeId tree = 5 ∧ tree_TreeState tree = FROZEN).
  { vm_compute in Hrun. injection Hrun as <- _. eexists. split; [reflexivity|]. by split. }
  destruct Hr as (tree & -> & Hid & Hstate).
  exists tree, s'. split; [done|]. split; [done|]. split; [done|].
  intros ids Hids Hin.
  assert (Hrange : Forall (λ r, - 2 ^ 63 ≤ tr_TreeId r < 2 ^ 63) (Trees (db admin_sql))).
  { repeat constructor; cbn; lia. }
  rewrite <- Hid in Hin.
  apply (UpdateTree_sets_activity _ _ _ _ _ _ _ _ _ _ _ _ _ Hrun Hrange ids Hids) in Hin
    as (_ & [Hactive|Hactive] & _); congruence.
Defined.

(** ** The end of an admin transaction *)

(** X9: [adminTX.Close] after [adminTX.Commit] does nothing and returns
    no error, closing twice is closing once, and closing a transaction
    that is still open rolls it back.  Hence [ReadWriteTransaction], whose
    deferred [Close] follows the [Commit], returns the error of the
    function it runs, commits what the function wrote when the function
    succeeds, and leaves the committed database as it was when the
    function fails. *)
Theorem ReadWriteTransaction_commits_or_rolls_back (d : DB)
  (g : sqlTx → option error * sqlTx) :
  let fresh := {| db := d; savepoint := None; executed := [] |} in
  (∀ t, adminTX_Close (adminTX_Commit t).2 = (None, (adminTX_Commit t).2))
  ∧ (∀ t, adminTX_Close (adminTX_Close t).2 = (None, (adminTX_Close t).2))
  ∧ (∀ t, closed t = false → done (tx t) = false →
       (adminTX_Close t).1 = None
       ∧ committed (tx (adminTX_Close t).2) = committed (tx t)
       ∧ db (view (tx (adminTX_Close t).2)) = committed (tx t))
  ∧ ∃ t', mysqlAdminStorage_ReadWriteTransaction d (in_adminTX g) = ((g fresh).1, Some t')
      ∧ closed t' = true ∧ done (tx t') = true
      ∧ committed (tx t') = match (g fresh).1 with
                            | Some _ => d
                            | None => db (g fresh).2
                            end.
Proof.
  cbv zeta. split; [|split; [|split]].
  - intros t. unfold adminTX_Commit, adminTX_Close.
    by destruct (sql_Tx_Commit (tx t)).
  - intros t. destruct (closed t) eqn:Hclosed.
    + assert (adminTX_Close t = (None, t)) as -> by (unfold adminTX_Close; by rewrite Hclosed).
      cbn [snd]. unfold adminTX_Close. by rewrite Hclosed.
    + unfold adminTX_Close at 2 3. rewrite Hclosed.
      destruct (sql_Tx_Rollback (tx t)) as [[e|] tx']; [case_bool_decide|]; done.
  - intros t Hclosed Hdone. unfold adminTX_Close, sql_Tx_Rollback.
    by rewrite Hclosed, Hdone.
  - unfold mysqlAdminStorage_ReadWriteTransaction, mysqlAdminStorage_beginInternal, in_adminTX.
    cbn [tx view committed done closed].
    destruct (g _) as [[e|] v]; cbn; eexists; repeat split.
Qed.

(** ** The latest root and the revisions *)

Lemma TreeHeadTimestamp_ge_trans : Transitive TreeHeadTimestamp_ge.
Proof. unfold TreeHeadTimestamp_ge. intros a b c ? ?. lia. Qed.

Lemma TreeHeadTimestamp_ge_total : Total TreeHeadTimestamp_ge.
Proof. unfold TreeHeadTimestamp_ge. intros a b. lia. Qed.

Lemma selectLatestSignedLogRootSQL_spec (d : DB) (treeID : Z) :
  match selectLatestSignedLogRootSQL d treeID with
  | [] => heads_of d treeID = []
  | h :: rest =>
      rest = [] ∧ h ∈ heads_of d treeID
      ∧ ∀ h', h' ∈ heads_of d treeID → th_TreeHeadTimestamp h' ≤ th_TreeHeadTimestamp h
  end.
Proof.
  unfold selectLatestSignedLogRootSQL. fold (heads_of d treeID).
  pose proof (merge_sort_Permutation TreeHeadTimestamp_ge (heads_of d treeID)) as Hperm.
  pose proof (@StronglySorted_merge_sort _ TreeHeadTimestamp_ge _ TreeHeadTimestamp_ge_trans
                TreeHeadTimestamp_ge_total (heads_of d treeID)) as Hsorted.
  destruct (merge_sort TreeHeadTimestamp_ge (heads_of d treeID)) as [|h l].
  - cbn. symmetry in Hperm. by apply Permutation_nil_r in Hperm.
  - cbn. rewrite take_0. split; [done|]. split.
    + rewrite <- Hperm. left.
    + intros h'. rewrite <- Hperm. apply StronglySorted_inv in Hsorted as [_ Hall].
      intros [->|Hin]%elem_of_cons; [lia|].
      rewrite Forall_forall in Hall. by apply Hall.
Qed.

Section LatestRoot.

Variable MarshalBinary : LogRootV1 → result bytes.
Variable UnmarshalBinary : bytes → result LogRootV1.

Lemma fetchLatestRoot_spec (t : logTreeTX) (s : sqlTx) :
  match fetchLatestRoot MarshalBinary t s with
  | Err e =>
      (heads_of (db s) (treeID t) = [] ∧ e = ErrTreeNeedsInit)
      ∨ ∃ h, h ∈ heads_of (db s) (treeID t)
          ∧ (∀ h', h' ∈ heads_of (db s) (treeID t) →
               th_TreeHeadTimestamp h' ≤ th_TreeHeadTimestamp h)
          ∧ MarshalBinary (root_of_head h) = Err e
  | Ok (slr, rev) =>
      ∃ h, h ∈ heads_of (db s) (treeID t)
        ∧ (∀ h', h' ∈ heads_of (db s) (treeID t) →
             th_TreeHeadTimestamp h' ≤ th_TreeHeadTimestamp h)
        ∧ MarshalBinary (root_of_head h) = Ok (LogRoot slr)
        ∧ rev = int64 (th_TreeRevision h)
  end.
Proof.
  unfold fetchLatestRoot.
  pose proof (selectLatestSignedLogRootSQL_spec (db s) (treeID t)) as Hsel.
  destruct (selectLatestSignedLogRootSQL (db s) (treeID t)) as [|h rest]; cbn.
  - by left.
  - destruct Hsel as (_ & Hin & Hmax). fold (root_of_head h).
    destruct (MarshalBinary (root_of_head h)) as [bs|e] eqn:Hm.
    + exists h. by rewrite Hm.
    + right. by exists h.
Qed.

Lemma beginInternal_no_head (ttx : treeTX) (err : option error) (s : sqlTx) :
  err = None ∨ err = Some ErrTreeNeedsInit →
  heads_of (db s) (ttx_treeID ttx) = [] →
  mySQLLogStorage_beginInternal MarshalBinary UnmarshalBinary ttx err s
  = (Some (logTreeTX_of ttx 0 LogRootV1_zero 0 None), Some ErrTreeNeedsInit).
Proof.
  unfold mySQLLogStorage_beginInternal.
  intros Herr Hnone. rewrite bool_decide_eq_false_2 by (intros [? ?]; by destruct Herr).
  match goal with |- context [fetchLatestRoot _ ?t s] => set (ltx := t) end.
  pose proof (fetchLatestRoot_spec ltx s) as Hfetch.
  destruct (fetchLatestRoot MarshalBinary ltx s) as [[slr rev]|e].
  - destruct Hfetch as (h & Hin & _). cbn in Hin. rewrite Hnone in Hin.
    by apply elem_of_nil in Hin.
  - destruct Hfetch as [[_ ->]|(h & Hin & _)].
    + by rewrite bool_decide_eq_true_2.
    + cbn in Hin. rewrite Hnone in Hin. by apply elem_of_nil in Hin.
Qed.

(** X10: what [beginInternal] makes of the tree heads.  A tree without a
    head gives a transaction with write revision 0 and no root, together
    with the tree-needs-init error.  Otherwise a transaction that begins
    without error carries the head with the greatest timestamp: its read
    revision is that head's revision, its write revision the next one, and
    its root is built from that head's size, hash and timestamp, with the
    revision field 0 and no metadata.  An error of [beginTreeTx] other
    than tree-needs-init is returned with no transaction. *)
Theorem beginInternal_reads_latest (ttx : treeTX) (err : option error) (s : sqlTx) :
  ((err = None ∨ err = Some ErrTreeNeedsInit) →
   heads_of (db s) (ttx_treeID ttx) = [] →
   mySQLLogStorage_beginInternal MarshalBinary UnmarshalBinary ttx err s
   = (Some (logTreeTX_of ttx 0 LogRootV1_zero 0 None), Some ErrTreeNeedsInit))
  ∧ (∀ tx, mySQLLogStorage_beginInternal MarshalBinary UnmarshalBinary ttx err s
           = (Some tx, None) →
       ∃ h bs, h ∈ heads_of (db s) (ttx_treeID ttx)
         ∧ (∀ h', h' ∈ heads_of (db s) (ttx_treeID ttx) →
              th_TreeHeadTimestamp h' ≤ th_TreeHeadTimestamp h)
         ∧ MarshalBinary (root_of_head h) = Ok bs
         ∧ UnmarshalBinary bs = Ok (root tx)
         ∧ tx = logTreeTX_of ttx (int64 (int64 (th_TreeRevision h) + 1)) (root tx)
                  (int64 (th_TreeRevision h)) (Some {| LogRoot := bs |}))
  ∧ (err ≠ None → err ≠ Some ErrTreeNeedsInit →
     mySQLLogStorage_beginInternal MarshalBinary UnmarshalBinary ttx err s = (None, err)).
Proof.
  split; [apply beginInternal_no_head|]. unfold mySQLLogStorage_beginInternal. split.
  - intros tx. case_bool_decide; [done|].
    match goal with |- context [fetchLatestRoot _ ?t s] => set (ltx := t) end.
    pose proof (fetchLatestRoot_spec ltx s) as Hfetch.
    destruct (fetchLatestRoot MarshalBinary ltx s) as [[slr rev]|e].
    + destruct Hfetch as (h & Hin & Hmax & Hm & ->).
      destruct (UnmarshalBinary (LogRoot slr)) as [r|e] eqn:Hu; [|done].
      intros [= <-]. exists h, (LogRoot slr). cbn [root].
      split; [done|]. split; [done|]. split; [done|]. split; [done|].
      by destruct slr.
    + by case_bool_decide.
  - intros H1 H2. by rewrite bool_decide_eq_true_2.
Qed.

(** X11: a root stored by [StoreSignedLogRoot] with a timestamp beyond
    those of the tree's heads is what the next transaction begins with: its
    read revision is the write revision the root was stored at, its write
    revision the next one, and its root has the stored size, hash and
    timestamp; the revision field of the stored root is not kept. *)
Theorem StoreSignedLogRoot_then_begin (t : logTreeTX) (root : SignedLogRoot) (s : sqlTx)
  (logRoot : LogRootV1) (ttx : treeTX) (bs : bytes) :
  let latest := {| TreeSize := TreeSize logRoot; RootHash := RootHash logRoot;
                   TimestampNanos := TimestampNanos logRoot; Revision := 0;
                   Metadata := [] |} in
  UnmarshalBinary (LogRoot root) = Ok logRoot →
  (StoreSignedLogRoot UnmarshalBinary t root s).1 = None →
  0 ≤ TreeSize logRoot < 2 ^ 63 →
  0 ≤ TimestampNanos logRoot < 2 ^ 63 →
  - 2 ^ 63 ≤ writeRevision t < 2 ^ 63 →
  Forall (λ h, th_TreeHeadTimestamp h < TimestampNanos logRoot) (heads_of (db s) (treeID t)) →
  ttx_treeID ttx = treeID t →
  MarshalBinary latest = Ok bs →
  UnmarshalBinary bs = Ok latest →
  mySQLLogStorage_beginInternal MarshalBinary UnmarshalBinary ttx None
    (StoreSignedLogRoot UnmarshalBinary t root s).2
  = (Some (logTreeTX_of ttx (int64 (writeRevision t + 1)) latest (writeRevision t)
             (Some {| LogRoot := bs |})),
     None).
Proof.
  intros latest Hparse Hok Hsize Hts Hrev Hnew Hid Hm Hu.
  unfold StoreSignedLogRoot in *. rewrite Hparse in *.
  destruct (bool_decide (len (Metadata logRoot) ≠ 0)); [done|].
  unfold ExecContext in *. cbn [run] in *.
  destruct (insert_row_cases TreeHead_conflict (head_row t logRoot) (TreeHead (db s)))
    as [[_ Hins]|[_ Hins]]; unfold head_row in Hins; rewrite Hins in *; [done|].
  cbn [snd]. clear Hok.
  set (s' := {| db := _ |}).
  assert (Hheads : heads_of (db s') (treeID t)
                   = heads_of (db s) (treeID t) ++ [head_row t logRoot]).
  { unfold heads_of, s'. cbn. by rewrite filter_app, filter_cons_True. }
  set (ltx := logTreeTX_of ttx (ttx_writeRevision ttx) LogRootV1_zero 0 None).
  pose proof (fetchLatestRoot_spec ltx s') as Hfetch.
  assert (Hlatest : ∀ h, h ∈ heads_of (db s') (treeID t) →
            (∀ h', h' ∈ heads_of (db s') (treeID t) →
               th_TreeHeadTimestamp h' ≤ th_TreeHeadTimestamp h) →
            h = head_row t logRoot).
  { intros h Hin Hmax. rewrite Hheads in Hin.
    apply elem_of_app in Hin as [Hin|Hin%list_elem_of_singleton]; [|done].
    rewrite Forall_forall in Hnew. specialize (Hnew h Hin).
    specialize (Hmax (head_row t logRoot)). rewrite Hheads in Hmax.
    cbn in Hmax. pose proof (Hmax ltac:(apply elem_of_app; right; left)). lia. }
  assert (Hroot : root_of_head (head_row t logRoot) = latest).
  { unfold root_of_head, latest, head_row, uint64. cbn.
    rewrite !int64_id by lia. rewrite !Z.mod_small by lia. done. }
  unfold mySQLLogStorage_beginInternal. rewrite bool_decide_eq_false_2 by (by intros [? _]).
  fold (logTreeTX_of ttx (ttx_writeRevision ttx) LogRootV1_zero 0 None). fold ltx.
  assert (treeID ltx = treeID t) as Hltx by done. rewrite Hltx in Hfetch.
  destruct (fetchLatestRoot MarshalBinary ltx s') as [[slr rev]|e].
  - destruct Hfetch as (h & Hin & Hmax & Hm' & ->).
    rewrite (Hlatest h Hin Hmax), Hroot, Hm in Hm'. injection Hm' as Hbs.
    rewrite <- Hbs, Hu. rewrite (Hlatest h Hin Hmax). unfold head_row. cbn [th_TreeRevision].
    rewrite (int64_id (writeRevision t)) by lia. unfold logTreeTX_of. cbn.
    by rewrite Hbs; destruct slr.
  - destruct Hfetch as [[Hnil _]|(h & Hin & Hmax & Hm')].
    + rewrite Hheads in Hnil. by apply app_nil in Hnil as [_ ?].
    + by rewrite (Hlatest h Hin Hmax), Hroot, Hm in Hm'.
Qed.

End LatestRoot.

(** The transaction of the examples begins at the head stored at revision
    3; after the root of twelve leaves is stored, the next one begins at
    revision 4 with that root. *)
Example beginInternal_reads_latest_example :
  mySQLLogStorage_beginInternal example_MarshalBinary example_UnmarshalBinary log7_ttx None
    grown_log_sql
  = (Some (logTreeTX_of log7_ttx 4 (root grown_log_tx) 3
             (Some {| LogRoot := write_uint 2 1 ++ write_uint 8 10 ++ [Byte.x01; Byte.xaa]
                                 ++ write_uint 8 100 ++ write_uint 8 0 ++ write_uint 2 0 |})),
     None).
Proof. vm_compute. reflexivity. Qed.

Lemma StoreSignedLogRoot_then_begin_witness :
  (StoreSignedLogRoot example_UnmarshalBinary grown_log_tx fresh_root grown_log_sql).1 = None
  ∧ ∃ tx,
      mySQLLogStorage_beginInternal example_MarshalBinary example_UnmarshalBinary log7_ttx None
        (StoreSignedLogRoot example_UnmarshalBinary grown_log_tx fresh_root grown_log_sql).2
      = (Some tx, None)
      ∧ readRev tx = 4 ∧ writeRevision tx = 5 ∧ TreeSize (root tx) = 12
      ∧ Revision (root tx) = 0.
Proof.
  split; [reflexivity|]. eexists. split.
  - apply (StoreSignedLogRoot_then_begin example_MarshalBinary example_UnmarshalBinary
             grown_log_tx fresh_root grown_log_sql fresh_logRoot log7_ttx
             (write_uint 2 1 ++ write_uint 8 12 ++ [Byte.x01; Byte.xbb]
              ++ write_uint 8 200 ++ write_uint 8 0 ++ write_uint 2 0));
      try reflexivity; try (cbn; lia).
    repeat constructor.
  - repeat split.
Defined.

Section NeedsInit.

Variable sort_Sort : list leafAndPosition → list leafAndPosition.
Variable MarshalBinary : LogRootV1 → result bytes.
Variable UnmarshalBinary : bytes → result LogRootV1.

(** X12: a tree that has no head yet.  [beginInternal] gives its
    transaction together with the tree-needs-init error; the two writers
    [QueueLeaves] and [AddSequencedLeaves] of the storage return that
    error and leave the database alone, and [LatestSignedLogRoot] returns
    it too.  [ReadWriteTransaction] runs its function all the same, at
    write revision 0, and commits what it wrote unless it fails; run with
    [StoreSignedLogRoot] on a root that parses and has no metadata, it
    stores the tree's first head, at revision 0. *)
Theorem tree_needs_init (ttx : treeTX) (s : sqlTx) (leaves : list LogLeaf) (timestamp : Time) :
  heads_of (db s) (ttx_treeID ttx) = [] →
  let begin := mySQLLogStorage_beginInternal MarshalBinary UnmarshalBinary ttx None s in
  let tx := logTreeTX_of ttx 0 LogRootV1_zero 0 None in
  begin = (Some tx, Some ErrTreeNeedsInit)
  ∧ SnapshotForTree MarshalBinary UnmarshalBinary ttx None s = (Some tx, Some ErrTreeNeedsInit)
  ∧ LatestSignedLogRoot tx = Err ErrTreeNeedsInit
  ∧ mySQLLogStorage_QueueLeaves sort_Sort (begun begin) leaves timestamp s
    = (Err ErrTreeNeedsInit, s)
  ∧ mySQLLogStorage_AddSequencedLeaves sort_Sort (begun begin) leaves timestamp s
    = (Err ErrTreeNeedsInit, s)
  ∧ (∀ f, mySQLLogStorage_ReadWriteTransaction MarshalBinary UnmarshalBinary ttx None f s
          = match f tx s with
            | (Some err, _) => (Some err, s)
            | (None, s1) => (None, s1)
            end)
  ∧ (∀ root logRoot, UnmarshalBinary (LogRoot root) = Ok logRoot → Metadata logRoot = [] →
       mySQLLogStorage_ReadWriteTransaction MarshalBinary UnmarshalBinary ttx None
         (λ tx, StoreSignedLogRoot UnmarshalBinary tx root) s
       = (None,
          {| db := set_TreeHead (λ _, TreeHead (db s) ++ [head_row tx logRoot]) (db s);
             savepoint := savepoint s;
             executed := executed s
               ++ [insertTreeHeadSQL (ttx_treeID ttx) (TimestampNanos logRoot)
                     (TreeSize logRoot) (RootHash logRoot) 0 []] |})).
Proof.
  intros Hnone begin tx.
  assert (Hbegin : begin = (Some tx, Some ErrTreeNeedsInit)).
  { apply beginInternal_no_head; auto. }
  assert (Hrw : ∀ f, mySQLLogStorage_ReadWriteTransaction MarshalBinary UnmarshalBinary ttx
                       None f s
                     = match f tx s with
                       | (Some err, _) => (Some err, s)
                       | (None, s1) => (None, s1)
                       end).
  { intros f. unfold mySQLLogStorage_ReadWriteTransaction. fold begin. rewrite Hbegin.
    by destruct (f tx s) as [[e|] s1]. }
  split; [done|]. split.
  { unfold SnapshotForTree. fold begin. rewrite Hbegin.
    by rewrite bool_decide_eq_false_2 by (by intros [_ ?]). }
  split; [done|]. rewrite Hbegin. split; [done|]. split; [done|]. split; [done|].
  intros root logRoot Hparse Hmeta. rewrite Hrw. unfold StoreSignedLogRoot.
  rewrite Hparse, Hmeta.
  rewrite (bool_decide_eq_false_2 (len [] ≠ 0)) by (unfold len; cbn; lia).
  unfold ExecContext. cbn [run].
  rewrite (insert_row_Some TreeHead_conflict (head_row tx logRoot)).
  - done.
  - apply Forall_forall. intros h Hh. apply not_true_iff_false.
    rewrite TreeHead_conflict_head_row. intros [Hid _].
    assert (h ∈ heads_of (db s) (ttx_treeID ttx)) as Hin by (by apply list_elem_of_filter).
    rewrite Hnone in Hin. by apply elem_of_nil in Hin.
Qed.

End NeedsInit.

Lemma tree_needs_init_witness :
  heads_of empty_DB 7 = []
  ∧ mySQLLogStorage_QueueLeaves example_sort
      (begun (mySQLLogStorage_beginInternal example_MarshalBinary example_UnmarshalBinary
                log7_ttx None {| db := empty_DB; savepoint := None; executed := [] |}))
      queue_batch 1000 {| db := empty_DB; savepoint := None; executed := [] |}
    = (Err ErrTreeNeedsInit, {| db := empty_DB; savepoint := None; executed := [] |}).
Proof.
  split; [reflexivity|].
  apply (tree_needs_init example_sort example_MarshalBinary example_UnmarshalBinary log7_ttx
           {| db := empty_DB; savepoint := None; executed := [] |} queue_batch 1000 eq_refl).
Defined.

(** ** Queueing leaves *)

Lemma QueueLeaves_stamp_hash (t : logTreeTX) (leaves : list LogLeaf) (queueTimestamp : Time) :
  Timestamp_CheckValid (Some (timestamppb_New queueTimestamp)) = None →
  Exists (λ l, len (LeafIdentityHash l) ≠ hashSizeBytes t) leaves →
  QueueLeaves_stamp t leaves queueTimestamp
  = Err (fmt_Errorf "queued leaf must have a leaf ID hash of the hash length").
Proof.
  intros Hvalid. induction leaves as [|l leaves IH]; intros Hex.
  - by apply Exists_nil in Hex.
  - cbn [QueueLeaves_stamp QueueTimestamp set_QueueTimestamp].
    case_bool_decide as Hl; [done|]. rewrite Hvalid.
    apply Exists_cons in Hex as [Hex|Hex]; [done|]. by rewrite IH.
Qed.

Lemma QueueLeaves_stamp_time (t : logTreeTX) (leaves : list LogLeaf) (queueTimestamp : Time) :
  Timestamp_CheckValid (Some (timestamppb_New queueTimestamp)) ≠ None →
  leaves ≠ [] →
  ∃ msg, QueueLeaves_stamp t leaves queueTimestamp = Err (fmt_Errorf msg).
Proof.
  intros Hvalid Hne. destruct leaves as [|l leaves]; [done|].
  cbn [QueueLeaves_stamp QueueTimestamp set_QueueTimestamp].
  case_bool_decide; [by eexists|].
  destruct (Timestamp_CheckValid _); [by eexists|done].
Qed.

Section QueueRejects.

Variable sort_Sort : list leafAndPosition → list leafAndPosition.

(** X13: [QueueLeaves] does not accept a batch with an invalid leaf.  If
    some leaf's identity hash has not the hash size of the tree, or the
    queue timestamp cannot be a protobuf timestamp and the batch is not
    empty, the call fails before any statement is executed: the
    transaction is as it was, and so is the database after the call of the
    storage. *)
Theorem QueueLeaves_rejects_batch (t : logTreeTX) (leaves : list LogLeaf)
  (queueTimestamp : Time) (s : sqlTx) :
  (Timestamp_CheckValid (Some (timestamppb_New queueTimestamp)) = None →
   Exists (λ l, len (LeafIdentityHash l) ≠ hashSizeBytes t) leaves →
   QueueLeaves sort_Sort t leaves queueTimestamp s
     = (Err (fmt_Errorf "queued leaf must have a leaf ID hash of the hash length"), s)
   ∧ mySQLLogStorage_QueueLeaves sort_Sort (Ok t) leaves queueTimestamp s
     = (Err (fmt_Errorf "queued leaf must have a leaf ID hash of the hash length"), s))
  ∧ (Timestamp_CheckValid (Some (timestamppb_New queueTimestamp)) ≠ None →
     leaves ≠ [] →
     ∃ msg, QueueLeaves sort_Sort t leaves queueTimestamp s = (Err (fmt_Errorf msg), s)
       ∧ mySQLLogStorage_QueueLeaves sort_Sort (Ok t) leaves queueTimestamp s
         = (Err (fmt_Errorf msg), s)).
Proof.
  split.
  - intros Hvalid Hex. unfold mySQLLogStorage_QueueLeaves, QueueLeaves.
    by rewrite (QueueLeaves_stamp_hash t leaves queueTimestamp Hvalid Hex).
  - intros Hvalid Hne. unfold mySQLLogStorage_QueueLeaves, QueueLeaves.
    destruct (QueueLeaves_stamp_time t leaves queueTimestamp Hvalid Hne) as (msg & ->).
    by exists msg.
Qed.

End QueueRejects.

(** A batch whose second leaf has a hash of one byte is rejected, and so
    is a batch queued at a time beyond the year 9999. *)
Example QueueLeaves_rejects_batch_example :
  mySQLLogStorage_QueueLeaves example_sort (Ok queue_tx)
    [queued_leaf Byte.xbb Byte.x02;
     {| MerkleLeafHash := []; LeafValue := []; ExtraData := []; LeafIndex := 0;
        LeafIdentityHash := [Byte.x01]; QueueTimestamp := None;
        IntegrateTimestamp := None |}] 1000 queue_sql
  = (Err (fmt_Errorf "queued leaf must have a leaf ID hash of the hash length"), queue_sql)
  ∧ mySQLLogStorage_QueueLeaves example_sort (Ok queue_tx) queue_batch (10 ^ 21) queue_sql
    = (Err (fmt_Errorf "got invalid queue timestamp"), queue_sql).
Proof. split; vm_compute; reflexivity. Qed.

Lemma filter_none {A} (P : A → Prop) `{!∀ x, Decision (P x)} (l : list A) :
  Forall (λ x, ¬ P x) l → filter P l = [].
Proof.
  induction 1 as [|x l Hx _ IH]; [done|]. by rewrite filter_cons_False.
Qed.

Section QueueTwice.

Variable sort_Sort : list leafAndPosition → list leafAndPosition.
Hypothesis sort_Sort_Permutation : ∀ l, sort_Sort l ≡ₚ l.

Variable t : logTreeTX.
Hypothesis hashSizeBytes_32 : hashSizeBytes t = 32.

Lemma QueueLeaves_stores (leaves : list LogLeaf) (queueTimestamp : Time) (s : sqlTx)
  (fin : list (option LogLeaf)) (s' : sqlTx) :
  db s' = add_queued t (UnixNano queueTimestamp)
            (leaf <$> queued_entries fin
                        (sortLeavesForInsert sort_Sort (stamp queueTimestamp <$> leaves)))
            (db s) →
  (∀ (i : nat) l, leaves !! i = Some l →
     (fin !! i = Some None ∧ ¬ in_tree (db s) (treeID t) (LeafIdentityHash l))
     ∨ (∃ row, fin !! i = Some (Some (stored_leaf (db s') row))
          ∧ row ∈ LeafData (db s')
          ∧ LeafData_key row = (treeID t, LeafIdentityHash l)
          ∧ (in_tree (db s) (treeID t) (LeafIdentityHash l)
             ∨ ∃ (j : nat) l', j ≠ i ∧ leaves !! j = Some l'
                 ∧ LeafIdentityHash l' = LeafIdentityHash l))) →
  ∀ (i : nat) l, leaves !! i = Some l → in_tree (db s') (treeID t) (LeafIdentityHash l).
Proof.
  intros Hdb Hpos i l Hl.
  destruct (Hpos i l Hl) as [[Hnone _]|(row & _ & Hrow & Hkey & _)].
  - rewrite Hdb. apply in_tree_add_queued. right. split; [done|].
    apply list_elem_of_fmap. exists (stamp queueTimestamp l). split; [done|].
    apply list_elem_of_fmap. exists {| leaf := stamp queueTimestamp l; idx := i |}.
    split; [done|]. apply list_elem_of_filter. split; [done|].
    apply (sortLeavesForInsert_elem_of sort_Sort sort_Sort_Permutation). cbn.
    by rewrite list_lookup_fmap, Hl.
  - unfold in_tree. apply list_elem_of_fmap. by exists row.
Qed.

(** X14: queueing a batch a second time changes nothing.  After
    [QueueLeaves] of the storage has queued a batch, queueing the same
    batch again (at any valid time) succeeds, leaves every table as the
    first call left it, and answers every position with the stored row of
    its identity hash, annotated [ALREADY_EXISTS]. *)
Theorem QueueLeaves_twice (leaves : list LogLeaf) (first again : Time) (s : sqlTx) :
  Timestamp_CheckValid (Some (timestamppb_New first)) = None →
  Timestamp_CheckValid (Some (timestamppb_New again)) = None →
  Forall (λ l, len (LeafIdentityHash l) = hashSizeBytes t) leaves →
  db_wf (db s) →
  ∃ ret1 s1 ret2 s2,
    mySQLLogStorage_QueueLeaves sort_Sort (Ok t) leaves first s = (Ok ret1, s1)
    ∧ mySQLLogStorage_QueueLeaves sort_Sort (Ok t) leaves again s1 = (Ok ret2, s2)
    ∧ db s2 = db s1
    ∧ length ret2 = length leaves
    ∧ ∀ (i : nat) l, leaves !! i = Some l →
        ∃ row, row ∈ LeafData (db s1)
          ∧ LeafData_key row = (treeID t, LeafIdentityHash l)
          ∧ ret2 !! i = Some {| Leaf := Some (stored_leaf (db s1) row);
                                Status := Some AlreadyExists |}.
Proof.
  intros Hfirst Hagain Hsize Hwf.
  destruct (QueueLeaves_spec sort_Sort sort_Sort_Permutation t first hashSizeBytes_32 Hfirst
              leaves s Hsize Hwf)
    as (fin1 & s1 & tr1 & Hrun1 & Hlen1 & Hwf1 & Hdb1 & Hpos1 & _).
  pose proof (QueueLeaves_stores leaves first s fin1 s1 Hdb1 Hpos1) as Hstored.
  destruct (QueueLeaves_spec sort_Sort sort_Sort_Permutation t again hashSizeBytes_32 Hagain
              leaves s1 Hsize Hwf1)
    as (fin2 & s2 & tr2 & Hrun2 & Hlen2 & Hwf2 & Hdb2 & Hpos2 & _).
  assert (Hnone : queued_entries fin2
                    (sortLeavesForInsert sort_Sort (stamp again <$> leaves)) = []).
  { unfold queued_entries. apply filter_none, Forall_forall. intros ol Hol Hq.
    apply (sortLeavesForInsert_elem_of sort_Sort sort_Sort_Permutation) in Hol.
    rewrite list_lookup_fmap in Hol.
    destruct (leaves !! idx ol) as [l|] eqn:Hl; [|done].
    destruct (Hpos2 _ _ Hl) as [[_ Hnot]|(row & Hfin & _)].
    - by apply Hnot, (Hstored (idx ol)).
    - congruence. }
  rewrite Hnone in Hdb2. cbn [fmap list_fmap] in Hdb2. rewrite add_queued_nil in Hdb2.
  assert (∃ ret1, mySQLLogStorage_QueueLeaves sort_Sort (Ok t) leaves first s = (Ok ret1, s1))
    as [ret1 H1].
  { unfold mySQLLogStorage_QueueLeaves, Commit. rewrite Hrun1. by eexists. }
  assert (∃ ret2, mySQLLogStorage_QueueLeaves sort_Sort (Ok t) leaves again s1 = (Ok ret2, s2)
            ∧ ret2 = zip_with
                       (λ e leaf,
                          match e with
                          | Some e => {| Leaf := Some e; Status := Some AlreadyExists |}
                          | None => {| Leaf := Some leaf; Status := None |}
                          end) fin2 (stamp again <$> leaves))
    as (ret2 & H2 & ->).
  { unfold mySQLLogStorage_QueueLeaves, Commit. rewrite Hrun2. by eexists. }
  eexists ret1, s1, _, s2. split; [done|]. split; [done|]. split; [done|].
  split. { rewrite length_zip_with, length_fmap. lia. }
  intros i l Hl.
  destruct (Hpos2 _ _ Hl) as [[_ Hnot]|(row & Hfin & Hrow & Hkey & _)].
  { exfalso. by apply Hnot, (Hstored i). }
  exists row. rewrite Hdb2 in Hrow. split; [done|]. split; [done|].
  rewrite lookup_zip_with, Hfin, list_lookup_fmap, Hl. cbn.
  by rewrite (stored_leaf_same_sequenced (db s1)) by (by rewrite Hdb2).
Qed.

End QueueTwice.

Lemma QueueLeaves_twice_witness :
  Forall (λ l, len (LeafIdentityHash l) = hashSizeBytes queue_tx) queue_batch
  ∧ db_wf (db queue_sql)
  ∧ ∃ ret1 s1 ret2 s2,
      mySQLLogStorage_QueueLeaves example_sort (Ok queue_tx) queue_batch 1000 queue_sql
        = (Ok ret1, s1)
      ∧ mySQLLogStorage_QueueLeaves example_sort (Ok queue_tx) queue_batch 2000 s1
        = (Ok ret2, s2)
      ∧ db s2 = db s1.
Proof.
  assert (Hsize : Forall (λ l, len (LeafIdentityHash l) = hashSizeBytes queue_tx) queue_batch)
    by (repeat constructor).
  split; [exact Hsize|]. split; [exact queue_sql_wf|].
  destruct (QueueLeaves_twice example_sort example_sort_Permutation queue_tx eq_refl
              queue_batch 1000 2000 queue_sql eq_refl eq_refl Hsize queue_sql_wf)
    as (ret1 & s1 & ret2 & s2 & Hrun1 & Hrun2 & Hdb & _).
  by exists ret1, s1, ret2, s2.
Defined.

(** ** Dequeueing leaves *)

Lemma dequeueLeaf_Ok (r : UnsequencedRow) :
  ∃ leaf dqInfo, dequeueLeaf r = Ok (leaf, dqInfo)
    ∧ LeafIdentityHash leaf = us_LeafIdentityHash r.
Proof.
  unfold dequeueLeaf. rewrite Timestamp_CheckValid_int64. by eexists _, _.
Qed.

Lemma DequeueLeaves_scan_spec (t : logTreeTX) (rows : list UnsequencedRow)
  (dq : gmap bytes dequeuedLeaf) :
  Forall (λ r, len (us_LeafIdentityHash r) = hashSizeBytes t) rows →
  ∃ leaves dq', DequeueLeaves_scan t rows dq = (Ok leaves, dq')
    ∧ NoDup (LeafIdentityHash <$> leaves)
    ∧ Forall (λ l, dq !! LeafIdentityHash l = None
                   ∧ len (LeafIdentityHash l) = hashSizeBytes t
                   ∧ LeafIdentityHash l ∈ us_LeafIdentityHash <$> rows) leaves
    ∧ (∀ h, is_Some (dq' !! h) ↔ is_Some (dq !! h) ∨ h ∈ LeafIdentityHash <$> leaves)
    ∧ (∀ h, h ∈ us_LeafIdentityHash <$> rows → is_Some (dq' !! h))
    ∧ (length leaves ≤ length rows)%nat.
Proof.
  intros Hsize. revert dq. induction Hsize as [|r rows Hr _ IH]; intros dq.
  - exists [], dq. cbn. split; [done|]. split; [constructor|]. split; [constructor|].
    split; [|split; [|done]].
    + intros h. rewrite elem_of_nil. tauto.
    + intros h Hh. by apply elem_of_nil in Hh.
  - cbn [DequeueLeaves_scan]. destruct (dequeueLeaf_Ok r) as (leaf & dqInfo & -> & Hhash).
    rewrite Hhash, bool_decide_eq_false_2 by (by intros ?).
    destruct (dq !! us_LeafIdentityHash r) as [old|] eqn:Hdq.
    + destruct (IH dq) as (leaves & dq' & -> & Hnd & Hall & Hdq' & Hrows & Hlen).
      exists leaves, dq'. split; [done|]. split; [done|]. split.
      { eapply Forall_impl; [exact Hall|]. intros l (? & ? & ?).
        split; [done|]. split; [done|]. cbn. by right. }
      split; [done|]. split; [|cbn; lia].
      intros h [->|Hh]%elem_of_cons; [|by apply Hrows].
      apply Hdq'. left. by rewrite Hdq.
    + destruct (IH (<[us_LeafIdentityHash r := dqInfo]> dq))
        as (leaves & dq' & -> & Hnd & Hall & Hdq' & Hrows & Hlen).
      exists (leaf :: leaves), dq'. split; [done|].
      rewrite Forall_forall in Hall. split.
      { cbn. constructor; [|done]. rewrite Hhash.
        intros (l & Hl & Hin)%list_elem_of_fmap.
        destruct (Hall l Hin) as (Hnone & _). rewrite <- Hl in Hnone.
        by rewrite lookup_insert_eq in Hnone. }
      split.
      { constructor.
        - rewrite Hhash. split; [done|]. split; [done|]. cbn. left.
        - apply Forall_forall. intros l Hin. destruct (Hall l Hin) as (Hnone & ? & ?).
          apply lookup_insert_None in Hnone as [? _].
          split; [done|]. split; [done|]. cbn. by right. }
      split.
      { intros h. rewrite Hdq', lookup_insert_is_Some. cbn. rewrite elem_of_cons, Hhash.
        destruct (decide (us_LeafIdentityHash r = h)) as [->|Hne]; [split; auto|].
        split.
        - intros [[?|[_ ?]]|?]; [done|by left|by right; right].
        - intros [?|[?|?]]; [by left; right|congruence|by right]. }
      split; [|cbn; lia].
      intros h [->|Hh]%elem_of_cons; [|by apply Hrows].
      apply Hdq'. left. by rewrite lookup_insert_eq.
Qed.

Lemma DequeueLeaves_scan_again (t : logTreeTX) (rows : list UnsequencedRow)
  (dq : gmap bytes dequeuedLeaf) :
  Forall (λ r, len (us_LeafIdentityHash r) = hashSizeBytes t) rows →
  (∀ h, h ∈ us_LeafIdentityHash <$> rows → is_Some (dq !! h)) →
  DequeueLeaves_scan t rows dq = (Ok [], dq).
Proof.
  induction 1 as [|r rows Hr _ IH]; intros Hdq; [done|].
  cbn [DequeueLeaves_scan]. destruct (dequeueLeaf_Ok r) as (leaf & dqInfo & -> & Hhash).
  rewrite Hhash, bool_decide_eq_false_2 by (by intros ?).
  destruct (Hdq (us_LeafIdentityHash r)) as [old ->]; [cbn; left|].
  apply IH. intros h Hh. apply Hdq. cbn. by right.
Qed.

(** X15: [DequeueLeaves] on a tree that is not pre-ordered.  A limit
    that [make] does not take as a capacity, negative or beyond
    [maxAlloc / 8], makes the call panic with the transaction as it was.
    For a limit within these bounds and queued entries whose identity
    hashes have the tree's hash size, the call succeeds with at most
    [limit] leaves; no identity hash occurs twice among them, none was
    dequeued in this transaction before, and the transaction remembers
    exactly the old and the new ones as dequeued.  Calling it once more
    hands out nothing: a leaf is dequeued once in a transaction. *)
Theorem DequeueLeaves_once (t : logTreeTX) (limit : Z) (cutoffTime : Time) (s : sqlTx) :
  treeType t ≠ PREORDERED_LOG →
  (limit < 0 ∨ maxAlloc < 8 * limit →
   DequeueLeaves t limit cutoffTime s = (Err panicmakeslicecap, t))
  ∧ (0 ≤ limit → 8 * limit ≤ maxAlloc →
     Forall (λ u, us_TreeId u = treeID t → len (us_LeafIdentityHash u) = hashSizeBytes t)
       (Unsequenced (db s)) →
     ∃ leaves t',
       DequeueLeaves t limit cutoffTime s = (Ok leaves, t')
       ∧ (length leaves ≤ Z.to_nat limit)%nat
       ∧ NoDup (LeafIdentityHash <$> leaves)
       ∧ Forall (λ l, dequeued t !! LeafIdentityHash l = None
                      ∧ len (LeafIdentityHash l) = hashSizeBytes t) leaves
       ∧ (∀ h, is_Some (dequeued t' !! h)
               ↔ is_Some (dequeued t !! h) ∨ h ∈ LeafIdentityHash <$> leaves)
       ∧ DequeueLeaves t' limit cutoffTime s = (Ok [], t')).
Proof.
  intros Htype. split.
  { intros Hcap. unfold DequeueLeaves. rewrite bool_decide_eq_false_2 by done.
    unfold makeslice_cap_out_of_range. by rewrite bool_decide_eq_true_2. }
  intros Hlimit Hcap Hsize. unfold DequeueLeaves.
  rewrite bool_decide_eq_false_2 by done.
  unfold makeslice_cap_out_of_range. rewrite bool_decide_eq_false_2 by lia.
  set (rows := selectQueuedLeavesSQL (db s) (treeID t) (UnixNano cutoffTime) limit).
  assert (Hrows : Forall (λ r, len (us_LeafIdentityHash r) = hashSizeBytes t) rows).
  { apply Forall_forall. intros r Hr. unfold rows, selectQueuedLeavesSQL in Hr.
    apply elem_of_take in Hr as (i & Hr & _). apply list_elem_of_lookup_2 in Hr.
    rewrite merge_sort_Permutation in Hr. apply list_elem_of_filter in Hr as [[Hid _] Hin].
    rewrite Forall_forall in Hsize. by apply Hsize. }
  destruct (DequeueLeaves_scan_spec t rows (dequeued t) Hrows)
    as (leaves & dq' & Hscan & Hnd & Hall & Hdq' & Hmemo & Hlen).
  rewrite Hscan. exists leaves, (set_dequeued dq' t).
  split; [done|]. split.
  { unfold rows, selectQueuedLeavesSQL in Hlen. rewrite length_take in Hlen. lia. }
  split; [done|]. split.
  { eapply Forall_impl; [exact Hall|]. by intros l (? & ? & _). }
  split; [done|].
  cbn [treeType set_dequeued treeID dequeued hashSizeBytes].
  rewrite bool_decide_eq_false_2 by done. fold rows.
  rewrite (DequeueLeaves_scan_again (set_dequeued dq' t) rows dq'); [done|done|done].
Qed.

Lemma DequeueLeaves_once_witness :
  treeType queue_tx ≠ PREORDERED_LOG
  ∧ DequeueLeaves queue_tx (2 ^ 62) 1000 queue_sql = (Err panicmakeslicecap, queue_tx)
  ∧ ∃ leaves t',
      DequeueLeaves queue_tx 10 1000 queue_sql = (Ok leaves, t')
      ∧ DequeueLeaves t' 10 1000 queue_sql = (Ok [], t').
Proof.
  split; [done|]. split.
  - apply (DequeueLeaves_once queue_tx (2 ^ 62) 1000 queue_sql); [done|].
    right. unfold maxAlloc. lia.
  - destruct (DequeueLeaves_once queue_tx 10 1000 queue_sql) as [_ Hrun]; [done|].
    destruct Hrun as (leaves & t' & Hrun & Hrest).
    + lia.
    + unfold maxAlloc. lia.
    + repeat constructor.
    + exists leaves, t'. split; [exact Hrun|]. apply Hrest.
Defined.

(** The queue of the example holds one entry, which is handed out once. *)
Example DequeueLeaves_once_example :
  option_map (map LeafIdentityHash) (err_of_ok (DequeueLeaves queue_tx 10 1000 queue_sql).1)
  = Some [h32 Byte.xaa]
  ∧ option_map (map LeafIdentityHash)
      (err_of_ok (DequeueLeaves (DequeueLeaves queue_tx 10 1000 queue_sql).2 10 1000
                    queue_sql).1)
    = Some [].
Proof. split; vm_compute; reflexivity. Qed.

(** ** Adding sequenced leaves *)

Section AddSequencedMore.

Variable t : logTreeTX.
Variable timestamp : Time.

Lemma AddSequencedLeaves_loop_size (ords : list leafAndPosition) (s : sqlTx)
  (res : list (option QueuedLogLeaf)) :
  Exists (λ ol, len (LeafIdentityHash (leaf ol)) ≠ hashSizeBytes t) ords →
  ∃ s', AddSequencedLeaves_loop t timestamp ords s res
        = (Err (status_Errorf codes_FailedPrecondition "leaves[i] has incorrect hash size"), s').
Proof.
  revert s res. induction ords as [|ol ords IH]; intros s res Hex.
  - by apply Exists_nil in Hex.
  - cbn [AddSequencedLeaves_loop].
    destruct (decide (len (LeafIdentityHash (leaf ol)) = hashSizeBytes t)) as [Hsz|Hsz].
    + destruct (AddSequencedLeaves_body_spec t timestamp ol s res Hsz)
        as (st & s1 & tr & -> & _).
      apply Exists_cons in Hex as [Hex|Hex]; [done|]. by apply IH.
    + unfold AddSequencedLeaves_body. rewrite bool_decide_eq_true_2 by done. by eexists.
Qed.

(** A batch whose leaves all have a row in the way is refused leaf by
    leaf, and the tables stay as they are. *)
Lemma AddSequencedLeaves_loop_refused (ords : list leafAndPosition) (s : sqlTx)
  (res : list (option QueuedLogLeaf)) :
  Forall (λ ol, len (LeafIdentityHash (leaf ol)) = hashSizeBytes t) ords →
  NoDup (idx <$> ords) →
  Forall (λ ol, (idx ol < length res)%nat) ords →
  Forall (λ ol, in_the_way (db s) t (leaf ol)) ords →
  ∃ res' s',
    AddSequencedLeaves_loop t timestamp ords s res = (Ok res', s')
    ∧ length res' = length res
    ∧ (∀ i, i ∉ idx <$> ords → res' !! i = res !! i)
    ∧ (is_Some (savepoint s) → is_Some (savepoint s'))
    ∧ db s' = db s
    ∧ Forall (λ ol, slot_code res' (idx ol) = Some codes_FailedPrecondition) ords.
Proof.
  revert s res. induction ords as [|ol ords IH]; intros s res Hsize Hnd Hrange Hway.
  - exists res, s. cbn. repeat split; auto.
  - apply Forall_cons in Hsize as [Hsz Hsize]. apply Forall_cons in Hrange as [Hr Hrange].
    apply Forall_cons in Hway as [Hw Hway]. cbn in Hnd. apply NoDup_cons in Hnd as [Hni Hnd].
    cbn [AddSequencedLeaves_loop].
    destruct (AddSequencedLeaves_body_spec t timestamp ol s res Hsz)
      as (st & s1 & tr & -> & Hsp & _ & _ & Hcase).
    destruct Hcase as [(_ & _ & Hld & Hsl)|(Hst & Hdb & _)].
    { exfalso. apply (in_the_way_conflict t timestamp) in Hw as [Hex|Hex].
      - apply Exists_exists in Hex as (r & Hr' & Hc). rewrite Forall_forall in Hld.
        by rewrite (Hld r Hr') in Hc.
      - apply Exists_exists in Hex as (r & Hr' & Hc). rewrite Forall_forall in Hsl.
        by rewrite (Hsl r Hr') in Hc. }
    destruct (IH s1 (<[idx ol := Some {| Leaf := None; Status := Some st |}]> res))
      as (res' & s' & -> & Hlen & Hkeep & Hsp' & Hdb' & Hall); [done|done| | |].
    { eapply Forall_impl; [exact Hrange|]. intros ? ?. by rewrite length_insert. }
    { by rewrite Hdb. }
    exists res', s'. split; [done|]. rewrite length_insert in Hlen. split; [done|].
    split.
    { intros i Hi. rewrite Hkeep by (intros ?; apply Hi; cbn; by right).
      apply list_lookup_insert_ne. intros Heq. apply Hi. cbn. rewrite <- Heq. left. }
    split; [intros _; apply Hsp'; by rewrite Hsp|]. split; [congruence|].
    constructor; [|done]. unfold slot_code. rewrite (Hkeep _ Hni).
    rewrite list_lookup_insert_eq by done. by rewrite Hst.
Qed.

(** After the loop every leaf of the batch has a row in the way: its own
    rows if it was accepted, the rows that made it fail otherwise. *)
Lemma AddSequencedLeaves_loop_in_the_way (ords : list leafAndPosition) (s : sqlTx)
  (res : list (option QueuedLogLeaf)) (res' : list (option QueuedLogLeaf)) (s' : sqlTx) :
  Forall (λ ol, len (LeafIdentityHash (leaf ol)) = hashSizeBytes t) ords →
  NoDup (idx <$> ords) →
  Forall (λ ol, (idx ol < length res)%nat) ords →
  AddSequencedLeaves_loop t timestamp ords s res = (Ok res', s') →
  Forall (λ ol, in_the_way (db s') t (leaf ol)) ords.
Proof.
  revert s res. induction ords as [|ol ords IH]; intros s res Hsize Hnd Hrange Hrun.
  - constructor.
  - apply Forall_cons in Hsize as [Hsz Hsize]. apply Forall_cons in Hrange as [Hr Hrange].
    cbn in Hnd. apply NoDup_cons in Hnd as [Hni Hnd].
    cbn [AddSequencedLeaves_loop] in Hrun.
    destruct (AddSequencedLeaves_body_spec t timestamp ol s res Hsz)
      as (st & s1 & tr & Hbody & Hsp & _ & _ & Hcase).
    rewrite Hbody in Hrun.
    assert (Hrange' : Forall (λ ol0, (idx ol0 < length
                         (<[idx ol := Some {| Leaf := None; Status := Some st |}]> res))%nat)
                        ords).
    { eapply Forall_impl; [exact Hrange|]. intros ? ?. by rewrite length_insert. }
    destruct (AddSequencedLeaves_loop_spec t timestamp ords s1 _ Hsize Hnd Hrange')
      as (res2 & s2 & tr2 & Hrun2 & _ & _ & _ & Hdb2 & _).
    rewrite Hrun2 in Hrun. injection Hrun as <- <-.
    constructor; [|by eapply IH].
    rewrite Hdb2. apply in_the_way_add_sequenced.
    destruct Hcase as [(_ & -> & _)|(_ & -> & Hex)].
    + left. unfold add_sequenced, in_tree. cbn. rewrite fmap_app. apply elem_of_app.
      right. cbn. left.
    + by apply (in_the_way_conflict t timestamp).
Qed.

End AddSequencedMore.

Section AddSequencedTwice.

Variable sort_Sort : list leafAndPosition → list leafAndPosition.
Hypothesis sort_Sort_Permutation : ∀ l, sort_Sort l ≡ₚ l.

Variable t : logTreeTX.

Lemma sorted_batch_size (leaves : list LogLeaf) :
  Forall (λ l, len (LeafIdentityHash l) = hashSizeBytes t) leaves →
  Forall (λ ol, len (LeafIdentityHash (leaf ol)) = hashSizeBytes t)
    (sortLeavesForInsert sort_Sort leaves).
Proof.
  intros Hsize. apply Forall_forall. intros ol Hol.
  apply (sortLeavesForInsert_elem_of sort_Sort sort_Sort_Permutation) in Hol.
  rewrite Forall_forall in Hsize. apply Hsize. by eapply list_elem_of_lookup_2.
Qed.

(** X16: [AddSequencedLeaves] takes a batch whole or not at all as far as
    the hash size goes.  The call on the transaction succeeds exactly when
    every leaf's identity hash has the hash size of the tree.  Otherwise it
    fails with failed-precondition, although leaves that sort before the
    offending one may have been inserted in the transaction; the call of
    the storage then returns that error with the database as it was. *)
Theorem AddSequencedLeaves_rejects_batch (leaves : list LogLeaf) (timestamp : Time)
  (s : sqlTx) :
  (is_Ok (AddSequencedLeaves sort_Sort t leaves timestamp s).1 = true
   ↔ Forall (λ l, len (LeafIdentityHash l) = hashSizeBytes t) leaves)
  ∧ (Exists (λ l, len (LeafIdentityHash l) ≠ hashSizeBytes t) leaves →
     (∃ s', AddSequencedLeaves sort_Sort t leaves timestamp s
            = (Err (status_Errorf codes_FailedPrecondition
                      "leaves[i] has incorrect hash size"), s'))
     ∧ mySQLLogStorage_AddSequencedLeaves sort_Sort (Ok t) leaves timestamp s
       = (Err (status_Errorf codes_FailedPrecondition "leaves[i] has incorrect hash size"),
          s)).
Proof.
  assert (Hbad : Exists (λ l, len (LeafIdentityHash l) ≠ hashSizeBytes t) leaves →
            ∃ s', AddSequencedLeaves sort_Sort t leaves timestamp s
                  = (Err (status_Errorf codes_FailedPrecondition
                            "leaves[i] has incorrect hash size"), s')).
  { intros Hex. unfold AddSequencedLeaves, ExecContext at 1. cbn [run db savepoint executed].
    match goal with |- context [AddSequencedLeaves_loop _ _ _ ?s1 ?res] =>
      destruct (AddSequencedLeaves_loop_size t timestamp
                  (sortLeavesForInsert sort_Sort leaves) s1 res) as (s' & ->)
    end; [|by eexists].
    apply Exists_exists in Hex as (l & Hl & Hsz).
    apply list_elem_of_lookup_1 in Hl as (i & Hi).
    apply Exists_exists. exists {| leaf := l; idx := i |}. split; [|done].
    by apply (sortLeavesForInsert_elem_of sort_Sort sort_Sort_Permutation). }
  split; [split|].
  - intros Hok. apply Forall_forall. intros l Hl.
    destruct (decide (len (LeafIdentityHash l) = hashSizeBytes t)) as [|Hne]; [done|].
    destruct Hbad as (s' & Hrun); [apply Exists_exists; by exists l|].
    by rewrite Hrun in Hok.
  - intros Hsize.
    unfold AddSequencedLeaves, ExecContext at 1. cbn [run db savepoint executed].
    match goal with |- context [AddSequencedLeaves_loop _ _ _ ?s1 ?res] =>
      destruct (AddSequencedLeaves_loop_spec t timestamp
                  (sortLeavesForInsert sort_Sort leaves) s1 res)
        as (res' & s2 & tr & -> & _ & _ & Hsp & _)
    end.
    { by apply sorted_batch_size. }
    { by apply sortLeavesForInsert_NoDup. }
    { rewrite length_replicate. by apply sortLeavesForInsert_in_range. }
    destruct Hsp as [d0 Hd0]; [by eexists|].
    unfold ExecContext. cbn [run]. by rewrite Hd0.
  - intros Hex. destruct (Hbad Hex) as (s' & Hrun). split; [by exists s'|].
    unfold mySQLLogStorage_AddSequencedLeaves. by rewrite Hrun.
Qed.

(** X17: adding a batch of sequenced leaves a second time changes
    nothing.  After [AddSequencedLeaves] has taken a batch, the same batch
    (at any time) succeeds again as a call, leaves every table as the
    first call left it, and reports [FAILED_PRECONDITION] for every leaf:
    the leaves the first call stored are in their own way, and a leaf the
    first call refused is refused again. *)
Theorem AddSequencedLeaves_twice (leaves : list LogLeaf) (first again : Time) (s : sqlTx) :
  Forall (λ l, len (LeafIdentityHash l) = hashSizeBytes t) leaves →
  ∃ res1 s1 res2 s2,
    AddSequencedLeaves sort_Sort t leaves first s = (Ok res1, s1)
    ∧ AddSequencedLeaves sort_Sort t leaves again s1 = (Ok res2, s2)
    ∧ db s2 = db s1
    ∧ length res2 = length leaves
    ∧ ∀ (i : nat) l, leaves !! i = Some l →
        slot_code res2 i = Some codes_FailedPrecondition.
Proof.
  intros Hsize.
  pose proof (sorted_batch_size leaves Hsize) as Hsz.
  pose proof (sortLeavesForInsert_NoDup sort_Sort sort_Sort_Permutation leaves) as Hnd.
  assert (Hrange : Forall (λ ol, (idx ol < length (replicate (length leaves)
                                                    (@None QueuedLogLeaf)))%nat)
                     (sortLeavesForInsert sort_Sort leaves)).
  { rewrite length_replicate. by apply sortLeavesForInsert_in_range. }
  set (s0 := {| db := db s; savepoint := Some (db s); executed := executed s ++ [SAVEPOINT] |}).
  destruct (AddSequencedLeaves_loop_spec t first (sortLeavesForInsert sort_Sort leaves) s0
              (replicate (length leaves) None) Hsz Hnd Hrange)
    as (res1 & s1 & tr & Hrun1 & _ & _ & Hsp1 & _).
  pose proof (AddSequencedLeaves_loop_in_the_way t first _ _ _ _ _ Hsz Hnd Hrange Hrun1)
    as Hway.
  destruct Hsp1 as [d1 Hd1]; [by eexists|].
  set (s1' := {| db := db s1; savepoint := None;
                 executed := executed s1 ++ [RELEASE_SAVEPOINT] |}).
  assert (H1 : AddSequencedLeaves sort_Sort t leaves first s = (Ok res1, s1')).
  { unfold AddSequencedLeaves, ExecContext at 1. cbn [run db savepoint executed]. fold s0.
    rewrite Hrun1. unfold ExecContext. cbn [run]. by rewrite Hd1. }
  set (s2 := {| db := db s1'; savepoint := Some (db s1');
                executed := executed s1' ++ [SAVEPOINT] |}).
  destruct (AddSequencedLeaves_loop_refused t again (sortLeavesForInsert sort_Sort leaves) s2
              (replicate (length leaves) None) Hsz Hnd Hrange)
    as (res2 & s3 & Hrun2 & Hlen2 & _ & Hsp2 & Hdb2 & Hall).
  { eapply Forall_impl; [exact Hway|]. intros ol. unfold in_the_way. by cbn. }
  destruct Hsp2 as [d2 Hd2]; [by eexists|].
  exists res1, s1', res2. eexists. split; [done|]. split.
  { unfold AddSequencedLeaves, ExecContext at 1. cbn [run db savepoint executed]. fold s2.
    rewrite Hrun2. unfold ExecContext. cbn [run]. by rewrite Hd2. }
  cbn [db]. split; [by rewrite Hdb2|]. rewrite length_replicate in Hlen2. split; [done|].
  intros i l Hl. rewrite Forall_forall in Hall.
  apply (Hall {| leaf := l; idx := i |}).
  by apply (sortLeavesForInsert_elem_of sort_Sort sort_Sort_Permutation).
Qed.

End AddSequencedTwice.

Lemma AddSequencedLeaves_rejects_batch_witness :
  (∀ l, example_sort l ≡ₚ l)
  ∧ is_Ok (AddSequencedLeaves example_sort s5_tx s5_batch 2000 s5_sql).1 = true
  ∧ mySQLLogStorage_AddSequencedLeaves example_sort (Ok s5_tx)
      [sequenced_leaf Byte.x01 7;
       {| MerkleLeafHash := []; LeafValue := []; ExtraData := []; LeafIndex := 8;
          LeafIdentityHash := [Byte.x02]; QueueTimestamp := None;
          IntegrateTimestamp := None |}] 2000 s5_sql
    = (Err (status_Errorf codes_FailedPrecondition "leaves[i] has incorrect hash size"),
       s5_sql).
Proof.
  split; [exact example_sort_Permutation|]. split.
  - apply (AddSequencedLeaves_rejects_batch example_sort example_sort_Permutation s5_tx
             s5_batch 2000 s5_sql). repeat constructor.
  - apply (AddSequencedLeaves_rejects_batch example_sort example_sort_Permutation s5_tx).
    apply Exists_cons. right. apply Exists_cons. left. cbn. unfold len. cbn. lia.
Defined.

Lemma AddSequencedLeaves_twice_witness :
  Forall (λ l, len (LeafIdentityHash l) = hashSizeBytes s5_tx) s5_batch
  ∧ ∃ res1 s1 res2 s2,
      AddSequencedLeaves example_sort s5_tx s5_batch 2000 s5_sql = (Ok res1, s1)
      ∧ AddSequencedLeaves example_sort s5_tx s5_batch 3000 s1 = (Ok res2, s2)
      ∧ db s2 = db s1.
Proof.
  assert (Hsize : Forall (λ l, len (LeafIdentityHash l) = hashSizeBytes s5_tx) s5_batch)
    by (repeat constructor).
  split; [exact Hsize|].
  destruct (AddSequencedLeaves_twice example_sort example_sort_Permutation s5_tx s5_batch
              2000 3000 s5_sql Hsize) as (res1 & s1 & res2 & s2 & H1 & H2 & Hdb & _).
  by exists res1, s1, res2, s2.
Defined.

(** ** Reading leaves by range *)

Lemma selectLeavesByRangeSQL_elem_of (d : DB) (lo hi treeID : Z) (r : leafRow) :
  r ∈ selectLeavesByRangeSQL d lo hi treeID
  ↔ ∃ l q, sequenced_in d treeID l q ∧ lo ≤ sl_SequenceNumber q < hi ∧ r = joined l q.
Proof.
  unfold selectLeavesByRangeSQL, sequenced_in. rewrite merge_sort_Permutation.
  rewrite list_elem_of_In, in_flat_map. split.
  - intros (l & Hl%list_elem_of_In & Hr).
    apply list_elem_of_In, list_elem_of_fmap in Hr as (q & -> & Hq).
    apply list_elem_of_filter in Hq as [(Hh & ? & ? & Hid & Hid') Hq].
    exists l, q. repeat split; try done; try lia; congruence.
  - intros (l & q & (Hl & Hq & Hid & Hid' & Hh) & Hseq & ->).
    exists l. split; [by apply list_elem_of_In|].
    apply list_elem_of_In, list_elem_of_fmap. exists q. split; [done|].
    apply list_elem_of_filter. split; [|done]. repeat split; try done; try lia; congruence.
Qed.

Lemma scan_prefix (t : logTreeTX) (rows : list leafRow) (w : Z) (ret : list LogLeaf) :
  Forall scannable rows →
  getLeavesByRange_scan t rows w = Ok ret →
  ∃ n, ret = leaf_of_row <$> take n rows.
Proof.
  revert w ret. induction rows as [|r rows IH]; intros w ret Hrows Hscan.
  { cbn in Hscan. simplify_eq. by exists 0%nat. }
  apply Forall_cons in Hrows as [[Hseq [i Hi]] Hrows].
  cbn [getLeavesByRange_scan] in Hscan. rewrite Hi in Hscan.
  cbn [LeafIndex set_QueueTimestamp set_IntegrateTimestamp QueueTimestamp IntegrateTimestamp]
    in Hscan.
  case_bool_decide as Hw.
  { exists 0%nat. case_bool_decide; by simplify_eq. }
  rewrite !Timestamp_CheckValid_int64 in Hscan.
  destruct (getLeavesByRange_scan t rows (int64 (w + 1))) as [ret'|] eqn:Hrec; [|done].
  simplify_eq. destruct (IH _ _ Hrows Hrec) as (n & ->).
  exists (S n). cbn. f_equal. unfold leaf_of_row. by rewrite Hi.
Qed.

Lemma int64_le (z : Z) : 0 ≤ z → int64 z ≤ z.
Proof.
  intros Hz. unfold int64.
  pose proof (Z.mod_le (z + 2 ^ 63) (2 ^ 64)). lia.
Qed.

Lemma GetLeavesByRange_Ok (t : logTreeTX) (start count : Z) (s : sqlTx) (ret : list LogLeaf) :
  GetLeavesByRange t start count s = Ok ret →
  0 ≤ start
  ∧ ∃ count', 0 < count' ≤ count
      ∧ (treeType t = LOG → start + count' ≤ int64 (TreeSize (root t)))
      ∧ getLeavesByRange_scan t
          (selectLeavesByRangeSQL (db s) start (int64 (start + count')) (treeID t)) start
        = Ok ret.
Proof.
  unfold GetLeavesByRange, getLeavesByRangeInternal.
  case_bool_decide as Hcount; [done|]. case_bool_decide as Hstart; [done|].
  case_bool_decide as Htype.
  - case_bool_decide; [done|]. case_bool_decide; [done|].
    case_bool_decide; (destruct (makeslice_cap_out_of_range _); [done|]); intros Hscan;
      (split; [lia|]); eexists; (split; [|split; [|exact Hscan]]); lia.
  - destruct (makeslice_cap_out_of_range _); [done|].
    intros Hscan. split; [lia|]. exists count. split; [lia|]. split; [done|exact Hscan].
Qed.

(** X18: what [GetLeavesByRange] returns is stored and within bounds.
    The call never returns more than [count] leaves, for a [LOG] tree never
    a leaf at or beyond the tree size, and every leaf it returns is built
    from a leaf-store row and a sequence-store row of this tree that agree
    on the identity hash, at the index the sequence store gives it. *)
Theorem GetLeavesByRange_returns_stored (t : logTreeTX) (start count : Z) (s : sqlTx)
  (ret : list LogLeaf) :
  GetLeavesByRange t start count s = Ok ret →
  len ret ≤ count
  ∧ (treeType t = LOG → Forall (λ leaf, LeafIndex leaf < int64 (TreeSize (root t))) ret)
  ∧ Forall (λ leaf, start ≤ LeafIndex leaf < start + count
                    ∧ ∃ l q, sequenced_in (db s) (treeID t) l q
                        ∧ leaf = leaf_of_row (joined l q)
                        ∧ LeafIndex leaf = sl_SequenceNumber q) ret.
Proof.
  intros (Hstart & count' & Hcount & Hlog & Hscan)%GetLeavesByRange_Ok.
  pose proof (range_rows_scannable t (db s) start (start + count') Hstart) as Hrows.
  destruct (scan_prefix _ _ _ _ Hrows Hscan) as (n & Hret).
  pose proof (int64_le (start + count') ltac:(lia)) as Hhi.
  assert (Hall : Forall (λ leaf, start ≤ LeafIndex leaf < start + count'
                    ∧ ∃ l q, sequenced_in (db s) (treeID t) l q
                        ∧ leaf = leaf_of_row (joined l q)
                        ∧ LeafIndex leaf = sl_SequenceNumber q) ret).
  { rewrite Hret. apply Forall_forall. intros leaf (r & -> & Hr)%list_elem_of_fmap.
    apply elem_of_take in Hr as (i & Hr & _). apply list_elem_of_lookup_2 in Hr.
    pose proof Hr as (l & q & Hin & Hseq & ->)%selectLeavesByRangeSQL_elem_of.
    pose proof (int64_range (start + count')).
    assert (LeafIndex (leaf_of_row (joined l q)) = sl_SequenceNumber q) as Hidx
      by (cbn; apply int64_id; lia).
    rewrite Hidx. split; [lia|]. by exists l, q. }
  split; [|split].
  - destruct (decide (ret = [])) as [->|Hne]; [unfold len; cbn; lia|].
    assert (is_Some (ret !! (length ret - 1)%nat)) as [leaf Hleaf].
    { apply lookup_lt_is_Some. destruct ret; [done|]. cbn. lia. }
    pose proof (scan_dense t _ _ _ Hrows Hscan _ _ Hleaf) as Hidx.
    rewrite Forall_forall in Hall.
    destruct (Hall leaf (list_elem_of_lookup_2 _ _ _ Hleaf)) as [Hb _].
    unfold len. destruct ret; [done|]. cbn in *. lia.
  - intros Htype. eapply Forall_impl; [exact Hall|]. intros leaf [Hb _].
    specialize (Hlog Htype). lia.
  - eapply Forall_impl; [exact Hall|]. intros leaf [Hb Hex]. split; [lia|done].
Qed.

Lemma GetLeavesByRange_returns_stored_witness :
  GetLeavesByRange gap_tx 0 2 gap_sql
  = Ok [leaf_of_row {| row_MerkleLeafHash := h32 Byte.x00;
                       row_LeafIdentityHash := h32 Byte.x00; row_LeafValue := [Byte.x00];
                       row_SequenceNumber := 0; row_ExtraData := [];
                       row_QueueTimestampNanos := 10;
                       row_IntegrateTimestampNanos := Some 20 |};
         leaf_of_row {| row_MerkleLeafHash := h32 Byte.x01;
                        row_LeafIdentityHash := h32 Byte.x01; row_LeafValue := [Byte.x01];
                        row_SequenceNumber := 1; row_ExtraData := [];
                        row_QueueTimestampNanos := 10;
                        row_IntegrateTimestampNanos := Some 20 |}]
  ∧ len (default [] (err_of_ok (GetLeavesByRange gap_tx 0 2 gap_sql))) ≤ 2.
Proof.
  assert (Hrun : GetLeavesByRange gap_tx 0 2 gap_sql
                 = Ok (default [] (err_of_ok (GetLeavesByRange gap_tx 0 2 gap_sql))))
    by (vm_compute; reflexivity).
  split; [vm_compute; reflexivity|].
  apply (GetLeavesByRange_returns_stored gap_tx 0 2 gap_sql _ Hrun).
Defined.

(** ** Reading back what was added *)

Lemma filter_unique {A} (P : A → Prop) `{!∀ x, Decision (P x)} (l : list A) (x : A) :
  NoDup l → x ∈ l → P x → (∀ y, y ∈ l → P y → y = x) → filter P l = [x].
Proof.
  induction l as [|a l IH]; intros Hnd Hx HP Huniq.
  - by apply elem_of_nil in Hx.
  - apply NoDup_cons in Hnd as [Ha Hnd].
    apply elem_of_cons in Hx as [->|Hx].
    + rewrite filter_cons_True by done. f_equal. apply filter_none, Forall_forall.
      intros y Hy HPy. apply Ha. rewrite <- (Huniq y); [done| |done]. by right.
    + rewrite filter_cons_False.
      * apply IH; [done|done|done|]. intros y Hy. apply Huniq. by right.
      * intros HPa. apply Ha. rewrite (Huniq a); [done|left|done].
Qed.

Lemma flat_map_nil {A B} (F : A → list B) (l : list A) :
  (∀ y, y ∈ l → F y = []) → flat_map F l = [].
Proof.
  induction l as [|a l IH]; intros Hnil; [done|].
  cbn. rewrite (Hnil a) by left. cbn. apply IH. intros y Hy. apply Hnil. by right.
Qed.

Lemma flat_map_unique {A B} (F : A → list B) (l : list A) (x : A) :
  NoDup l → x ∈ l → (∀ y, y ∈ l → y ≠ x → F y = []) → flat_map F l = F x.
Proof.
  induction l as [|a l IH]; intros Hnd Hx Hnil.
  - by apply elem_of_nil in Hx.
  - apply NoDup_cons in Hnd as [Ha Hnd]. cbn.
    apply elem_of_cons in Hx as [->|Hx].
    + rewrite flat_map_nil; [by rewrite app_nil_r|].
      intros y Hy. apply Hnil; [by right|]. by intros ->.
    + rewrite (Hnil a); [|left|by intros ->]. cbn.
      apply IH; [done|done|]. intros y Hy. apply Hnil. by right.
Qed.

Lemma Sequence_key_conflict (a b : SequencedLeafDataRow) :
  Sequence_key a = Sequence_key b → SequencedLeafData_conflict a b = true.
Proof.
  unfold Sequence_key, SequencedLeafData_conflict. intros [= Hid Hseq].
  rewrite !bool_decide_eq_true_2 by done. done.
Qed.

Lemma int64_int64 (z : Z) : int64 (int64 z) = int64 z.
Proof. apply int64_id, int64_range. Qed.

Section ReadBack.

Variable t : logTreeTX.
Variable timestamp : Time.

Lemma AddSequencedLeaves_body_keys (ol : leafAndPosition) (s : sqlTx)
  (res res' : list (option QueuedLogLeaf)) (s' : sqlTx) :
  AddSequencedLeaves_body t timestamp ol s res = (Ok res', s') →
  NoDup (LeafData_key <$> LeafData (db s)) →
  NoDup (Sequence_key <$> SequencedLeafData (db s)) →
  NoDup (LeafData_key <$> LeafData (db s'))
  ∧ NoDup (Sequence_key <$> SequencedLeafData (db s')).
Proof.
  intros Hrun Hld Hsq.
  destruct (decide (len (LeafIdentityHash (leaf ol)) = hashSizeBytes t)) as [Hsz|Hsz].
  2:{ unfold AddSequencedLeaves_body in Hrun. by rewrite bool_decide_eq_true_2 in Hrun. }
  destruct (AddSequencedLeaves_body_spec t timestamp ol s res Hsz)
    as (st & s1 & tr & Hbody & _ & _ & _ & Hcase).
  rewrite Hbody in Hrun. injection Hrun as _ <-.
  destruct Hcase as [(_ & -> & Hnold & Hnosq)|(_ & -> & _)]; [|done].
  unfold add_sequenced. cbn. rewrite !fmap_app. split.
  - apply NoDup_app. split; [done|]. split; [|apply NoDup_singleton].
    intros k (r & -> & Hr)%list_elem_of_fmap Hk%list_elem_of_singleton.
    rewrite Forall_forall in Hnold. specialize (Hnold r Hr).
    apply not_true_iff_false in Hnold. apply Hnold. by apply LeafData_conflict_key.
  - apply NoDup_app. split; [done|]. split; [|apply NoDup_singleton].
    intros k (r & -> & Hr)%list_elem_of_fmap Hk%list_elem_of_singleton.
    rewrite Forall_forall in Hnosq. specialize (Hnosq r Hr).
    apply not_true_iff_false in Hnosq. apply Hnosq. by apply Sequence_key_conflict.
Qed.

Lemma AddSequencedLeaves_loop_keys (ords : list leafAndPosition) (s : sqlTx)
  (res res' : list (option QueuedLogLeaf)) (s' : sqlTx) :
  AddSequencedLeaves_loop t timestamp ords s res = (Ok res', s') →
  NoDup (LeafData_key <$> LeafData (db s)) →
  NoDup (Sequence_key <$> SequencedLeafData (db s)) →
  NoDup (LeafData_key <$> LeafData (db s'))
  ∧ NoDup (Sequence_key <$> SequencedLeafData (db s')).
Proof.
  revert s res. induction ords as [|ol ords IH]; intros s res Hrun Hld Hsq.
  - cbn in Hrun. by injection Hrun as _ <-.
  - cbn [AddSequencedLeaves_loop] in Hrun.
    destruct (AddSequencedLeaves_body t timestamp ol s res) as [[res1|e] s1] eqn:Hbody; [|done].
    destruct (AddSequencedLeaves_body_keys _ _ _ _ _ Hbody Hld Hsq) as [Hld1 Hsq1].
    by eapply IH.
Qed.

Lemma selectLeavesByRangeSQL_one (d : DB) (l : LogLeaf) :
  NoDup (LeafData_key <$> LeafData d) →
  NoDup (Sequence_key <$> SequencedLeafData d) →
  leafData_row t (UnixNano timestamp) l ∈ LeafData d →
  sequenced_row t l ∈ SequencedLeafData d →
  selectLeavesByRangeSQL d (LeafIndex l) (LeafIndex l + 1) (treeID t)
  = [joined (leafData_row t (UnixNano timestamp) l) (sequenced_row t l)].
Proof.
  intros Hld Hsq Hl Hq. unfold selectLeavesByRangeSQL.
  set (ld0 := leafData_row t (UnixNano timestamp) l) in *.
  set (sq0 := sequenced_row t l) in *.
  assert (Hsq0 : ∀ ld q, q ∈ SequencedLeafData d →
            ld_LeafIdentityHash ld = sl_LeafIdentityHash q
            ∧ sl_SequenceNumber q >= LeafIndex l ∧ sl_SequenceNumber q < LeafIndex l + 1
            ∧ ld_TreeId ld = treeID t ∧ sl_TreeId q = ld_TreeId ld →
            q = sq0).
  { intros ld q Hin (_ & ? & ? & Hid & Hid').
    apply (NoDup_fmap_eq Sequence_key (SequencedLeafData d)); [done|done|done|].
    unfold Sequence_key, sq0. cbn. f_equal; [congruence|lia]. }
  rewrite (flat_map_unique _ (LeafData d) ld0).
  - rewrite (filter_unique _ (SequencedLeafData d) sq0).
    + reflexivity.
    + by eapply NoDup_fmap_1.
    + done.
    + unfold ld0, sq0. cbn. repeat split; lia.
    + intros q Hin HP. by eapply Hsq0.
  - by eapply NoDup_fmap_1.
  - done.
  - intros ld Hin Hne. rewrite filter_none; [done|].
    apply Forall_forall. intros q Hqin HP. apply Hne.
    pose proof (Hsq0 ld q Hqin HP) as ->. destruct HP as (Hh & _ & _ & Hid & _).
    apply (NoDup_fmap_eq LeafData_key (LeafData d)); [done|done|done|].
    unfold LeafData_key, ld0. cbn. f_equal; [done|]. by rewrite Hh.
Qed.

End ReadBack.

Section ReadBackContract.

Variable sort_Sort : list leafAndPosition → list leafAndPosition.
Hypothesis sort_Sort_Permutation : ∀ l, sort_Sort l ≡ₚ l.

Variable t : logTreeTX.

Lemma AddSequencedLeaves_keys (leaves : list LogLeaf) (timestamp : Time) (s : sqlTx)
  (res : list (option QueuedLogLeaf)) (s' : sqlTx) :
  AddSequencedLeaves sort_Sort t leaves timestamp s = (Ok res, s') →
  NoDup (LeafData_key <$> LeafData (db s)) →
  NoDup (Sequence_key <$> SequencedLeafData (db s)) →
  NoDup (LeafData_key <$> LeafData (db s'))
  ∧ NoDup (Sequence_key <$> SequencedLeafData (db s')).
Proof.
  unfold AddSequencedLeaves, ExecContext at 1. cbn [run db savepoint executed].
  intros Hrun Hld Hsq.
  match type of Hrun with context [AddSequencedLeaves_loop _ _ ?ords ?s1 ?res0] =>
    destruct (AddSequencedLeaves_loop t timestamp ords s1 res0) as [[res1|e] s2] eqn:Hloop
  end; [|done].
  destruct (AddSequencedLeaves_loop_keys _ _ _ _ _ _ _ Hloop Hld Hsq) as [Hld2 Hsq2].
  unfold ExecContext in Hrun. cbn [run] in Hrun.
  destruct (savepoint s2); cbn in Hrun; [|done]. by injection Hrun as _ <-.
Qed.

(** X19: a leaf that [AddSequencedLeaves] reports as [OK] can be read back
    by [GetLeavesByRange] at its index, in a pre-ordered log whose tables
    had their keys: the range of one leaf from the leaf's index returns
    exactly that leaf, with the hashes, the value and the extra data it was
    given, the time of the call as its queue timestamp and the zero time
    as its integrate timestamp. *)
Theorem AddSequencedLeaves_then_GetLeavesByRange (leaves : list LogLeaf) (timestamp : Time)
  (s : sqlTx) (res : list (option QueuedLogLeaf)) (s' : sqlTx) (i : nat) (l : LogLeaf) :
  treeType t = PREORDERED_LOG →
  NoDup (LeafData_key <$> LeafData (db s)) →
  NoDup (Sequence_key <$> SequencedLeafData (db s)) →
  AddSequencedLeaves sort_Sort t leaves timestamp s = (Ok res, s') →
  leaves !! i = Some l →
  slot_code res i = Some codes_OK →
  0 ≤ LeafIndex l < 2 ^ 63 - 1 →
  GetLeavesByRange t (LeafIndex l) 1 s'
  = Ok [{| MerkleLeafHash := MerkleLeafHash l; LeafValue := LeafValue l;
           ExtraData := ExtraData l; LeafIndex := LeafIndex l;
           LeafIdentityHash := LeafIdentityHash l;
           QueueTimestamp := Some (timestamppb_New (UnixNano timestamp));
           IntegrateTimestamp := Some (timestamppb_New 0) |}].
Proof.
  intros Htype Hld Hsq Hrun Hl Hok Hidx.
  destruct (AddSequencedLeaves_keys _ _ _ _ _ Hrun Hld Hsq) as [Hld' Hsq'].
  destruct (AddSequencedLeaves_Ok sort_Sort sort_Sort_Permutation _ _ _ _ _ _ Hrun)
    as (_ & _ & Hstored).
  destruct (Hstored i l Hl Hok) as [Hrow Hseq].
  unfold GetLeavesByRange, getLeavesByRangeInternal.
  rewrite bool_decide_eq_false_2 by lia. rewrite bool_decide_eq_false_2 by lia.
  rewrite bool_decide_eq_false_2 by (by rewrite Htype).
  rewrite (int64_id (LeafIndex l + 1)) by lia.
  rewrite (selectLeavesByRangeSQL_one t timestamp (db s') l Hld' Hsq' Hrow Hseq).
  cbn [getLeavesByRange_scan joined row_IntegrateTimestampNanos sequenced_row leafData_row
         sl_IntegrateTimestampNanos row_SequenceNumber sl_SequenceNumber
         row_QueueTimestampNanos ld_QueueTimestampNanos
         LeafIndex set_QueueTimestamp set_IntegrateTimestamp QueueTimestamp
         IntegrateTimestamp].
  rewrite (int64_id (LeafIndex l)) by lia.
  rewrite bool_decide_eq_false_2 by (by intros Hne; apply Hne).
  rewrite !Timestamp_CheckValid_int64. unfold UnixNano. rewrite int64_int64. done.
Qed.

End ReadBackContract.

Lemma AddSequencedLeaves_then_GetLeavesByRange_witness :
  treeType s5_tx = PREORDERED_LOG
  ∧ ∃ res s',
      AddSequencedLeaves example_sort s5_tx s5_batch 2000 s5_sql = (Ok res, s')
      ∧ slot_code res 0 = Some codes_OK
      ∧ option_map (map LeafValue) (err_of_ok (GetLeavesByRange s5_tx 3 1 s'))
        = Some [[Byte.x0e]].
Proof.
  split; [done|].
  destruct (AddSequencedLeaves example_sort s5_tx s5_batch 2000 s5_sql) as [r s'] eqn:Hrun.
  assert (Hr : ∃ res, r = Ok res ∧ slot_code res 0 = Some codes_OK).
  { vm_compute in Hrun. injection Hrun as <- _. by eexists. }
  destruct Hr as (res & -> & Hok).
  exists res, s'. split; [done|]. split; [done|].
  assert (Hld : NoDup (LeafData_key <$> LeafData (db s5_sql))).
  { apply (bool_decide_unpack _). by vm_compute. }
  assert (Hsq : NoDup (Sequence_key <$> SequencedLeafData (db s5_sql))).
  { apply (bool_decide_unpack _). by vm_compute. }
  change (GetLeavesByRange s5_tx 3 1 s')
    with (GetLeavesByRange s5_tx (LeafIndex (sequenced_leaf Byte.x0e 3)) 1 s').
  rewrite (AddSequencedLeaves_then_GetLeavesByRange example_sort example_sort_Permutation
             s5_tx s5_batch 2000 s5_sql res s' 0 (sequenced_leaf Byte.x0e 3)
             eq_refl Hld Hsq Hrun eq_refl Hok); [done|].
  cbn. lia.
Defined.

(** ** Looking leaves up by Merkle hash *)

Lemma getLeavesByHash_scan_joined (t : logTreeTX) (rows : list leafRow) :
  Forall (λ r, is_Some (row_IntegrateTimestampNanos r)) rows →
  getLeavesByHash_scan t rows
  = if decide (Forall (λ r, len (row_MerkleLeafHash r) = hashSizeBytes t) rows)
    then Ok (leaf_of_row <$> rows)
    else Err (fmt_Errorf "Scanned leaf does not have the hash length").
Proof.
  induction rows as [|r rows IH]; intros Hrows.
  { cbn. by rewrite decide_True by constructor. }
  apply Forall_cons in Hrows as [[i Hi] Hrows]. specialize (IH Hrows).
  cbn [getLeavesByHash_scan QueueTimestamp]. rewrite Hi.
  cbn [set_IntegrateTimestamp IntegrateTimestamp MerkleLeafHash].
  rewrite !Timestamp_CheckValid_int64.
  destruct (decide (len (row_MerkleLeafHash r) = hashSizeBytes t)) as [Hlen|Hlen].
  - rewrite bool_decide_eq_false_2 by (by intros Hne; apply Hne). rewrite IH.
    destruct (decide (Forall _ rows)) as [Hall|Hall].
    + rewrite decide_True by (by constructor). rewrite fmap_cons. unfold leaf_of_row at 2.
      by rewrite Hi.
    + rewrite decide_False; [done|]. by intros [_ ?]%Forall_cons.
  - rewrite bool_decide_eq_true_2 by done.
    rewrite decide_False; [done|]. by intros [? _]%Forall_cons.
Qed.

Lemma selectLeavesByMerkleHashSQL_elem_of (d : DB) (hashes : list bytes) (treeID : Z)
  (r : leafRow) :
  r ∈ selectLeavesByMerkleHashSQL d hashes treeID
  ↔ ∃ l q, sequenced_in d treeID l q ∧ sl_MerkleLeafHash q ∈ hashes ∧ r = joined l q.
Proof.
  unfold selectLeavesByMerkleHashSQL, sequenced_in.
  rewrite list_elem_of_In, in_flat_map. split.
  - intros (l & Hl%list_elem_of_In & Hr%list_elem_of_In).
    apply list_elem_of_fmap in Hr as (q & -> & Hq).
    apply list_elem_of_filter in Hq as [(Hh & Hm & Hid & Hid') Hq].
    exists l, q. repeat split; try done. congruence.
  - intros (l & q & (Hl & Hq & Hid & Hid' & Hh) & Hm & ->).
    exists l. split; [by apply list_elem_of_In|]. apply list_elem_of_In.
    apply list_elem_of_fmap. exists q. split; [done|].
    apply list_elem_of_filter. repeat split; try done. congruence.
Qed.

Lemma selectLeavesByMerkleHashSQL_integrated (d : DB) (hashes : list bytes) (treeID : Z) :
  Forall (λ r, is_Some (row_IntegrateTimestampNanos r))
    (selectLeavesByMerkleHashSQL d hashes treeID).
Proof.
  apply Forall_forall. intros r (l & q & _ & _ & ->)%selectLeavesByMerkleHashSQL_elem_of.
  by eexists.
Qed.

Lemma SequenceNumber_le_trans : Transitive SequenceNumber_le.
Proof. unfold SequenceNumber_le. intros a b c. lia. Qed.

Lemma SequenceNumber_le_total : Total SequenceNumber_le.
Proof. unfold SequenceNumber_le. intros a b. lia. Qed.

Lemma getLeavesByMerkleHashStmt_Permutation (orderBySequence : bool) (d : DB)
  (hashes : list bytes) (treeID : Z) :
  getLeavesByMerkleHashStmt orderBySequence d hashes treeID
  ≡ₚ selectLeavesByMerkleHashSQL d hashes treeID.
Proof.
  destruct orderBySequence; [|done]. apply merge_sort_Permutation.
Qed.

Lemma GetLeavesByHash_rows (t : logTreeTX) (leafHashes : list bytes) (orderBySequence : bool)
  (s : sqlTx) :
  GetLeavesByHash t leafHashes orderBySequence s
  = if decide (Forall (λ r, len (row_MerkleLeafHash r) = hashSizeBytes t)
                 (selectLeavesByMerkleHashSQL (db s) leafHashes (treeID t)))
    then Ok (leaf_of_row
               <$> getLeavesByMerkleHashStmt orderBySequence (db s) leafHashes (treeID t))
    else Err (fmt_Errorf "Scanned leaf does not have the hash length").
Proof.
  unfold GetLeavesByHash.
  pose proof (getLeavesByMerkleHashStmt_Permutation orderBySequence (db s) leafHashes (treeID t))
    as Hperm.
  rewrite getLeavesByHash_scan_joined.
  2:{ rewrite Hperm. apply selectLeavesByMerkleHashSQL_integrated. }
  destruct (decide (Forall _ (getLeavesByMerkleHashStmt _ _ _ _))) as [Hall|Hall].
  - rewrite decide_True; [done|]. by rewrite <- Hperm.
  - rewrite decide_False; [done|]. by rewrite <- Hperm.
Qed.

(** X20: what [GetLeavesByHash] finds.  When the call succeeds for a
    non-empty list of Merkle hashes, the leaves it returns are exactly the
    sequenced leaves of this tree whose Merkle hash is one of those asked
    for: each returned leaf is built from a leaf-store row and a
    sequence-store row of the tree that agree on the identity hash, and
    every such pair with a listed Merkle hash is returned.  Every returned
    Merkle hash has the hash size of the tree. *)
Theorem GetLeavesByHash_finds (t : logTreeTX) (leafHashes : list bytes)
  (orderBySequence : bool) (s : sqlTx) (ret : list LogLeaf) :
  leafHashes ≠ [] →
  GetLeavesByHash t leafHashes orderBySequence s = Ok ret →
  (∀ leaf, leaf ∈ ret ↔
     ∃ l q, sequenced_in (db s) (treeID t) l q
            ∧ sl_MerkleLeafHash q ∈ leafHashes
            ∧ leaf = leaf_of_row (joined l q))
  ∧ Forall (λ leaf, MerkleLeafHash leaf ∈ leafHashes
                    ∧ len (MerkleLeafHash leaf) = hashSizeBytes t) ret.
Proof.
  intros _. rewrite GetLeavesByHash_rows.
  destruct (decide (Forall _ _)) as [Hall|]; [|done]. intros [= <-].
  pose proof (getLeavesByMerkleHashStmt_Permutation orderBySequence (db s) leafHashes (treeID t))
    as Hperm.
  assert (Hiff : ∀ leaf,
    leaf ∈ leaf_of_row
             <$> getLeavesByMerkleHashStmt orderBySequence (db s) leafHashes (treeID t)
    ↔ ∃ l q, sequenced_in (db s) (treeID t) l q
             ∧ sl_MerkleLeafHash q ∈ leafHashes
             ∧ leaf = leaf_of_row (joined l q)).
  { intros leaf. rewrite list_elem_of_fmap. split.
    - intros (r & -> & Hr). rewrite Hperm in Hr.
      apply selectLeavesByMerkleHashSQL_elem_of in Hr as (l & q & Hin & Hm & ->). eauto.
    - intros (l & q & Hin & Hm & ->). exists (joined l q). split; [done|].
      rewrite Hperm. apply selectLeavesByMerkleHashSQL_elem_of. eauto. }
  split; [exact Hiff|].
  apply Forall_forall. intros leaf Hleaf.
  pose proof Hleaf as (l & q & Hin & Hm & ->)%Hiff. split; [done|].
  rewrite Forall_forall in Hall. apply (Hall (joined l q)).
  apply selectLeavesByMerkleHashSQL_elem_of. eauto.
Qed.

Lemma GetLeavesByHash_finds_witness :
  [h32 Byte.x22] ≠ []
  ∧ LeafIndex <$> default [] (err_of_ok
      (GetLeavesByHash preordered_tx [h32 Byte.x22] false preordered_sql)) = [1]
  ∧ Forall (λ leaf, MerkleLeafHash leaf ∈ [h32 Byte.x22]
                    ∧ len (MerkleLeafHash leaf) = hashSizeBytes preordered_tx)
      (default [] (err_of_ok
         (GetLeavesByHash preordered_tx [h32 Byte.x22] false preordered_sql))).
Proof.
  assert (Hrun : GetLeavesByHash preordered_tx [h32 Byte.x22] false preordered_sql
                 = Ok (default [] (err_of_ok
                         (GetLeavesByHash preordered_tx [h32 Byte.x22] false preordered_sql))))
    by (vm_compute; reflexivity).
  split; [done|]. split; [vm_compute; reflexivity|].
  apply (GetLeavesByHash_finds preordered_tx [h32 Byte.x22] false preordered_sql _
           ltac:(done) Hrun).
Defined.

(** X21: [orderBySequence] changes only the order of what
    [GetLeavesByHash] returns.  With and without it the call fails with the
    same error or returns the same leaves up to their order; with it, the
    leaves come in ascending order of the sequence number, which is the
    order of their leaf indices when the stored sequence numbers are
    non-negative 64-bit integers. *)
Theorem GetLeavesByHash_orderBySequence (t : logTreeTX) (leafHashes : list bytes) (s : sqlTx) :
  leafHashes ≠ [] →
  match GetLeavesByHash t leafHashes true s, GetLeavesByHash t leafHashes false s with
  | Ok sorted, Ok unsorted =>
      sorted ≡ₚ unsorted
      ∧ (Forall (λ q, 0 ≤ sl_SequenceNumber q < 2 ^ 63) (SequencedLeafData (db s)) →
         StronglySorted (λ a b, LeafIndex a ≤ LeafIndex b) sorted)
  | Err e, Err e' => e = e'
  | _, _ => False
  end.
Proof.
  intros _. rewrite !GetLeavesByHash_rows.
  destruct (decide (Forall _ _)) as [Hall|]; [|done].
  split.
  { apply fmap_Permutation. apply (getLeavesByMerkleHashStmt_Permutation true). }
  intros Hrange. cbn [getLeavesByMerkleHashStmt].
  unfold selectLeavesByMerkleHashOrderedBySequenceSQL.
  pose proof (@StronglySorted_merge_sort _ SequenceNumber_le _ SequenceNumber_le_trans
                SequenceNumber_le_total
                (selectLeavesByMerkleHashSQL (db s) leafHashes (treeID t))) as Hsorted.
  pose proof (merge_sort_Permutation SequenceNumber_le
                (selectLeavesByMerkleHashSQL (db s) leafHashes (treeID t))) as Hperm.
  assert (Hin : Forall (λ r, 0 ≤ row_SequenceNumber r < 2 ^ 63)
                  (merge_sort SequenceNumber_le
                     (selectLeavesByMerkleHashSQL (db s) leafHashes (treeID t)))).
  { rewrite Hperm. apply Forall_forall.
    intros r (l & q & (_ & Hq & _) & _ & ->)%selectLeavesByMerkleHashSQL_elem_of.
    rewrite Forall_forall in Hrange. apply (Hrange q Hq). }
  revert Hsorted Hin. generalize (merge_sort SequenceNumber_le
    (selectLeavesByMerkleHashSQL (db s) leafHashes (treeID t))).
  intros rows Hsorted. induction Hsorted as [|r rows Hsorted IH Hr]; intros Hin.
  { constructor. }
  apply Forall_cons in Hin as [Hr0 Hin]. rewrite fmap_cons. constructor; [by apply IH|].
  apply Forall_fmap, Forall_forall. intros r' Hr'. cbn.
  rewrite Forall_forall in Hr. specialize (Hr r' Hr'). unfold SequenceNumber_le in Hr.
  rewrite Forall_forall in Hin. specialize (Hin r' Hr').
  rewrite !int64_id by lia. done.
Qed.

Lemma GetLeavesByHash_orderBySequence_witness :
  [h32 Byte.x11; h32 Byte.x22] ≠ []
  ∧ LeafIndex <$> default [] (err_of_ok
      (GetLeavesByHash preordered_tx [h32 Byte.x11; h32 Byte.x22] false shuffled_sql)) = [1; 0]
  ∧ LeafIndex <$> default [] (err_of_ok
      (GetLeavesByHash preordered_tx [h32 Byte.x11; h32 Byte.x22] true shuffled_sql)) = [0; 1]
  ∧ match GetLeavesByHash preordered_tx [h32 Byte.x11; h32 Byte.x22] true shuffled_sql,
          GetLeavesByHash preordered_tx [h32 Byte.x11; h32 Byte.x22] false shuffled_sql with
    | Ok sorted, Ok unsorted =>
        sorted ≡ₚ unsorted
        ∧ (Forall (λ q, 0 ≤ sl_SequenceNumber q < 2 ^ 63)
             (SequencedLeafData (db shuffled_sql)) →
           StronglySorted (λ a b, LeafIndex a ≤ LeafIndex b) sorted)
    | Err e, Err e' => e = e'
    | _, _ => False
    end.
Proof.
  split; [done|]. split; [vm_compute; reflexivity|]. split; [vm_compute; reflexivity|].
  apply (GetLeavesByHash_orderBySequence preordered_tx [h32 Byte.x11; h32 Byte.x22]
           shuffled_sql).
  done.
Defined.

(** ** The order of the inserts *)

Lemma Byte_to_N_inj (x y : Byte.byte) : Byte.to_N x = Byte.to_N y → x = y.
Proof.
  intros Heq. pose proof (Byte.of_to_N x) as Hx. rewrite Heq, Byte.of_to_N in Hx. congruence.
Qed.

Lemma bytes_Compare_eq (a b : bytes) : bytes_Compare a b = 0 ↔ a = b.
Proof.
  revert b. induction a as [|x a IH]; intros [|y b]; cbn; try done.
  destruct (N.ltb_spec (Byte.to_N x) (Byte.to_N y)) as [Hlt|Hge].
  { split; [done|]. intros [= -> _]. lia. }
  destruct (N.ltb_spec (Byte.to_N y) (Byte.to_N x)) as [Hlt|Hge'].
  { split; [done|]. intros [= -> _]. lia. }
  rewrite IH. assert (x = y) as -> by (apply Byte_to_N_inj; lia).
  split; [by intros ->|by intros [= ->]].
Qed.

(** X22: [Less] is a strict order of the identity hashes, as [sort.Sort]
    needs: no entry is less than itself, the relation is transitive, and
    of two entries exactly one is less than the other unless their
    identity hashes are equal, when neither is. *)
Theorem Less_strict_order (a b c : leafAndPosition) :
  Less a a = false
  ∧ (Less a b = true → Less b c = true → Less a c = true)
  ∧ (Less a b = true → Less b a = false)
  ∧ (Less a b = false ∧ Less b a = false
     ↔ LeafIdentityHash (leaf a) = LeafIdentityHash (leaf b)).
Proof.
  split; [|split; [apply Less_trans|split; [apply Less_asym|]]].
  - unfold Less. apply bool_decide_eq_false.
    by rewrite (proj2 (bytes_Compare_eq (LeafIdentityHash (leaf a)) _) eq_refl).
  - unfold Less. rewrite !bool_decide_eq_false, <- bytes_Compare_eq.
    rewrite (bytes_Compare_antisym (LeafIdentityHash (leaf a))).
    destruct (bytes_Compare_range (LeafIdentityHash (leaf a)) (LeafIdentityHash (leaf b)))
      as [-> | [-> | ->]]; lia.
Qed.
